(** * The bonding-curve swap quotation of the token-swap widget

    A shallow embedding of the quotation logic of the [TokenSwap]
    component: the derivation of the virtual reserves from
    [token.totalUsdtRaised], the two quote functions
    [calculateTokensToReceive] and [calculateUsdtToReceive], the spot
    price [getCurrentPriceNatural] and the effect that recomputes the
    quoted amount whenever the typed amount, the direction or the raised
    total change.

    The component computes with JavaScript Numbers.  A Number is an
    IEEE-754 binary64 value and every arithmetic operator returns the
    exact result rounded to nearest, ties to even.  The embedding uses the
    specification of binary floating-point arithmetic of the standard
    library ([SpecFloat], precision 53, maximal exponent 1024), so the
    functions below compute bit for bit what the widget computes.

    The second half of the file develops what is needed to reason about
    all inputs at once: real values of floats, the location arithmetic of
    the rounding function, the fact that every operation returns a float
    nearest to its exact result, and the order and error bounds that
    follow from it. *)

From Stdlib Require Import ZArith Bool Ascii String Reals QArith Qfield Psatz.
From Stdlib Require Import SpecFloat.

Local Open Scope string_scope.
Local Open Scope Z_scope.

(** ** JavaScript values used by the widget *)

(** *** Completions: a value, or a thrown exception *)

Inductive jsError := SyntaxError | RangeError.

Inductive completion (A : Type) :=
| Normal (a : A)
| Throw (e : jsError).

Arguments Normal {A} a.
Arguments Throw {A} e.

Definition bind {A B} (c : completion A) (k : A -> completion B) : completion B :=
  match c with
  | Normal a => k a
  | Throw e => Throw e
  end.

Notation "x <- c ;; k" := (bind c (fun x => k))
  (at level 61, c at next level, right associativity).

(** [try { body } catch { handler }] *)
Definition try_catch {A} (body handler : completion A) : completion A :=
  match body with
  | Normal a => Normal a
  | Throw _ => handler
  end.

(** *** Numbers *)

(** binary64: 53 bits of precision, exponents below 1024. *)
Definition prec64 : Z := 53.
Definition emax64 : Z := 1024.

Definition number := spec_float.

(** A Number held by the engine is always a canonical binary64 value. *)
Definition wf (x : number) : bool := valid_binary prec64 emax64 x.

Definition is_finite (x : number) : bool :=
  match x with
  | S754_zero _ | S754_finite _ _ _ => true
  | _ => false
  end.

Definition Nadd : number -> number -> number := SFadd prec64 emax64.
Definition Nsub : number -> number -> number := SFsub prec64 emax64.
Definition Nmul : number -> number -> number := SFmul prec64 emax64.
Definition Ndiv : number -> number -> number := SFdiv prec64 emax64.
Definition Nltb : number -> number -> bool := SFltb.
Definition Nleb : number -> number -> bool := SFleb.

Definition isNaN (x : number) : bool :=
  match x with
  | S754_nan => true
  | _ => false
  end.

(** An integer literal of the source text ([6000], [0], [1e18]). *)
Definition lit (z : Z) : number := binary_normalize prec64 emax64 z 0 false.

Definition zero : number := S754_zero false.

(** An integer as an exact, not yet rounded, binary value. *)
Definition Z2SF (z : Z) : spec_float :=
  match z with
  | Z0 => S754_zero false
  | Zpos p => S754_finite false p 0
  | Zneg p => S754_finite true p 0
  end.

(** [Number(formatUnits(w, decimals))].  [formatUnits] prints the exact
    decimal expansion of [w / 10^decimals] and [Number] reads a decimal
    string as the nearest binary64 value, ties to even; the composition
    is the correctly rounded quotient of the two integers. *)
Definition Number_formatUnits (w : Z) (decimals : Z) : number :=
  SFdiv prec64 emax64 (Z2SF w) (Z2SF (10 ^ decimals)).

(** [Math.floor]: the largest integral Number not above the argument. *)
Definition Math_floor (x : number) : number :=
  match x with
  | S754_finite s m e =>
      if 0 <=? e then x
      else
        let q := Z.shiftr (Zpos m) (- e) in
        if s then
          if Z.shiftl q (- e) =? Zpos m then lit (- q) else lit (- (q + 1))
        else lit q
  | _ => x
  end.

(** [BigInt(x)] for a Number [x]: a [RangeError] unless [x] is integral. *)
Definition BigInt_of_Number (x : number) : completion Z :=
  match x with
  | S754_zero _ => Normal 0
  | S754_finite s m e =>
      if 0 <=? e then Normal (cond_Zopp s (Zpos m * 2 ^ e))
      else if Zpos m mod 2 ^ (- e) =? 0
           then Normal (cond_Zopp s (Zpos m / 2 ^ (- e)))
           else Throw RangeError
  | _ => Throw RangeError
  end.

(** ** The widget *)

(** The [Token] prop; a field that is [undefined] is [None]. *)
Record Token := {
  name : string;
  symbol : string;
  image : string;
  price : option string;
  totalUsdtRaised : option string;
  userTokenBalance : option string
}.

Record Reserves := {
  virtualUsdtNatural : number;
  virtualTokensNatural : number
}.

(** [token?.totalUsdtRaised]: [None] is [undefined]. *)
Definition token_totalUsdtRaised (token : option Token) : option string :=
  match token with
  | Some t => totalUsdtRaised t
  | None => None
  end.

(** A string is falsy exactly when it is empty, [undefined] always is. *)
Definition truthy (s : option string) : bool :=
  match s with
  | Some EmptyString | None => false
  | Some _ => true
  end.

(** [s || "0"] *)
Definition or_zero (s : option string) : string :=
  match s with
  | Some EmptyString | None => "0"%string
  | Some s' => s'
  end.

(** Bonding curve constants *)
Definition VIRTUAL_USDT_RESERVE : number := lit 6000.
Definition VIRTUAL_TOKEN_RESERVE : number := lit 1073000191.
Definition BONDING_CURVE_K : number := Nmul VIRTUAL_USDT_RESERVE VIRTUAL_TOKEN_RESERVE.

(** The reserves as a function of the raised total in natural units. *)
Definition reservesAt (totalUsdtRaisedNatural : number) : Reserves :=
  let virtualUsdtNatural := Nadd VIRTUAL_USDT_RESERVE totalUsdtRaisedNatural in
  let virtualTokensNatural := Ndiv BONDING_CURVE_K virtualUsdtNatural in
  {| virtualUsdtNatural := virtualUsdtNatural;
     virtualTokensNatural := virtualTokensNatural |}.

(** The reserves after a hypothetical purchase, resp. sale: the pair
    [(newVirtualUsdtNatural, newVirtualTokensNatural)] of the two quote
    functions. *)
Definition reservesAfterBuy (r : Reserves) (usdtAmountNatural : number) : Reserves :=
  let newVirtualUsdtNatural := Nadd (virtualUsdtNatural r) usdtAmountNatural in
  let newVirtualTokensNatural := Ndiv BONDING_CURVE_K newVirtualUsdtNatural in
  {| virtualUsdtNatural := newVirtualUsdtNatural;
     virtualTokensNatural := newVirtualTokensNatural |}.

Definition reservesAfterSell (r : Reserves) (tokenAmountNatural : number) : Reserves :=
  let newVirtualTokensNatural := Nadd (virtualTokensNatural r) tokenAmountNatural in
  let newVirtualUsdtNatural := Ndiv BONDING_CURVE_K newVirtualTokensNatural in
  {| virtualUsdtNatural := newVirtualUsdtNatural;
     virtualTokensNatural := newVirtualTokensNatural |}.

Section Widget.

(** Built-ins of the engine that the widget calls on strings.
    [BigInt s] throws a [SyntaxError] on a string that is no integer
    literal, which is [None] here. *)
Variable BigInt : string -> option Z.
Variable parseFloat : string -> number.
Variable toFixed : number -> Z -> string.

Definition BigInt_of_string (s : string) : completion Z :=
  match BigInt s with
  | Some w => Normal w
  | None => Throw SyntaxError
  end.

(** Calculate current virtual reserves from totalUsdtRaised *)
Definition getCurrentVirtualReserves (token : option Token) : completion Reserves :=
  try_catch
    (let totalUsdtRaisedWei := or_zero (token_totalUsdtRaised token) in
     w <- BigInt_of_string totalUsdtRaisedWei ;;
     let totalUsdtRaisedNatural := Number_formatUnits w 18 in
     Normal (reservesAt totalUsdtRaisedNatural))
    (Normal {| virtualUsdtNatural := VIRTUAL_USDT_RESERVE;
               virtualTokensNatural := VIRTUAL_TOKEN_RESERVE |}).

(** Calculate tokens to receive for USDT input (buying tokens) *)
Definition calculateTokensToReceive (token : option Token) (usdtAmountWei : Z)
  : completion number :=
  try_catch
    (r <- getCurrentVirtualReserves token ;;
     let usdtAmountNatural := Number_formatUnits usdtAmountWei 18 in
     let r' := reservesAfterBuy r usdtAmountNatural in
     let tokensToMintNatural :=
       Nsub (virtualTokensNatural r) (virtualTokensNatural r') in
     Normal tokensToMintNatural)
    (Normal zero).

(** Calculate USDT to receive for token input (selling tokens) *)
Definition calculateUsdtToReceive (token : option Token) (tokenAmountNatural : number)
  : completion number :=
  try_catch
    (r <- getCurrentVirtualReserves token ;;
     let r' := reservesAfterSell r tokenAmountNatural in
     let usdtToReturnNatural :=
       Nsub (virtualUsdtNatural r) (virtualUsdtNatural r') in
     Normal usdtToReturnNatural)
    (Normal zero).

(** Get current price in natural units (calculated from virtual reserves) *)
Definition getCurrentPriceNatural (token : option Token) : completion number :=
  try_catch
    (r <- getCurrentVirtualReserves token ;;
     Normal (Ndiv (virtualUsdtNatural r) (virtualTokensNatural r)))
    (Normal zero).

(** The effect on [fromAmount], [isTokenToUsdt], [token?.totalUsdtRaised]:
    the result is the string handed to [setToAmount], or the exception
    that escapes the effect. *)
Definition quoteEffect (fromAmount : string) (isTokenToUsdt : bool)
           (token : option Token) : completion string :=
  if negb (truthy (Some fromAmount)) || negb (truthy (token_totalUsdtRaised token))
  then Normal EmptyString
  else
    let fromValue := parseFloat fromAmount in
    if isNaN fromValue || Nleb fromValue zero then Normal EmptyString
    else
      calculatedToAmount <-
        (if isTokenToUsdt then calculateUsdtToReceive token fromValue
         else
           usdtAmountWei <- BigInt_of_Number (Math_floor (Nmul fromValue (lit (10 ^ 18)))) ;;
           calculateTokensToReceive token usdtAmountWei) ;;
      Normal (toFixed calculatedToAmount 6).

End Widget.

(** ** Real values and the rounding relation *)

Definition bpow (e : Z) : R := powerRZ 2 e.

Definition F2R (s : bool) (m : positive) (e : Z) : R :=
  (IZR (cond_Zopp s (Zpos m)) * bpow e)%R.

(** The real value of a finite float; zero for the others. *)
Definition SF2R (x : spec_float) : R :=
  match x with
  | S754_finite s m e => F2R s m e
  | _ => 0%R
  end.

(** [x] lies in [[m, m+1)] at the place [l] says. *)
Definition inbet (m : Z) (l : location) (x : R) : Prop :=
  match l with
  | loc_Exact => x = IZR m
  | loc_Inexact c =>
      (IZR m < x < IZR m + 1)%R /\
      match c with
      | Lt => (x < IZR m + / 2)%R
      | Eq => (x = IZR m + / 2)%R
      | Gt => (IZR m + / 2 < x)%R
      end
  end.

Definition inbet_rec (mrs : shr_record) (x : R) : Prop :=
  0 <= shr_m mrs /\ inbet (shr_m mrs) (loc_of_shr_record mrs) x.

Section RoundingDefinitions.

Variables prec emax : Z.

(** [m * 2^e] is a float of the format, the exponent range unbounded
    above, that is nearest to the non-negative real [v]; in the normal
    range its relative error is at most [2^-prec]. *)
Definition Frounding (v : R) (m e : Z) : Prop :=
  0 <= m < 2 ^ prec /\ emin prec emax <= e /\
  (2 ^ (prec - 1) <= m \/ e = emin prec emax) /\
  (forall k c, emin prec emax <= c -> Z.abs k < 2 ^ prec ->
     (Rabs (v - IZR m * bpow e) <= Rabs (v - IZR k * bpow c))%R) /\
  ((bpow (emin prec emax + prec - 1) <= v)%R ->
     (Rabs (v - IZR m * bpow e) <= bpow (- prec) * v)%R).

(** The float that [binary_round_aux] builds from a rounded mantissa:
    the overflow check comes last. *)
Definition pack (s : bool) (m e : Z) : spec_float :=
  match m with
  | Z0 => S754_zero s
  | Zpos p => if e <=? emax - prec then S754_finite s p e else S754_infinity s
  | Zneg _ => S754_nan
  end.

Definition canonical (m e : Z) : Prop :=
  0 < m < 2 ^ prec /\ emin prec emax <= e /\
  (2 ^ (prec - 1) <= m \/ e = emin prec emax).

Definition zero_or_canonical (m e : Z) : Prop := m = 0 \/ canonical m e.

(** [r] is the exact value [v] rounded to nearest. *)
Definition Rnd (v : R) (r : spec_float) : Prop :=
  exists s m e, Frounding (Rabs v) m e /\ r = pack s m e /\
                ((0 < v)%R -> s = false) /\ ((v < 0)%R -> s = true).

(** The signed value of a rounding result before the overflow check. *)
Definition sval (s : bool) (m e : Z) : R := (IZR (cond_Zopp s m) * bpow e)%R.

Definition in_format (f : R) : Prop :=
  exists k c, emin prec emax <= c /\ Z.abs k < 2 ^ prec /\ f = (IZR k * bpow c)%R.

(** [rv] is a float nearest to [v]. *)
Definition Snear (v rv : R) : Prop :=
  in_format rv /\ forall f, in_format f -> (Rabs (v - rv) <= Rabs (v - f))%R.

End RoundingDefinitions.

(** ** Predicates on Numbers *)

(** [+0], a positive finite Number, or [+Infinity]. *)
Definition nonneg (x : number) : bool :=
  match x with
  | S754_zero false | S754_finite false _ _ | S754_infinity false => true
  | _ => false
  end.

(** A positive finite Number. *)
Definition pos_finite (x : number) : bool :=
  match x with
  | S754_finite false _ _ => wf x
  | _ => false
  end.

(** A positive Number, [+Infinity] included. *)
Definition pos_ext (x : number) : bool :=
  match x with
  | S754_infinity false => true
  | _ => pos_finite x
  end.

(** ** Instances and compositions used to state the properties *)

(** The raised total that [getCurrentVirtualReserves] reads. *)
Definition raisedWei (BigInt : string -> option Z) (token : option Token) : option Z :=
  BigInt (or_zero (token_totalUsdtRaised token)).

(** The decimal literals of [StringToBigInt]: digits with an optional
    sign, the empty string being [0n].  White space and the prefixed
    radixes are left out; it serves as the instance of [BigInt] on the
    strings a token carries. *)
Definition digit_value (c : Ascii.ascii) : option Z :=
  let n := Z.of_nat (Ascii.nat_of_ascii c) in
  if (48 <=? n) && (n <=? 57) then Some (n - 48) else None.

Fixpoint digits_value (s : string) (acc : Z) : option Z :=
  match s with
  | EmptyString => Some acc
  | String c s' =>
      match digit_value c with
      | Some d => digits_value s' (10 * acc + d)
      | None => None
      end
  end.

Definition BigInt_decimal (s : string) : option Z :=
  match s with
  | EmptyString => Some 0
  | String "-"%char (String c s') => option_map Z.opp (digits_value (String c s') 0)
  | String "+"%char (String c s') => digits_value (String c s') 0
  | _ => digits_value s 0
  end.

(** A token that has raised [raised] wei. *)
Definition token_with (raised : string) : option Token :=
  Some {| name := "Token"; symbol := "TKN"; image := "";
          price := None; totalUsdtRaised := Some raised; userTokenBalance := None |}.

(** Selling [tokenAmount] and spending the quoted USDT on a purchase,
    both quoted on the same token state; the USDT amount is turned into
    wei the way the effect does it. *)
Definition roundTrip (BigInt : string -> option Z) (token : option Token)
           (tokenAmount : number) : completion number :=
  usdt <- calculateUsdtToReceive BigInt token tokenAmount ;;
  usdtAmountWei <- BigInt_of_Number (Math_floor (Nmul usdt (lit (10 ^ 18)))) ;;
  calculateTokensToReceive BigInt token usdtAmountWei.


(** ** The formulas in exact arithmetic

    The same three formulas over the rationals, without rounding: the
    arithmetic in which the algebraic properties of a constant-product
    curve hold exactly. *)
Module Exact.

Definition VIRTUAL_USDT_RESERVE : Q := 6000%Q.
Definition VIRTUAL_TOKEN_RESERVE : Q := 1073000191%Q.
Definition BONDING_CURVE_K : Q := (VIRTUAL_USDT_RESERVE * VIRTUAL_TOKEN_RESERVE)%Q.

Definition virtualUsdt (totalUsdtRaised : Q) : Q :=
  (VIRTUAL_USDT_RESERVE + totalUsdtRaised)%Q.

Definition virtualTokens (totalUsdtRaised : Q) : Q :=
  (BONDING_CURVE_K / virtualUsdt totalUsdtRaised)%Q.

Definition calculateTokensToReceive (totalUsdtRaised usdtAmount : Q) : Q :=
  (virtualTokens totalUsdtRaised
   - BONDING_CURVE_K / (virtualUsdt totalUsdtRaised + usdtAmount))%Q.

Definition calculateUsdtToReceive (totalUsdtRaised tokenAmount : Q) : Q :=
  (virtualUsdt totalUsdtRaised
   - BONDING_CURVE_K / (virtualTokens totalUsdtRaised + tokenAmount))%Q.

Definition getCurrentPriceNatural (totalUsdtRaised : Q) : Q :=
  (virtualUsdt totalUsdtRaised / virtualTokens totalUsdtRaised)%Q.

End Exact.

(** [virtualQuote * virtualBase] equals [invariantK] within the relative
    tolerance [tol], the product taken exactly. *)
Definition invariant_within (tol : R) (r : Reserves) : Prop :=
  (Rabs (SF2R (virtualUsdtNatural r) * SF2R (virtualTokensNatural r) - SF2R BONDING_CURVE_K)
   <= tol * SF2R BONDING_CURVE_K)%R.

(** [x] is within [tol] units of the integer [target]. *)
Definition within (tol : Z) (x : number) (target : Z) : bool :=
  Nleb (lit (target - tol)) x && Nleb x (lit (target + tol)).

(** The Numbers that the literals [1e-8], [1.00000001] and [5e-19]
    denote. *)
Definition num_1e_8 : number := S754_finite false 6044629098073146 (-79).
Definition num_1_00000001 : number := S754_finite false 4503599672406492 (-52).

(** The unit roundoff of binary64, [2^-53]. *)
Definition u64 : R := (/ 9007199254740992)%R.

(** * Rounding to nearest in [SpecFloat] *)

(** ** Powers of two and binary digits *)

Lemma bpow_gt_0 e : (0 < bpow e)%R.
Proof. apply powerRZ_lt; lra. Qed.

Lemma bpow_plus a b : bpow (a + b) = (bpow a * bpow b)%R.
Proof. apply powerRZ_add; lra. Qed.

Lemma bpow_0 : bpow 0 = 1%R.
Proof. reflexivity. Qed.

Lemma bpow_1 : bpow 1 = 2%R.
Proof. unfold bpow; simpl; lra. Qed.

Lemma bpow_opp e : bpow (- e) = (/ bpow e)%R.
Proof. apply powerRZ_neg'. Qed.

Lemma bpow_IZR e : 0 <= e -> bpow e = IZR (2 ^ e).
Proof.
  intros He. destruct e as [|p|p]; [reflexivity| |lia].
  unfold bpow. rewrite <- Zpower_pos_powerRZ. reflexivity.
Qed.

Lemma bpow_ge_1 e : 0 <= e -> (1 <= bpow e)%R.
Proof.
  intros He. rewrite bpow_IZR by assumption.
  apply IZR_le. assert (0 < 2 ^ e) by (apply Z.pow_pos_nonneg; lia). lia.
Qed.

Lemma bpow_le a b : a <= b -> (bpow a <= bpow b)%R.
Proof.
  intros H. replace b with (a + (b - a)) by ring. rewrite bpow_plus.
  pose proof (bpow_gt_0 a). pose proof (bpow_ge_1 (b - a) ltac:(lia)). nra.
Qed.

Lemma bpow_lt a b : a < b -> (bpow a < bpow b)%R.
Proof.
  intros H. replace b with (a + 1 + (b - a - 1)) by ring.
  rewrite !bpow_plus, bpow_1.
  pose proof (bpow_gt_0 a). pose proof (bpow_ge_1 (b - a - 1) ltac:(lia)). nra.
Qed.

Lemma bpow_lt_inv a b : (bpow a < bpow b)%R -> a < b.
Proof.
  intros H. destruct (Z_lt_le_dec a b) as [|Hle]; [assumption|].
  apply bpow_le in Hle. lra.
Qed.

Lemma bpow_succ e : bpow (e + 1) = (2 * bpow e)%R.
Proof. rewrite bpow_plus, bpow_1. ring. Qed.

(** digits *)
Lemma digits2_pos_bounds m :
  2 ^ (Zpos (digits2_pos m) - 1) <= Zpos m < 2 ^ Zpos (digits2_pos m).
Proof.
  induction m as [m IH|m IH|]; simpl digits2_pos.
  - rewrite Pos2Z.inj_succ.
    replace (Z.succ (Z.pos (digits2_pos m)) - 1) with (Z.pos (digits2_pos m) - 1 + 1) by lia.
    rewrite Z.pow_succ_r by lia.
    rewrite Z.pow_add_r by lia. change (2 ^ 1) with 2. lia.
  - rewrite Pos2Z.inj_succ.
    replace (Z.succ (Z.pos (digits2_pos m)) - 1) with (Z.pos (digits2_pos m) - 1 + 1) by lia.
    rewrite Z.pow_succ_r by lia.
    rewrite Z.pow_add_r by lia. change (2 ^ 1) with 2. lia.
  - simpl. lia.
Qed.

Lemma pow2_lt_inv a b : 0 <= a -> 0 <= b -> 2 ^ a < 2 ^ b -> a < b.
Proof. intros. apply (Z.pow_lt_mono_r_iff 2); lia. Qed.

Lemma digits2_pos_unique m k :
  2 ^ (k - 1) <= Zpos m < 2 ^ k -> Zpos (digits2_pos m) = k.
Proof.
  intros [H1 H2]. pose proof (digits2_pos_bounds m) as [H3 H4].
  assert (0 < k).
  { destruct (Z_lt_le_dec 0 k) as [|Hk]; [assumption|].
    destruct (Z.eq_dec k 0) as [->|Hk0]; [simpl in H2; lia|].
    rewrite Z.pow_neg_r in H2; lia. }
  set (d := Zpos (digits2_pos m)) in *.
  assert (d - 1 < k) by (apply pow2_lt_inv; lia).
  assert (k - 1 < d) by (apply pow2_lt_inv; lia).
  lia.
Qed.

Lemma iter_xO m d : Zpos (Pos.iter xO m d) = Zpos m * 2 ^ Zpos d.
Proof.
  revert m. induction d as [|d IH] using Pos.peano_ind; intros m.
  - simpl. lia.
  - rewrite Pos.iter_succ. rewrite Pos2Z.inj_xO, IH, Pos2Z.inj_succ, Z.pow_succ_r; lia.
Qed.

(** ** Shifting right keeps the location *)

Lemma loc_of_shr_record_of_loc m l :
  loc_of_shr_record (shr_record_of_loc m l) = l.
Proof. destruct l as [|[]]; reflexivity. Qed.

Lemma shr_m_shr_record_of_loc m l : shr_m (shr_record_of_loc m l) = m.
Proof. destruct l as [|[]]; reflexivity. Qed.

Lemma IZR_xO p : IZR (Zpos (xO p)) = (2 * IZR (Zpos p))%R.
Proof. rewrite Pos2Z.inj_xO, mult_IZR. reflexivity. Qed.

Lemma IZR_xI p : IZR (Zpos (xI p)) = (2 * IZR (Zpos p) + 1)%R.
Proof. rewrite Pos2Z.inj_xI, plus_IZR, mult_IZR. reflexivity. Qed.

Lemma shr_1_inbet mrs x :
  inbet_rec mrs x -> inbet_rec (shr_1 mrs) (x / 2).
Proof.
  destruct mrs as [m r s]. unfold inbet_rec.
  intros [Hm H]. cbn [shr_m] in Hm.
  destruct m as [|[p|p|]|p]; [| | | |lia];
    try pose proof (IZR_xO p) as E; try pose proof (IZR_xI p) as E';
    destruct r, s;
    cbn [shr_1 shr_m loc_of_shr_record orb inbet] in *;
    (split; [lia|]); lra.
Qed.

Lemma shr_1_m mrs : 0 <= shr_m mrs -> shr_m (shr_1 mrs) = shr_m mrs / 2.
Proof.
  destruct mrs as [m r s]. simpl. intros Hm.
  destruct m as [|[p|p|]|p]; simpl; try lia; try reflexivity.
  - rewrite Pos2Z.inj_xI. apply Z.div_unique with 1; lia.
  - rewrite Pos2Z.inj_xO. apply Z.div_unique with 0; lia.
Qed.

Lemma pow2_xI p : 2 ^ Zpos p~1 = 2 * (2 ^ Zpos p * 2 ^ Zpos p).
Proof.
  replace (Zpos p~1) with (Zpos p + Zpos p + 1) by lia.
  rewrite !Z.pow_add_r by lia. change (2 ^ 1) with 2. ring.
Qed.

Lemma pow2_xO p : 2 ^ Zpos p~0 = 2 ^ Zpos p * 2 ^ Zpos p.
Proof.
  replace (Zpos p~0) with (Zpos p + Zpos p) by lia.
  rewrite !Z.pow_add_r by lia. ring.
Qed.

Lemma iter_shr_1_inbet p : forall mrs x,
  inbet_rec mrs x ->
  inbet_rec (iter_pos shr_1 p mrs) (x / IZR (2 ^ Zpos p)).
Proof.
  induction p as [p IH|p IH|]; intros mrs x H; simpl iter_pos.
  - apply shr_1_inbet in H. apply IH in H. apply IH in H.
    replace (x / IZR (2 ^ Zpos p~1))%R with (x / 2 / IZR (2 ^ Zpos p) / IZR (2 ^ Zpos p))%R; [assumption|].
    rewrite pow2_xI, !mult_IZR.
    assert (0 < IZR (2 ^ Z.pos p))%R by (apply IZR_lt, Z.pow_pos_nonneg; lia).
    field. lra.
  - apply IH in H. apply IH in H.
    replace (x / IZR (2 ^ Zpos p~0))%R with (x / IZR (2 ^ Zpos p) / IZR (2 ^ Zpos p))%R; [assumption|].
    rewrite pow2_xO, !mult_IZR.
    assert (0 < IZR (2 ^ Z.pos p))%R by (apply IZR_lt, Z.pow_pos_nonneg; lia).
    field. lra.
  - apply shr_1_inbet in H. exact H.
Qed.

Lemma iter_shr_1_m p : forall mrs,
  0 <= shr_m mrs ->
  shr_m (iter_pos shr_1 p mrs) = shr_m mrs / 2 ^ Zpos p /\ 0 <= shr_m (iter_pos shr_1 p mrs).
Proof.
  assert (Hstep : forall mrs, 0 <= shr_m mrs -> 0 <= shr_m (shr_1 mrs)).
  { intros mrs H. rewrite shr_1_m by assumption. apply Z.div_pos; lia. }
  assert (Hp : forall q, 0 < 2 ^ Zpos q) by (intros; apply Z.pow_pos_nonneg; lia).
  induction p as [p IH|p IH|]; intros mrs H; simpl iter_pos.
  - destruct (IH (shr_1 mrs) (Hstep _ H)) as [E1 P1].
    destruct (IH _ P1) as [E2 P2]. split; [|assumption].
    rewrite E2, E1, shr_1_m by assumption. pose proof (Hp p).
    rewrite !Z.div_div by lia.
    f_equal. rewrite pow2_xI. ring.
  - destruct (IH mrs H) as [E1 P1].
    destruct (IH _ P1) as [E2 P2]. split; [|assumption].
    rewrite E2, E1. pose proof (Hp p).
    rewrite !Z.div_div by lia.
    f_equal. rewrite pow2_xO. ring.
  - split; [apply shr_1_m; assumption | apply Hstep; assumption].
Qed.

(** rounding to nearest of a located value *)
Lemma round_nearest_even_inbet m l x :
  inbet m l x ->
  (round_nearest_even m l = m \/ round_nearest_even m l = m + 1) /\
  (Rabs (x - IZR (round_nearest_even m l)) <= / 2)%R /\
  (IZR m <= x < IZR m + 1)%R.
Proof.
  unfold inbet, round_nearest_even. intros H.
  destruct l as [|[]].
  - subst x. split; [left; reflexivity|]. split; [|lra].
    replace (IZR m - IZR m)%R with 0%R by ring. rewrite Rabs_R0. lra.
  - destruct H as [H1 H2]. destruct (Z.even m); (split; [auto|]); split; try lra;
      rewrite ?plus_IZR; unfold Rabs; destruct Rcase_abs; lra.
  - destruct H as [H1 H2]. (split; [auto|]); split; try lra;
      rewrite ?plus_IZR; unfold Rabs; destruct Rcase_abs; lra.
  - destruct H as [H1 H2]. (split; [auto|]); split; try lra;
      rewrite ?plus_IZR; unfold Rabs; destruct Rcase_abs; lra.
Qed.

Lemma shr_spec mrs e n x :
  inbet_rec mrs x -> 0 <= n ->
  exists mrs', shr mrs e n = (mrs', e + n) /\
               inbet_rec mrs' (x * bpow (- n)) /\
               shr_m mrs' = shr_m mrs / 2 ^ n.
Proof.
  intros H Hn. destruct n as [|p|p]; [| |lia].
  - exists mrs. simpl. rewrite Z.add_0_r, Z.div_1_r, Rmult_1_r. auto.
  - exists (iter_pos shr_1 p mrs). split; [reflexivity|]. split.
    + rewrite bpow_opp, bpow_IZR by lia. apply (iter_shr_1_inbet p _ _ H).
    + apply iter_shr_1_m. apply H.
Qed.

Lemma Rabs_le_half_nearest (x : R) (m k : Z) :
  (Rabs (x - IZR m) <= / 2)%R -> (Rabs (x - IZR m) <= Rabs (x - IZR k))%R.
Proof.
  intros H. destruct (Z.eq_dec k m) as [->|Hne]; [lra|].
  assert (Hk : k <= m - 1 \/ m + 1 <= k) by lia.
  destruct Hk as [Hk|Hk]; apply IZR_le in Hk;
    rewrite ?minus_IZR, ?plus_IZR in Hk;
    revert H; unfold Rabs; repeat destruct Rcase_abs; lra.
Qed.

Section Rounding.

Variables prec emax : Z.
Hypothesis prec_gt_0 : 0 < prec.
Hypothesis prec_lt_emax : prec < emax.

Local Abbreviation emin := (emin prec emax).
Local Abbreviation fexp := (fexp prec emax).
Local Abbreviation Frounding := (Frounding prec emax).
Local Abbreviation pack := (pack prec emax).
Local Abbreviation canonical := (canonical prec emax).
Local Abbreviation zero_or_canonical := (zero_or_canonical prec emax).
Local Abbreviation Rnd := (Rnd prec emax).
Local Abbreviation in_format := (in_format prec emax).
Local Abbreviation Snear := (Snear prec emax).

(** [m * 2^e] is a float of the format (with unbounded exponent) nearest
    to the non-negative real [v]. *)

Lemma Zdigits2_bounds m : 0 < m -> 2 ^ (Zdigits2 m - 1) <= m < 2 ^ Zdigits2 m.
Proof. destruct m; try lia. intros _. apply digits2_pos_bounds. Qed.

Lemma Zdigits2_le m k : 0 <= k -> 0 <= m < 2 ^ k -> Zdigits2 m <= k.
Proof.
  intros Hk [H0 H1]. destruct (Z.eq_dec m 0) as [->|Hm]; [simpl; lia|].
  pose proof (Zdigits2_bounds m ltac:(lia)) as [H2 H3].
  assert (Zdigits2 m - 1 < k); [|lia].
  assert (0 < Zdigits2 m) by (destruct m; simpl; lia).
  apply pow2_lt_inv; lia.
Qed.

Lemma Zdigits2_pow2 k : 0 <= k -> Zdigits2 (2 ^ k) = k + 1.
Proof.
  intros Hk. assert (0 < 2 ^ k) by (apply Z.pow_pos_nonneg; lia).
  destruct (2 ^ k) as [|p|p] eqn:E; try lia. simpl.
  apply digits2_pos_unique. rewrite <- E.
  replace (k + 1 - 1) with k by lia. rewrite Z.pow_add_r by lia. simpl (2 ^ 1). lia.
Qed.

(** Second normalisation step of [binary_round_aux]. *)
Lemma renormalise m e :
  0 <= m <= 2 ^ prec -> emin <= e ->
  exists m' e',
    shr_fexp prec emax m e loc_Exact = (shr_record_of_loc m' loc_Exact, e') /\
    0 <= m' < 2 ^ prec /\ e <= e' /\ (m < 2 ^ prec -> m' = m /\ e' = e) /\
    (2 ^ (prec - 1) <= m -> 2 ^ (prec - 1) <= m') /\
    (IZR m' * bpow e' = IZR m * bpow e)%R.
Proof.
  intros [Hm0 Hm1] He. unfold shr_fexp.
  assert (Hpp : 0 < 2 ^ prec) by (apply Z.pow_pos_nonneg; lia).
  destruct (Z.eq_dec m (2 ^ prec)) as [Heq|Hne].
  - subst m. rewrite Zdigits2_pow2 by lia.
    replace (fexp (prec + 1 + e) - e) with 1 by (unfold SpecFloat.fexp; lia).
    exists (2 ^ (prec - 1)), (e + 1).
    assert (E2 : 2 ^ prec = 2 * 2 ^ (prec - 1)).
    { replace prec with (prec - 1 + 1) at 1 by lia. rewrite Z.pow_add_r by lia. simpl (2 ^ 1). lia. }
    assert (0 < 2 ^ (prec - 1)) by (apply Z.pow_pos_nonneg; lia).
    split; [|split; [|split; [|split; [|split]]]]; try lia.
    + unfold shr. cbn [iter_pos shr_record_of_loc]. f_equal.
      rewrite E2. destruct (2 ^ (prec - 1)) as [|p|p]; try lia. reflexivity.
    + rewrite E2, mult_IZR, bpow_succ. ring.
  - exists m, e.
    assert (Hn : fexp (Zdigits2 m + e) - e <= 0).
    { pose proof (Zdigits2_le m prec ltac:(lia) ltac:(lia)). unfold SpecFloat.fexp. lia. }
    split; [|repeat split; auto; lia].
    unfold shr. destruct (fexp (Zdigits2 m + e) - e); try lia; reflexivity.
Qed.

Theorem binary_round_aux_spec s mx ex lx x :
  0 <= mx -> inbet mx lx x ->
  (0 < mx -> ex <= fexp (Zdigits2 mx + ex)) ->
  (mx = 0 -> ex <= emin) ->
  exists m e, Frounding (x * bpow ex) m e /\
              binary_round_aux prec emax s mx ex lx = pack s m e.
Proof.
  intros Hmx Hin Hpos Hzero.
  assert (Hpp : 0 < 2 ^ prec) by (apply Z.pow_pos_nonneg; lia).
  assert (Hpp1 : 0 < 2 ^ (prec - 1)) by (apply Z.pow_pos_nonneg; lia).
  assert (E2 : 2 ^ prec = 2 * 2 ^ (prec - 1)).
  { replace prec with (prec - 1 + 1) at 1 by lia. rewrite Z.pow_add_r by lia. simpl (2 ^ 1). lia. }
  set (n1 := fexp (Zdigits2 mx + ex) - ex).
  assert (Hn1 : 0 <= n1).
  { unfold n1. destruct (Z.eq_dec mx 0) as [->|Hne].
    - specialize (Hzero eq_refl). simpl. unfold SpecFloat.fexp. lia.
    - specialize (Hpos ltac:(lia)). lia. }
  (* first stage *)
  destruct (shr_spec (shr_record_of_loc mx lx) ex n1 x) as (mrs1 & Hs1 & Hin1 & Hm1); [| assumption |].
  { split; rewrite ?shr_m_shr_record_of_loc, ?loc_of_shr_record_of_loc; assumption. }
  rewrite shr_m_shr_record_of_loc in Hm1.
  set (e1 := ex + n1) in *. set (m1 := shr_m mrs1) in *.
  set (x1 := (x * bpow (- n1))%R) in *.
  assert (He1 : e1 = fexp (Zdigits2 mx + ex)) by (unfold e1, n1; lia).
  assert (He1min : emin <= e1) by (rewrite He1; unfold SpecFloat.fexp; lia).
  assert (Hv : (x * bpow ex = x1 * bpow e1)%R).
  { unfold x1, e1. rewrite Rmult_assoc, <- bpow_plus. f_equal. f_equal. lia. }
  assert (Hp2n : 0 < 2 ^ n1) by (apply Z.pow_pos_nonneg; lia).
  assert (Hm1b : 0 <= m1 < 2 ^ prec /\ (2 ^ (prec - 1) <= m1 \/ e1 = emin)).
  { destruct (Z.eq_dec mx 0) as [Hz|Hne].
    - specialize (Hzero Hz). rewrite Hm1, Hz, Z.div_0_l by lia.
      split; [lia|]. right. rewrite He1, Hz. simpl. unfold SpecFloat.fexp. lia.
    - pose proof (Zdigits2_bounds mx ltac:(lia)) as [Hd1 Hd2].
      assert (Hd0 : 0 < Zdigits2 mx) by (destruct mx; simpl; lia).
      split; [split|].
      + rewrite Hm1. apply Z.div_pos; lia.
      + rewrite Hm1. apply Z.div_lt_upper_bound; [lia|].
        rewrite <- Z.pow_add_r by lia.
        apply Z.lt_le_trans with (1 := Hd2).
        apply Z.pow_le_mono_r; [lia|]. unfold n1, SpecFloat.fexp. lia.
      + destruct (Z_le_gt_dec emin (Zdigits2 mx + ex - prec)) as [Hnorm|Hsub].
        * left. rewrite Hm1. apply Z.div_le_lower_bound; [lia|].
          rewrite <- Z.pow_add_r by lia.
          apply Z.le_trans with (2 := Hd1).
          apply Z.pow_le_mono_r; [lia|]. unfold n1, SpecFloat.fexp. lia.
        * right. rewrite He1. unfold SpecFloat.fexp. lia. }
  destruct Hm1b as [Hm1b Hnorm].
  (* rounding *)
  destruct Hin1 as [_ Hin1]. fold m1 in Hin1.
  destruct (round_nearest_even_inbet _ _ _ Hin1) as (Hm2 & Hhalf & Hlow).
  set (m2 := round_nearest_even m1 (loc_of_shr_record mrs1)) in *.
  (* second stage *)
  destruct (renormalise m2 e1) as (m3 & e3 & Hs3 & Hm3 & He3 & Hsame & Hn3 & Hval3); [lia|lia|].
  exists m3, e3. split.
  - unfold Frounding. rewrite Hv, Hval3.
    assert (HB : (0 < bpow e1)%R) by apply bpow_gt_0.
    assert (Hdist : (x1 * bpow e1 - IZR m2 * bpow e1 = (x1 - IZR m2) * bpow e1)%R) by ring.
    split; [lia|]. split; [lia|]. split; [|split].
    + destruct Hnorm as [Hnorm|Hnorm]; [left; apply Hn3; lia|].
      destruct (Z_lt_le_dec m2 (2 ^ prec)) as [Hlt|Hge].
      * destruct (Hsame Hlt) as [-> ->]. destruct (Z_le_gt_dec (2 ^ (prec - 1)) m2); [left|right]; lia.
      * left. apply Hn3. lia.
    + intros k c Hc Hk. rewrite Hdist.
      destruct (Z_le_gt_dec e1 c) as [Hce|Hce].
      * replace (IZR k * bpow c)%R with (IZR (k * 2 ^ (c - e1)) * bpow e1)%R.
        2:{ rewrite mult_IZR, <- bpow_IZR by lia. rewrite Rmult_assoc, <- bpow_plus.
            f_equal. f_equal. lia. }
        rewrite <- Rmult_minus_distr_r, !Rabs_mult.
        apply Rmult_le_compat_r; [apply Rabs_pos|].
        apply Rabs_le_half_nearest; assumption.
      * assert (Hn : 2 ^ (prec - 1) <= m1) by (destruct Hnorm; lia).
        apply IZR_le in Hn.
        assert (Hk' : (Rabs (IZR k) <= IZR (2 ^ prec) - 1)%R).
        { rewrite <- abs_IZR. rewrite <- minus_IZR. apply IZR_le. lia. }
        assert (Hc' : (bpow c <= bpow e1 / 2)%R).
        { replace (bpow e1) with (bpow (e1 - 1 + 1)) by (f_equal; lia).
          rewrite bpow_succ. pose proof (bpow_le c (e1 - 1) ltac:(lia)). lra. }
        pose proof (bpow_gt_0 c) as Hc0.
        rewrite E2, mult_IZR in Hk'.
        assert (Hf : (Rabs (IZR k * bpow c) < IZR (2 ^ (prec - 1)) * bpow e1)%R).
        { rewrite Rabs_mult, (Rabs_pos_eq (bpow c)) by lra.
          assert (0 <= Rabs (IZR k))%R by apply Rabs_pos.
          apply IZR_lt in Hpp1. nra. }
        pose proof (Rabs_le_half_nearest _ _ m1 Hhalf) as Hm.
        assert (Hx1 : (Rabs (x1 - IZR m1) = x1 - IZR m1)%R) by (apply Rabs_pos_eq; lra).
        rewrite Hx1 in Hm. rewrite Rabs_mult, (Rabs_pos_eq (bpow e1)) by lra.
        revert Hf. generalize (IZR k * bpow c)%R. intros f Hf.
        assert (Rabs (x1 - IZR m2) * bpow e1 <= (x1 - IZR m1) * bpow e1)%R by nra.
        assert (IZR m1 * bpow e1 >= IZR (2 ^ (prec - 1)) * bpow e1)%R by nra.
        pose proof (Rle_abs f). pose proof (Rle_abs (x1 * bpow e1 - f)). lra.
    + intros Hbig. rewrite Hdist, Rabs_mult, (Rabs_pos_eq (bpow e1)) by lra.
      assert (Hn : 2 ^ (prec - 1) <= m1).
      { destruct Hnorm as [|Hnorm]; [assumption|].
        destruct (Z_le_gt_dec (2 ^ (prec - 1)) m1) as [|Hsub]; [assumption|exfalso].
        assert (Hx : (x1 < IZR (2 ^ (prec - 1)))%R).
        { assert (m1 + 1 <= 2 ^ (prec - 1)) by lia.
          apply IZR_le in H. rewrite plus_IZR in H. lra. }
        rewrite <- bpow_IZR in Hx by lia.
        rewrite Hnorm in *.
        replace (emin + prec - 1) with (prec - 1 + emin) in Hbig by lia.
        rewrite bpow_plus in Hbig. pose proof (bpow_gt_0 emin). nra. }
      apply IZR_le in Hn. rewrite <- bpow_IZR in Hn by lia.
      assert (Hpm : (bpow (- prec) * bpow (prec - 1) = / 2)%R).
      { rewrite <- bpow_plus. replace (- prec + (prec - 1)) with (- (1)) by lia.
        rewrite bpow_opp, bpow_1. reflexivity. }
      assert (H1 : (bpow (prec - 1) * bpow e1 <= x1 * bpow e1)%R)
        by (apply Rmult_le_compat_r; lra).
      apply (Rmult_le_compat_l (bpow (- prec))) in H1; [|pose proof (bpow_gt_0 (- prec)); lra].
      rewrite <- Rmult_assoc, Hpm in H1.
      assert (Rabs (x1 - IZR m2) * bpow e1 <= / 2 * bpow e1)%R
        by (apply Rmult_le_compat_r; lra).
      lra.
  - assert (Hs1' : shr_fexp prec emax mx ex lx = (mrs1, e1)) by exact Hs1.
    unfold binary_round_aux. rewrite Hs1'.
    fold m1. fold m2. rewrite Hs3. simpl shr_m.
    unfold pack. destruct m3; try lia; reflexivity.
Qed.

Lemma bounded_canonical m e :
  bounded prec emax m e = true <-> canonical (Zpos m) e /\ e <= emax - prec.
Proof.
  unfold bounded, canonical_mantissa, canonical.
  rewrite andb_true_iff, Z.eqb_eq, Z.leb_le.
  pose proof (digits2_pos_bounds m) as [Hd1 Hd2].
  set (d := Zpos (digits2_pos m)) in *.
  assert (Hd : 0 < d) by (unfold d; lia).
  split.
  - intros [Hc He]. unfold SpecFloat.fexp in Hc.
    assert (Hdp : d <= prec) by lia.
    split; [|assumption]. split; [split; [lia|]|split; [lia|]].
    + apply Z.lt_le_trans with (1 := Hd2). apply Z.pow_le_mono_r; lia.
    + destruct (Z.eq_dec e emin); [right; assumption|left].
      replace prec with d by lia. assumption.
  - intros [([_ Hm] & He & Hn) Hemax]. split; [|assumption].
    assert (Hdp : d <= prec).
    { assert (d - 1 < prec); [|lia]. apply pow2_lt_inv; lia. }
    unfold SpecFloat.fexp. destruct Hn as [Hn|Hn]; [|lia].
    assert (prec - 1 < d); [|lia]. apply pow2_lt_inv; lia.
Qed.

Lemma Frounding_exact m e :
  canonical m e -> Frounding (IZR m * bpow e) m e.
Proof.
  intros ([H0 H1] & He & Hn). unfold Frounding.
  replace (IZR m * bpow e - IZR m * bpow e)%R with 0%R by ring. rewrite Rabs_R0.
  split; [lia|]. split; [lia|]. split; [assumption|]. split.
  - intros. apply Rabs_pos.
  - intros _. pose proof (bpow_gt_0 e). pose proof (bpow_gt_0 (- prec)).
    apply IZR_lt in H0. apply Rmult_le_pos; [lra|]. apply Rmult_le_pos; lra.
Qed.

Lemma Frounding_zero m e : Frounding 0 m e -> m = 0.
Proof.
  intros ([H0 H1] & He & Hn & Hnear & _).
  assert (Hpp : 0 < 2 ^ prec) by (apply Z.pow_pos_nonneg; lia).
  specialize (Hnear 0 (SpecFloat.emin prec emax) ltac:(lia) ltac:(simpl; lia)).
  rewrite Rmult_0_l, Rminus_0_r, Rabs_R0 in Hnear.
  assert (Hz : (IZR m * bpow e = 0)%R).
  { pose proof (Rabs_pos (0 - IZR m * bpow e)).
    assert (Rabs (0 - IZR m * bpow e) = 0)%R by lra.
    destruct (Req_dec (IZR m * bpow e) 0) as [|Hne]; [assumption|].
    exfalso. apply (Rabs_no_R0 (0 - IZR m * bpow e)); [lra|assumption]. }
  apply Rmult_integral in Hz. destruct Hz as [Hz|Hz].
  - apply eq_IZR in Hz. assumption.
  - pose proof (bpow_gt_0 e). lra.
Qed.

Lemma Frounding_canonical v m e : Frounding v m e -> m = 0 \/ canonical m e.
Proof.
  intros ([H0 H1] & He & Hn & _). destruct (Z.eq_dec m 0); [left; assumption|right].
  unfold canonical. split; [lia|]. split; assumption.
Qed.

Lemma pack_valid s m e : m = 0 \/ canonical m e -> valid_binary prec emax (pack s m e) = true.
Proof.
  intros [->|Hc]; [reflexivity|]. unfold pack.
  destruct m as [|p|p]; try reflexivity.
  destruct (Z.leb_spec e (emax - prec)); [|reflexivity].
  simpl. apply bounded_canonical. split; assumption.
Qed.

Lemma Rnd_valid v r : Rnd v r -> valid_binary prec emax r = true.
Proof.
  intros (s & m & e & H & -> & _). apply pack_valid. eapply Frounding_canonical; eassumption.
Qed.

Lemma F2R_abs s m e : Rabs (F2R s m e) = (IZR (Zpos m) * bpow e)%R.
Proof.
  unfold F2R. rewrite Rabs_mult, (Rabs_pos_eq (bpow e)) by (pose proof (bpow_gt_0 e); lra).
  f_equal. rewrite <- abs_IZR. f_equal. destruct s; reflexivity.
Qed.

Lemma F2R_sign (s : bool) m e :
  if s return Prop then (F2R s m e < 0)%R else (0 < F2R s m e)%R.
Proof.
  unfold F2R. pose proof (bpow_gt_0 e).
  assert (0 < IZR (Zpos m))%R by (apply IZR_lt; lia).
  destruct s; simpl cond_Zopp.
  - change (Z.neg m) with (- Z.pos m). rewrite opp_IZR. nra.
  - nra.
Qed.

Lemma Rnd_exact x :
  valid_binary prec emax x = true -> is_finite x = true -> Rnd (SF2R x) x.
Proof.
  destruct x as [s| |  |s m e]; try discriminate; intros Hv _.
  - exists s, 0, (SpecFloat.emin prec emax). simpl. rewrite Rabs_R0.
    split; [|split; [reflexivity|split; intros; lra]].
    unfold Frounding. rewrite Rmult_0_l, Rminus_0_r, Rabs_R0.
    assert (Hpp : 0 < 2 ^ prec) by (apply Z.pow_pos_nonneg; lia).
    repeat split; try lia; auto. intros; apply Rabs_pos.
    intros Hb. pose proof (bpow_gt_0 (SpecFloat.emin prec emax + prec - 1)). lra.
  - simpl in Hv. apply bounded_canonical in Hv. destruct Hv as [Hc He].
    exists s, (Zpos m), e. simpl SF2R. rewrite F2R_abs.
    split; [apply Frounding_exact; assumption|].
    split.
    + unfold pack. apply Z.leb_le in He. rewrite He. reflexivity.
    + pose proof (F2R_sign s m e). destruct s; split; intros; try reflexivity; lra.
Qed.

Lemma digits2_pos_shift m d :
  Zpos (digits2_pos (Pos.iter xO m d)) = Zpos (digits2_pos m) + Zpos d.
Proof.
  apply digits2_pos_unique. rewrite iter_xO.
  pose proof (digits2_pos_bounds m) as [H1 H2].
  assert (0 < 2 ^ Zpos d) by (apply Z.pow_pos_nonneg; lia).
  replace (Zpos (digits2_pos m) + Zpos d - 1) with (Zpos (digits2_pos m) - 1 + Zpos d) by lia.
  rewrite !Z.pow_add_r by lia. nia.
Qed.

Lemma digits_ge m k : 0 <= k -> 2 ^ k <= Zpos m -> k + 1 <= Zpos (digits2_pos m).
Proof.
  intros Hk H. pose proof (digits2_pos_bounds m) as [_ H2].
  assert (k < Zpos (digits2_pos m)); [|lia]. apply pow2_lt_inv; lia.
Qed.

Lemma shl_align_spec mx ex ex' :
  let '(mz, ez) := shl_align mx ex ex' in
  (IZR (Zpos mz) * bpow ez = IZR (Zpos mx) * bpow ex)%R /\
  ez <= ex /\ (ex' <= ex -> ez = ex') /\ (ex <= ex' -> ez = ex) /\
  Zpos (digits2_pos mz) + ez = Zpos (digits2_pos mx) + ex /\
  Zpos mz = Zpos mx * 2 ^ (ex - ez).
Proof.
  unfold shl_align. destruct (ex' - ex) as [|d|d] eqn:E.
  - rewrite Z.sub_diag. simpl. repeat split; try lia.
  - rewrite Z.sub_diag. simpl. repeat split; try lia.
  - assert (Hd : ex - ex' = Zpos d) by lia.
    rewrite Hd. split; [|split; [lia|split; [lia|split; [lia|split]]]].
    + rewrite iter_xO, mult_IZR, <- bpow_IZR by lia.
      rewrite Rmult_assoc, <- bpow_plus. f_equal. f_equal. lia.
    + rewrite digits2_pos_shift. lia.
    + apply iter_xO.
Qed.

Lemma binary_round_spec s mx ex :
  exists m e, Frounding (IZR (Zpos mx) * bpow ex) m e /\
              binary_round prec emax s mx ex = pack s m e.
Proof.
  unfold binary_round.
  pose proof (shl_align_spec mx ex (fexp (Zpos (digits2_pos mx) + ex))) as H.
  destruct (shl_align mx ex (fexp (Zpos (digits2_pos mx) + ex))) as [mz ez].
  destruct H as (Hv & Hle & H1 & H2 & Hd & _).
  rewrite <- Hv.
  apply (binary_round_aux_spec s (Zpos mz) ez loc_Exact).
  - lia.
  - reflexivity.
  - intros _. simpl Zdigits2. rewrite Hd.
    destruct (Z_le_gt_dec (fexp (Zpos (digits2_pos mx) + ex)) ex) as [Hc|Hc].
    + rewrite (H1 Hc). lia.
    + rewrite (H2 ltac:(lia)). lia.
  - lia.
Qed.

Lemma Rnd_zero s : Rnd 0 (S754_zero s).
Proof.
  exists s, 0, (SpecFloat.emin prec emax). rewrite Rabs_R0.
  split; [|split; [reflexivity|split; intros; lra]].
  unfold Frounding. rewrite Rmult_0_l, Rminus_0_r, Rabs_R0.
  assert (Hpp : 0 < 2 ^ prec) by (apply Z.pow_pos_nonneg; lia).
  repeat split; try lia; auto. intros; apply Rabs_pos.
  intros Hb. pose proof (bpow_gt_0 (SpecFloat.emin prec emax + prec - 1)). lra.
Qed.

Lemma binary_normalize_spec z e sz :
  Rnd (IZR z * bpow e) (binary_normalize prec emax z e sz).
Proof.
  pose proof (bpow_gt_0 e) as Hb.
  destruct z as [|p|p]; simpl binary_normalize.
  - rewrite Rmult_0_l. apply Rnd_zero.
  - destruct (binary_round_spec false p e) as (m & e' & H & E).
    assert (0 < IZR (Zpos p))%R by (apply IZR_lt; lia).
    exists false, m, e'. rewrite Rabs_pos_eq by nra.
    split; [assumption|split; [assumption|split; intros; [reflexivity|nra]]].
  - destruct (binary_round_spec true p e) as (m & e' & H & E).
    assert (0 < IZR (Zpos p))%R by (apply IZR_lt; lia).
    change (Z.neg p) with (- Z.pos p). rewrite opp_IZR.
    exists true, m, e'.
    replace (Rabs (- IZR (Z.pos p) * bpow e)) with (IZR (Z.pos p) * bpow e)%R.
    2:{ rewrite Rabs_left; nra. }
    split; [assumption|split; [assumption|split; intros; [nra|reflexivity]]].
Qed.

Lemma F2R_align s m e ez :
  ez <= e ->
  F2R s m e = (IZR (cond_Zopp s (Zpos (fst (shl_align m e ez)))) * bpow ez)%R.
Proof.
  intros Hle. pose proof (shl_align_spec m e ez) as H.
  destruct (shl_align m e ez) as [mz ez']. destruct H as (Hv & _ & H1 & _).
  rewrite (H1 Hle) in Hv. simpl fst. unfold F2R.
  destruct s; simpl cond_Zopp.
  - change (Z.neg m) with (- Z.pos m). change (Z.neg mz) with (- Z.pos mz).
    rewrite !opp_IZR. lra.
  - lra.
Qed.

Lemma F2R_opp s m e : F2R (negb s) m e = (- F2R s m e)%R.
Proof.
  unfold F2R. destruct s; simpl.
  - change (Z.neg m) with (- Z.pos m). rewrite opp_IZR. ring.
  - change (Z.neg m) with (- Z.pos m). rewrite opp_IZR. ring.
Qed.

Theorem SFadd_spec x y :
  valid_binary prec emax x = true -> valid_binary prec emax y = true ->
  is_finite x = true -> is_finite y = true ->
  Rnd (SF2R x + SF2R y) (SFadd prec emax x y).
Proof.
  intros Vx Vy Fx Fy.
  destruct x as [sx| | |sx mx ex]; try discriminate;
    destruct y as [sy| | |sy my ey]; try discriminate.
  - simpl SF2R. rewrite Rplus_0_l. destruct sx, sy; apply Rnd_zero.
  - simpl SF2R at 1. rewrite Rplus_0_l. simpl SFadd.
    apply Rnd_exact; assumption.
  - simpl SF2R at 2. rewrite Rplus_0_r. simpl SFadd.
    apply Rnd_exact; assumption.
  - simpl SF2R. unfold SFadd.
    rewrite (F2R_align sx mx ex (Z.min ex ey)) by lia.
    rewrite (F2R_align sy my ey (Z.min ex ey)) by lia.
    rewrite <- Rmult_plus_distr_r, <- plus_IZR.
    apply binary_normalize_spec.
Qed.

Theorem SFsub_spec x y :
  valid_binary prec emax x = true -> valid_binary prec emax y = true ->
  is_finite x = true -> is_finite y = true ->
  Rnd (SF2R x - SF2R y) (SFsub prec emax x y).
Proof.
  intros Vx Vy Fx Fy.
  destruct x as [sx| | |sx mx ex]; try discriminate;
    destruct y as [sy| | |sy my ey]; try discriminate.
  - simpl SF2R. rewrite Rminus_0_r. destruct sx, sy; apply Rnd_zero.
  - simpl SF2R at 1. simpl SFsub.
    replace (0 - SF2R (S754_finite sy my ey))%R with (SF2R (S754_finite (negb sy) my ey)).
    2:{ simpl. rewrite F2R_opp. ring. }
    apply Rnd_exact; assumption.
  - simpl SF2R at 2. rewrite Rminus_0_r. simpl SFsub.
    apply Rnd_exact; assumption.
  - simpl SF2R. unfold SFsub.
    rewrite (F2R_align sx mx ex (Z.min ex ey)) by lia.
    rewrite (F2R_align sy my ey (Z.min ex ey)) by lia.
    rewrite <- Rmult_minus_distr_r, <- minus_IZR.
    apply binary_normalize_spec.
Qed.

Lemma Rnd_of_abs (s : bool) v m e r :
  Frounding (Rabs v) m e -> r = pack s m e ->
  ((0 < v)%R -> s = false) -> ((v < 0)%R -> s = true) -> Rnd v r.
Proof. intros. exists s, m, e. auto. Qed.

Theorem SFmul_spec x y :
  valid_binary prec emax x = true -> valid_binary prec emax y = true ->
  is_finite x = true -> is_finite y = true ->
  Rnd (SF2R x * SF2R y) (SFmul prec emax x y).
Proof.
  intros Vx Vy Fx Fy.
  destruct x as [sx| | |sx mx ex]; try discriminate;
    destruct y as [sy| | |sy my ey]; try discriminate;
    simpl SF2R; rewrite ?Rmult_0_l, ?Rmult_0_r; try apply Rnd_zero.
  simpl in Vx, Vy.
  apply bounded_canonical in Vx, Vy.
  destruct Vx as [([_ Hx1] & Hx2 & Hx3) _]. destruct Vy as [([_ Hy1] & Hy2 & Hy3) _].
  simpl SFmul.
  destruct (binary_round_aux_spec (xorb sx sy)
              (Zpos (mx * my)) (ex + ey) loc_Exact (IZR (Zpos (mx * my))))
    as (m & e & H & E).
  - lia.
  - reflexivity.
  - intros _. simpl Zdigits2.
    assert (Hpp1 : 0 < 2 ^ (prec - 1)) by (apply Z.pow_pos_nonneg; lia).
    assert (Hemin : SpecFloat.emin prec emax <= 0) by (unfold SpecFloat.emin; lia).
    assert (Hdig : 2 ^ (prec - 1) <= Zpos (mx * my) -> ex + ey <= fexp (Zpos (digits2_pos (mx * my)) + (ex + ey))).
    { intros Hd. apply digits_ge in Hd; [|lia]. unfold SpecFloat.fexp. lia. }
    destruct Hx3 as [Hx3|Hx3]; [apply Hdig; nia|].
    destruct Hy3 as [Hy3|Hy3]; [apply Hdig; nia|].
    unfold SpecFloat.fexp. lia.
  - lia.
  - apply (Rnd_of_abs (xorb sx sy) _ m e); [|assumption| |].
    + rewrite Rabs_mult, !F2R_abs. rewrite Pos2Z.inj_mul, mult_IZR, bpow_plus in H.
      replace (IZR (Z.pos mx) * bpow ex * (IZR (Z.pos my) * bpow ey))%R
        with (IZR (Z.pos mx) * IZR (Z.pos my) * (bpow ex * bpow ey))%R by ring.
      assumption.
    + pose proof (F2R_sign sx mx ex). pose proof (F2R_sign sy my ey).
      destruct sx, sy; simpl; intros; try reflexivity; nra.
    + pose proof (F2R_sign sx mx ex). pose proof (F2R_sign sy my ey).
      destruct sx, sy; simpl; intros; try reflexivity; nra.
Qed.

(** *** Division *)

Lemma new_location_spec nb k q :
  0 < nb -> 0 <= k < nb ->
  inbet q (new_location nb k) (IZR q + IZR k / IZR nb).
Proof.
  intros Hnb [Hk0 Hk1].
  assert (Hnb' : (0 < IZR nb)%R) by (apply IZR_lt; lia).
  assert (Hfrac : forall a : Z, (IZR a / IZR nb * IZR nb = IZR a)%R) by (intros; field; lra).
  assert (Hlo : k <> 0 -> (0 < IZR k / IZR nb)%R).
  { intros Hk. apply Rdiv_lt_0_compat; [apply IZR_lt; lia|assumption]. }
  assert (Hhi : (IZR k / IZR nb < 1)%R).
  { apply (Rmult_lt_reg_r (IZR nb)); [assumption|]. rewrite Hfrac, Rmult_1_l. apply IZR_lt; lia. }
  assert (Hcmp : forall a b : Z, a < b -> (IZR a / IZR nb < IZR b / IZR nb)%R).
  { intros a b Hab. apply (Rmult_lt_reg_r (IZR nb)); [assumption|]. rewrite !Hfrac. apply IZR_lt; assumption. }
  assert (Hhalf : (IZR nb / IZR nb = 1)%R) by (field; lra).
  assert (H2k : (IZR (2 * k) / IZR nb = 2 * (IZR k / IZR nb))%R).
  { rewrite mult_IZR. field. lra. }
  unfold new_location. destruct (Z.even nb) eqn:Hev.
  - unfold new_location_even. destruct (Z.eqb_spec k 0) as [->|Hk].
    + simpl. unfold Rdiv; rewrite Rmult_0_l; ring.
    + specialize (Hlo Hk). unfold inbet. split; [lra|].
      destruct (Z.compare_spec (2 * k) nb) as [Heq|Hlt|Hgt].
      * rewrite <- Heq in Hhalf at 1. lra.
      * apply Hcmp in Hlt. lra.
      * apply Hcmp in Hgt. lra.
  - unfold new_location_odd. destruct (Z.eqb_spec k 0) as [->|Hk].
    + simpl. unfold Rdiv; rewrite Rmult_0_l; ring.
    + specialize (Hlo Hk). unfold inbet. split; [lra|].
      assert (Hodd : 2 * k <> nb).
      { intros E. rewrite <- E, Z.even_mul in Hev. discriminate. }
      destruct (Z.compare_spec (2 * k + 1) nb) as [Heq|Hlt|Hgt].
      * assert (Hl : 2 * k < nb) by lia. apply Hcmp in Hl. lra.
      * assert (Hl : 2 * k < nb) by lia. apply Hcmp in Hl. lra.
      * assert (Hl : nb < 2 * k) by lia. apply Hcmp in Hl. lra.
Qed.

Lemma SFdiv_core_binary_spec m1 e1 m2 e2 :
  exists q e' l,
    SFdiv_core_binary prec emax (Zpos m1) e1 (Zpos m2) e2 = (q, e', l) /\
    0 <= q /\
    inbet q l (IZR (Zpos m1) * bpow e1 / (IZR (Zpos m2) * bpow e2) * bpow (- e')) /\
    (0 < q -> e' <= fexp (Zdigits2 q + e')) /\
    (q = 0 -> e' <= emin).
Proof.
  unfold SFdiv_core_binary. simpl Zdigits2.
  pose proof (digits2_pos_bounds m1) as [Hd1 Hd1'].
  pose proof (digits2_pos_bounds m2) as [Hd2 Hd2'].
  set (d1 := Zpos (digits2_pos m1)) in *. set (d2 := Zpos (digits2_pos m2)) in *.
  assert (Hd1p : 0 < d1) by (unfold d1; lia). assert (Hd2p : 0 < d2) by (unfold d2; lia).
  set (D := d1 + e1 - (d2 + e2)).
  set (e' := Z.min (fexp D) (e1 - e2)).
  set (s := e1 - e2 - e').
  assert (Hs : 0 <= s) by (unfold s, e'; lia).
  set (m' := match s with Z.pos _ => Z.shiftl (Z.pos m1) s | Z0 => Z.pos m1 | Z.neg _ => 0 end).
  assert (Hm' : m' = Zpos m1 * 2 ^ s).
  { unfold m'. destruct s as [|p|p] eqn:Es; [simpl; lia| |lia].
    apply Z.shiftl_mul_pow2. lia. }
  assert (Hps : 0 < 2 ^ s) by (apply Z.pow_pos_nonneg; lia).
  pose proof (Z_div_mod m' (Zpos m2) ltac:(lia)) as Hdiv.
  destruct (Z.div_eucl m' (Zpos m2)) as [q r]. destruct Hdiv as [Hqr Hr].
  assert (Hq0 : 0 <= q) by nia.
  exists q, e', (new_location (Zpos m2) r).
  split; [reflexivity|]. split; [assumption|].
  assert (Hm2R : (0 < IZR (Zpos m2))%R) by (apply IZR_lt; lia).
  split; [|split].
  - replace (IZR (Z.pos m1) * bpow e1 / (IZR (Z.pos m2) * bpow e2) * bpow (- e'))%R
      with (IZR q + IZR r / IZR (Zpos m2))%R.
    { apply new_location_spec; lia. }
    assert (Hb : (bpow e1 = bpow e2 * bpow e' * IZR (2 ^ s))%R).
    { rewrite <- bpow_IZR, <- !bpow_plus by lia. f_equal. unfold s. lia. }
    rewrite Hb, bpow_opp.
    pose proof (bpow_gt_0 e2). pose proof (bpow_gt_0 e').
    assert (Hm'R : (IZR (Zpos m1) * IZR (2 ^ s) = IZR (Zpos m2) * IZR q + IZR r)%R).
    { rewrite <- !mult_IZR, <- plus_IZR. f_equal. lia. }
    field_simplify; [|lra|lra].
    replace (IZR (Z.pos m1) * IZR (2 ^ s))%R with (IZR (Zpos m2) * IZR q + IZR r)%R by lra.
    field. lra.
  - intros Hq. 
    assert (Hdq : D <= Zdigits2 q + e').
    { destruct q as [|pq|pq]; try lia. simpl Zdigits2.
      destruct (Z_le_gt_dec 0 (d1 - 1 + s - d2)) as [Hk|Hk].
      - assert (2 ^ (d1 - 1 + s - d2) <= Zpos pq).
        { assert (Hpk : 0 < 2 ^ (d1 - 1 + s - d2)) by (apply Z.pow_pos_nonneg; lia).
          assert (Hlow : 2 ^ (d1 - 1 + s - d2) * 2 ^ d2 <= m').
          { rewrite <- Z.pow_add_r by lia. rewrite Hm'.
            replace (d1 - 1 + s - d2 + d2) with (d1 - 1 + s) by lia.
            rewrite Z.pow_add_r by lia. nia. }
          destruct (Z_le_gt_dec (2 ^ (d1 - 1 + s - d2)) (Zpos pq)); [assumption|exfalso].
          assert (Zpos pq + 1 <= 2 ^ (d1 - 1 + s - d2)) by lia.
          nia. }
        apply digits_ge in H; [|lia]. unfold D, s in *. lia.
      - unfold D, s in *. lia. }
    unfold e' at 1. unfold SpecFloat.fexp in *. lia.
  - intros Hq. subst q.
    assert (Hlt : m' < Zpos m2) by lia.
    destruct (Z_le_gt_dec e' emin) as [|He]; [assumption|exfalso].
    assert (HfD : fexp D = D - prec) by (unfold e', SpecFloat.fexp in *; lia).
    assert (HD : emin < D - prec) by (unfold e', SpecFloat.fexp in *; lia).
    destruct (Z_le_gt_dec (fexp D) (e1 - e2)) as [Hc|Hc].
    + assert (Hs' : s = prec - d1 + d2) by (unfold s, e', D in *; lia).
      assert (2 ^ d2 <= m'); [|lia].
      rewrite Hm'. apply Z.le_trans with (2 ^ (d1 - 1) * 2 ^ s); [|nia].
      rewrite <- Z.pow_add_r by lia. apply Z.pow_le_mono_r; lia.
    + assert (Hs' : s = 0) by (unfold s, e' in *; lia).
      rewrite Hs' in Hm'. simpl in Hm'.
      assert (2 ^ d2 <= 2 ^ (d1 - 1)) by (apply Z.pow_le_mono_r; unfold D in *; lia).
      lia.
Qed.

Theorem SFdiv_finite sx mx ex sy my ey :
  Rnd (F2R sx mx ex / F2R sy my ey)
      (SFdiv prec emax (S754_finite sx mx ex) (S754_finite sy my ey)).
Proof.
  destruct (SFdiv_core_binary_spec mx ex my ey) as (q & e' & l & E & Hq & Hin & Hp & Hz).
  simpl SFdiv. rewrite E.
  destruct (binary_round_aux_spec (xorb sx sy) q e' l _ Hq Hin Hp Hz) as (m & e & H & Er).
  pose proof (F2R_sign sx mx ex) as Sx. pose proof (F2R_sign sy my ey) as Sy.
  apply (Rnd_of_abs (xorb sx sy) _ m e); [|assumption| |].
  - unfold Rdiv. rewrite Rabs_mult, Rabs_inv, !F2R_abs.
    rewrite Rmult_assoc, <- bpow_plus, Z.add_opp_diag_l, bpow_0, Rmult_1_r in H.
    exact H.
  - assert (forall a b : R, (0 < a -> 0 < b -> 0 < a / b)%R) by (intros; apply Rdiv_lt_0_compat; assumption).
    assert (forall a b : R, (a < 0 -> b < 0 -> 0 < a / b)%R).
    { intros a b Ha Hb. replace (a / b)%R with ((- a) / (- b))%R by (field; lra). apply H0; lra. }
    assert (forall a b : R, (a < 0 -> 0 < b -> a / b < 0)%R).
    { intros a b Ha Hb. replace (a / b)%R with (- ((- a) / b))%R by (field; lra).
      specialize (H0 (- a)%R b). lra. }
    assert (forall a b : R, (0 < a -> b < 0 -> a / b < 0)%R).
    { intros a b Ha Hb. replace (a / b)%R with (- (a / (- b)))%R by (field; lra).
      specialize (H0 a (- b)%R). lra. }
    destruct sx, sy; simpl; intros Hv; try reflexivity; exfalso.
    + specialize (H2 _ _ Sx Sy). lra.
    + specialize (H3 _ _ Sx Sy). lra.
  - assert (forall a b : R, (0 < a -> 0 < b -> 0 < a / b)%R) by (intros; apply Rdiv_lt_0_compat; assumption).
    assert (forall a b : R, (a < 0 -> b < 0 -> 0 < a / b)%R).
    { intros a b Ha Hb. replace (a / b)%R with ((- a) / (- b))%R by (field; lra). apply H0; lra. }
    destruct sx, sy; simpl; intros Hv; try reflexivity; exfalso.
    + specialize (H1 _ _ Sx Sy). lra.
    + specialize (H0 _ _ Sx Sy). lra.
Qed.

(** *** Order *)

Lemma in_format_opp f : in_format f -> in_format (- f).
Proof.
  intros (k & c & Hc & Hk & ->). exists (- k), c.
  rewrite Z.abs_opp, opp_IZR. repeat split; try assumption. ring.
Qed.

Lemma sval_opp s m e : sval (negb s) m e = (- sval s m e)%R.
Proof. unfold sval. destruct s; simpl; rewrite ?Z.opp_involutive, opp_IZR; ring. Qed.

Lemma Rnd_Snear v r :
  Rnd v r ->
  exists s m e, r = pack s m e /\ (m = 0 \/ canonical m e) /\ Snear v (sval s m e) /\
                ((0 < v)%R -> s = false) /\ ((v < 0)%R -> s = true).
Proof.
  intros (s & m & e & H & -> & Hp & Hn).
  exists s, m, e. split; [reflexivity|]. split; [eapply Frounding_canonical; eassumption|].
  split; [|split; assumption].
  pose proof H as ([H0 H1] & He & _ & Hnear & _).
  assert (Hfmt : in_format (sval s m e)).
  { exists (cond_Zopp s m), e. split; [assumption|]. split; [|reflexivity].
    destruct s; simpl; lia. }
  split; [assumption|].
  intros f (k & c & Hc & Hk & ->).
  destruct (Rtotal_order v 0) as [Hv|[Hv|Hv]].
  - rewrite (Hn Hv). unfold sval. simpl cond_Zopp. rewrite opp_IZR.
    specialize (Hnear (- k) c Hc ltac:(lia)). rewrite (Rabs_left v) in Hnear by assumption.
    rewrite opp_IZR in Hnear.
    replace (v - - IZR m * bpow e)%R with (- (- v - IZR m * bpow e))%R by ring.
    replace (v - IZR k * bpow c)%R with (- (- v - - IZR k * bpow c))%R by ring.
    rewrite !Rabs_Ropp. assumption.
  - subst v. rewrite Rabs_R0 in H. apply Frounding_zero in H. subst m.
    unfold sval. replace (cond_Zopp s 0) with 0 by (destruct s; reflexivity).
    rewrite Rmult_0_l, Rminus_0_r, Rabs_R0. apply Rabs_pos.
  - rewrite (Hp Hv). unfold sval. simpl cond_Zopp.
    specialize (Hnear k c Hc Hk). rewrite (Rabs_pos_eq v) in Hnear by lra. assumption.
Qed.

Lemma Snear_ge_float v rv f :
  Snear v rv -> in_format f -> (f <= v)%R -> (f <= rv)%R.
Proof.
  intros [_ H] Hf Hle. specialize (H f Hf).
  revert H. unfold Rabs. repeat destruct Rcase_abs; lra.
Qed.

Lemma Snear_le_float v rv f :
  Snear v rv -> in_format f -> (v <= f)%R -> (rv <= f)%R.
Proof.
  intros [_ H] Hf Hle. specialize (H f Hf).
  revert H. unfold Rabs. repeat destruct Rcase_abs; lra.
Qed.

Lemma Snear_mono v1 rv1 v2 rv2 :
  Snear v1 rv1 -> Snear v2 rv2 -> (v1 < v2)%R -> (rv1 <= rv2)%R.
Proof.
  intros [F1 H1] [F2 H2] Hlt.
  specialize (H1 rv2 F2). specialize (H2 rv1 F1).
  revert H1 H2. unfold Rabs. repeat destruct Rcase_abs; lra.
Qed.

(** Canonical pairs are ordered lexicographically. *)
Lemma canonical_lt_exp m1 e1 m2 e2 :
  canonical m1 e1 -> canonical m2 e2 -> e1 < e2 ->
  (IZR m1 * bpow e1 < IZR m2 * bpow e2)%R.
Proof.
  intros ([_ H1] & He1 & _) ([H2 _] & _ & Hn2) Hlt.
  assert (Hm2 : 2 ^ (prec - 1) <= m2) by (destruct Hn2; [assumption|lia]).
  assert (E2 : 2 ^ prec = 2 * 2 ^ (prec - 1)).
  { replace prec with (prec - 1 + 1) at 1 by lia. rewrite Z.pow_add_r by lia. simpl (2 ^ 1). lia. }
  assert (Hb : (2 * bpow e1 <= bpow e2)%R).
  { rewrite <- bpow_succ. apply bpow_le. lia. }
  pose proof (bpow_gt_0 e1).
  assert (Hm : m1 < 2 * m2) by lia.
  apply IZR_lt in Hm. rewrite mult_IZR in Hm.
  apply IZR_lt in H2.
  apply Rlt_le_trans with (2 * IZR m2 * bpow e1)%R; [nra|].
  replace (2 * IZR m2 * bpow e1)%R with (IZR m2 * (2 * bpow e1))%R by ring.
  apply Rmult_le_compat_l; lra.
Qed.

Lemma canonical_order m1 e1 m2 e2 :
  canonical m1 e1 -> canonical m2 e2 ->
  (IZR m1 * bpow e1 <= IZR m2 * bpow e2)%R ->
  e1 < e2 \/ (e1 = e2 /\ m1 <= m2).
Proof.
  intros C1 C2 Hle.
  destruct (Z.lt_trichotomy e1 e2) as [Hlt|[Heq|Hgt]]; [left; assumption| |].
  - right. split; [assumption|]. subst e2.
    pose proof (bpow_gt_0 e1).
    apply Rmult_le_reg_r in Hle; [|assumption]. apply le_IZR; assumption.
  - pose proof (canonical_lt_exp _ _ _ _ C2 C1 Hgt). lra.
Qed.

Lemma sval_sign (s : bool) m e :
  zero_or_canonical m e ->
  (if s return Prop then (sval s m e <= 0)%R else (0 <= sval s m e)%R) /\
  (sval s m e = 0%R <-> m = 0).
Proof.
  intros Hm. pose proof (bpow_gt_0 e) as Hb. unfold sval.
  assert (Hm0 : 0 <= m) by (destruct Hm as [->|[[? ?] _]]; lia).
  assert (HmR : (0 <= IZR m)%R) by (apply IZR_le; assumption).
  split.
  - destruct s; simpl cond_Zopp; rewrite ?opp_IZR; nra.
  - split.
    + intros H. apply Rmult_integral in H. destruct H as [H|H]; [|lra].
      apply eq_IZR in H. destruct s; simpl in H; lia.
    + intros ->. replace (cond_Zopp s 0) with 0 by (destruct s; reflexivity). ring.
Qed.

Lemma sval_false m e : sval false m e = (IZR m * bpow e)%R.
Proof. reflexivity. Qed.

Lemma sval_true m e : sval true m e = (- (IZR m * bpow e))%R.
Proof. unfold sval. simpl. rewrite opp_IZR. ring. Qed.

Lemma pack_pos_compare m1 e1 m2 e2 :
  canonical (Zpos m1) e1 -> canonical (Zpos m2) e2 ->
  (IZR (Zpos m1) * bpow e1 < IZR (Zpos m2) * bpow e2)%R ->
  (e1 < e2 /\ (e1 ?= e2) = Lt) \/ (e1 = e2 /\ Pos.compare_cont Eq m1 m2 = Lt).
Proof.
  intros C1 C2 Hlt.
  destruct (canonical_order _ _ _ _ C1 C2 (Rlt_le _ _ Hlt)) as [H|[H1 H2]].
  - left. split; [assumption|]. apply Z.compare_lt_iff. assumption.
  - right. split; [assumption|].
    subst e2. change (Pos.compare_cont Eq m1 m2) with (Pos.compare m1 m2).
    apply Pos.compare_lt_iff.
    assert (Zpos m1 <> Zpos m2) by (intros E; rewrite E in Hlt; lra). lia.
Qed.

Lemma pack_compare_lt s1 m1 e1 s2 m2 e2 :
  zero_or_canonical m1 e1 -> zero_or_canonical m2 e2 ->
  (sval s1 m1 e1 < sval s2 m2 e2)%R ->
  SFcompare (pack s1 m1 e1) (pack s2 m2 e2) = Some Lt \/
  (exists s, pack s1 m1 e1 = S754_infinity s /\ pack s2 m2 e2 = S754_infinity s).
Proof.
  intros Z1 Z2 Hlt.
  destruct (sval_sign s1 m1 e1 Z1) as [S1 N1]. destruct (sval_sign s2 m2 e2 Z2) as [S2 N2].
  assert (P1 : 0 <= m1) by (destruct Z1 as [->|[[? ?] _]]; lia).
  assert (P2 : 0 <= m2) by (destruct Z2 as [->|[[? ?] _]]; lia).
  destruct m1 as [|m1|m1]; [| |lia]; destruct m2 as [|m2|m2]; try lia.
  - destruct N1 as [_ N1]. destruct N2 as [_ N2]. rewrite N1, N2 in Hlt by reflexivity. lra.
  - destruct N1 as [_ N1]. rewrite N1 in * by reflexivity.
    destruct s2; [lra|]. left. unfold pack.
    destruct (e2 <=? emax - prec); destruct s1; reflexivity.
  - destruct N2 as [_ N2]. rewrite N2 in * by reflexivity.
    destruct s1; [|lra]. left. unfold pack.
    destruct (e1 <=? emax - prec); destruct s2; reflexivity.
  - destruct Z1 as [Z1|C1]; [discriminate|]. destruct Z2 as [Z2|C2]; [discriminate|].
    unfold pack.
    destruct s1, s2.
    + rewrite !sval_true in Hlt.
      assert (Hlt' : (IZR (Zpos m2) * bpow e2 < IZR (Zpos m1) * bpow e1)%R) by lra.
      destruct (pack_pos_compare _ _ _ _ C2 C1 Hlt') as [[H' H]|[H1 H2]].
      * destruct (Z.leb_spec e1 (emax - prec)), (Z.leb_spec e2 (emax - prec)); try lia.
        -- left. simpl. rewrite Z.compare_antisym, H. reflexivity.
        -- left. reflexivity.
        -- right. exists true. split; reflexivity.
      * subst e2.
        destruct (Z.leb_spec e1 (emax - prec)).
        -- left. simpl. rewrite Z.compare_refl.
           change (Pos.compare_cont Eq m1 m2) with (Pos.compare m1 m2).
           change (Pos.compare_cont Eq m2 m1) with (Pos.compare m2 m1) in H2.
           rewrite Pos.compare_antisym, H2. reflexivity.
        -- right. exists true. split; reflexivity.
    + left. destruct (e1 <=? emax - prec), (e2 <=? emax - prec); reflexivity.
    + lra.
    + rewrite !sval_false in Hlt.
      destruct (pack_pos_compare _ _ _ _ C1 C2 Hlt) as [[H' H]|[H1 H2]].
      * destruct (Z.leb_spec e1 (emax - prec)), (Z.leb_spec e2 (emax - prec)); try lia.
        -- left. simpl. rewrite H. reflexivity.
        -- left. reflexivity.
        -- right. exists false. split; reflexivity.
      * subst e2.
        destruct (Z.leb_spec e1 (emax - prec)).
        -- left. simpl. rewrite Z.compare_refl, H2. reflexivity.
        -- right. exists false. split; reflexivity.
Qed.

Lemma pack_compare_eq s1 m1 e1 s2 m2 e2 :
  zero_or_canonical m1 e1 -> zero_or_canonical m2 e2 ->
  sval s1 m1 e1 = sval s2 m2 e2 ->
  SFcompare (pack s1 m1 e1) (pack s2 m2 e2) = Some Eq /\
  (m1 <> 0 -> pack s1 m1 e1 = pack s2 m2 e2).
Proof.
  intros Z1 Z2 Heq.
  destruct (sval_sign s1 m1 e1 Z1) as [S1 N1]. destruct (sval_sign s2 m2 e2 Z2) as [S2 N2].
  assert (P1 : 0 <= m1) by (destruct Z1 as [->|[[? ?] _]]; lia).
  assert (P2 : 0 <= m2) by (destruct Z2 as [->|[[? ?] _]]; lia).
  destruct m1 as [|m1|m1]; [| |lia]; destruct m2 as [|m2|m2]; try lia.
  - split; [reflexivity|]. intros H; contradiction.
  - destruct N1 as [_ N1]. rewrite N1 in Heq by reflexivity. symmetry in Heq.
    apply N2 in Heq. discriminate.
  - destruct N2 as [_ N2]. rewrite N2 in Heq by reflexivity.
    apply N1 in Heq. discriminate.
  - destruct Z1 as [Z1|C1]; [discriminate|]. destruct Z2 as [Z2|C2]; [discriminate|].
    assert (Hs : s1 = s2).
    { assert (sval s1 (Zpos m1) e1 <> 0)%R by (intros E; apply N1 in E; discriminate).
      destruct s1, s2; try reflexivity; lra. }
    subst s2.
    assert (Hv : (IZR (Zpos m1) * bpow e1 = IZR (Zpos m2) * bpow e2)%R).
    { destruct s1; rewrite ?sval_true, ?sval_false in Heq; lra. }
    destruct (canonical_order _ _ _ _ C1 C2 ltac:(lra)) as [H|[H1 H2]].
    { pose proof (canonical_lt_exp _ _ _ _ C1 C2 H). lra. }
    destruct (canonical_order _ _ _ _ C2 C1 ltac:(lra)) as [H|[H3 H4]]; [lia|].
    assert (m1 = m2) by lia. subst m2 e2.
    split; [|reflexivity]. unfold pack.
    destruct (e1 <=? emax - prec); destruct s1; simpl;
      rewrite ?Z.compare_refl; change (Pos.compare_cont Eq m1 m1) with (Pos.compare m1 m1);
      rewrite ?Pos.compare_refl; reflexivity.
Qed.

Lemma pack_SFleb s1 m1 e1 s2 m2 e2 :
  zero_or_canonical m1 e1 -> zero_or_canonical m2 e2 ->
  (sval s1 m1 e1 <= sval s2 m2 e2)%R ->
  SFleb (pack s1 m1 e1) (pack s2 m2 e2) = true.
Proof.
  intros Z1 Z2 [Hlt|Heq]; unfold SFleb.
  - destruct (pack_compare_lt _ _ _ _ _ _ Z1 Z2 Hlt) as [->|(s & -> & ->)]; [reflexivity|].
    destruct s; reflexivity.
  - destruct (pack_compare_eq _ _ _ _ _ _ Z1 Z2 Heq) as [-> _]. reflexivity.
Qed.

(** A valid finite float is the packing of its own mantissa and exponent. *)
Lemma valid_pack x :
  valid_binary prec emax x = true -> is_finite x = true ->
  exists s m e, x = pack s m e /\ zero_or_canonical m e /\ SF2R x = sval s m e /\
                (m <> 0 -> e <= emax - prec) /\ in_format (SF2R x).
Proof.
  assert (Hpp : 0 < 2 ^ prec) by (apply Z.pow_pos_nonneg; lia).
  destruct x as [s| | |s m e]; try discriminate; intros Hv _.
  - exists s, 0, emin. split; [reflexivity|]. split; [left; reflexivity|].
    split; [|split; [intros H; contradiction|]].
    + unfold sval. replace (cond_Zopp s 0) with 0 by (destruct s; reflexivity). simpl; ring.
    + exists 0, emin. simpl. split; [lia|]. split; [lia|ring].
  - simpl in Hv. apply bounded_canonical in Hv. destruct Hv as [Hc He].
    exists s, (Zpos m), e. split; [|split; [right; assumption|split; [reflexivity|split; [intros; assumption|]]]].
    + unfold pack. apply Z.leb_le in He. rewrite He. reflexivity.
    + exists (cond_Zopp s (Zpos m)), e. destruct Hc as ([? ?] & ? & _).
      split; [assumption|]. split; [destruct s; simpl; lia|reflexivity].
Qed.

Theorem Rnd_le v1 r1 v2 r2 :
  Rnd v1 r1 -> Rnd v2 r2 -> (v1 < v2)%R -> SFleb r1 r2 = true.
Proof.
  intros H1 H2 Hlt.
  destruct (Rnd_Snear _ _ H1) as (s1 & m1 & e1 & -> & Z1 & N1 & _).
  destruct (Rnd_Snear _ _ H2) as (s2 & m2 & e2 & -> & Z2 & N2 & _).
  apply pack_SFleb; try assumption. eapply Snear_mono; eassumption.
Qed.

Theorem Rnd_ge_float v r f :
  Rnd v r -> valid_binary prec emax f = true -> is_finite f = true ->
  (SF2R f <= v)%R -> SFleb f r = true.
Proof.
  intros H Hv Hf Hle.
  destruct (Rnd_Snear _ _ H) as (s & m & e & -> & Z & N & _).
  destruct (valid_pack f Hv Hf) as (sf & mf & ef & -> & Zf & Ef & _ & Ff).
  apply pack_SFleb; try assumption. rewrite <- Ef.
  eapply Snear_ge_float; eassumption.
Qed.

Theorem Rnd_le_float v r f :
  Rnd v r -> valid_binary prec emax f = true -> is_finite f = true ->
  (v <= SF2R f)%R -> SFleb r f = true.
Proof.
  intros H Hv Hf Hle.
  destruct (Rnd_Snear _ _ H) as (s & m & e & -> & Z & N & _).
  destruct (valid_pack f Hv Hf) as (sf & mf & ef & -> & Zf & Ef & _ & Ff).
  apply pack_SFleb; try assumption. rewrite <- Ef.
  eapply Snear_le_float; eassumption.
Qed.

Lemma SFcompare_swap x y :
  SFcompare y x = option_map CompOpp (SFcompare x y).
Proof.
  destruct x as [sx|sx| |sx mx ex], y as [sy|sy| |sy my ey]; simpl;
    try reflexivity; try (destruct sx; reflexivity); try (destruct sy; reflexivity);
    try (destruct sx, sy; reflexivity).
  destruct sx, sy; try reflexivity; rewrite (Z.compare_antisym ex ey);
    destruct (ex ?= ey); simpl; try reflexivity;
    change (Pos.compare_cont Eq my mx) with (Pos.compare my mx);
    change (Pos.compare_cont Eq mx my) with (Pos.compare mx my);
    rewrite (Pos.compare_antisym mx my); destruct (Pos.compare mx my); reflexivity.
Qed.

Lemma SFcompare_SF2R x y :
  valid_binary prec emax x = true -> valid_binary prec emax y = true ->
  is_finite x = true -> is_finite y = true ->
  ((SF2R x < SF2R y)%R -> SFcompare x y = Some Lt) /\
  (SF2R x = SF2R y -> SFcompare x y = Some Eq) /\
  ((SF2R y < SF2R x)%R -> SFcompare x y = Some Gt).
Proof.
  intros Vx Vy Fx Fy.
  destruct (valid_pack x Vx Fx) as (s1 & m1 & e1 & Ex & Z1 & V1 & _).
  destruct (valid_pack y Vy Fy) as (s2 & m2 & e2 & Ey & Z2 & V2 & _).
  rewrite V1, V2. split; [|split]; intros H.
  - destruct (pack_compare_lt _ _ _ _ _ _ Z1 Z2 H) as [Hc|(s & Hx & _)].
    + rewrite Ex, Ey. assumption.
    + rewrite <- Ex in Hx. rewrite Hx in Fx. discriminate Fx.
  - rewrite Ex, Ey. apply (pack_compare_eq _ _ _ _ _ _ Z1 Z2 H).
  - destruct (pack_compare_lt _ _ _ _ _ _ Z2 Z1 H) as [Hc|(s & Hy & _)].
    + rewrite (SFcompare_swap y x), Ex, Ey, Hc. reflexivity.
    + rewrite <- Ey in Hy. rewrite Hy in Fy. discriminate Fy.
Qed.

Theorem SFltb_SF2R x y :
  valid_binary prec emax x = true -> valid_binary prec emax y = true ->
  is_finite x = true -> is_finite y = true ->
  (SFltb x y = true <-> (SF2R x < SF2R y)%R).
Proof.
  intros Vx Vy Fx Fy. destruct (SFcompare_SF2R x y Vx Vy Fx Fy) as (Hl & He & Hg).
  unfold SFltb. split.
  - intros H. destruct (Rtotal_order (SF2R x) (SF2R y)) as [?|[E|G]]; [assumption| |].
    + rewrite (He E) in H. discriminate.
    + rewrite (Hg G) in H. discriminate.
  - intros H. rewrite (Hl H). reflexivity.
Qed.

Theorem SFleb_SF2R x y :
  valid_binary prec emax x = true -> valid_binary prec emax y = true ->
  is_finite x = true -> is_finite y = true ->
  (SFleb x y = true <-> (SF2R x <= SF2R y)%R).
Proof.
  intros Vx Vy Fx Fy. destruct (SFcompare_SF2R x y Vx Vy Fx Fy) as (Hl & He & Hg).
  unfold SFleb. split.
  - intros H. destruct (Rtotal_order (SF2R x) (SF2R y)) as [?|[E|G]]; [lra|lra|].
    rewrite (Hg G) in H. discriminate.
  - intros [H|H]; [rewrite (Hl H)|rewrite (He H)]; reflexivity.
Qed.

Lemma SF2R_pack s m e :
  zero_or_canonical m e -> is_finite (pack s m e) = true ->
  SF2R (pack s m e) = sval s m e.
Proof.
  intros Z F. unfold pack in *. destruct Z as [->|([H0 _] & _)].
  - unfold sval. replace (cond_Zopp s 0) with 0 by (destruct s; reflexivity). simpl; ring.
  - destruct m as [|p|p]; try lia.
    destruct (e <=? emax - prec); [reflexivity|discriminate].
Qed.

(** Among valid finite floats a real value has one representation, up to
    the sign of zero. *)
Lemma SF2R_inj x y :
  valid_binary prec emax x = true -> valid_binary prec emax y = true ->
  is_finite x = true -> is_finite y = true ->
  SF2R x = SF2R y -> SF2R x <> 0%R -> x = y.
Proof.
  intros Vx Vy Fx Fy E N.
  destruct (valid_pack x Vx Fx) as (s1 & m1 & e1 & Ex & Z1 & V1 & _).
  destruct (valid_pack y Vy Fy) as (s2 & m2 & e2 & Ey & Z2 & V2 & _).
  rewrite V1, V2 in E. rewrite V1 in N.
  destruct (pack_compare_eq _ _ _ _ _ _ Z1 Z2 E) as [_ H].
  rewrite Ex, Ey. apply H. intros ->. apply N.
  apply (sval_sign s1 0 e1 Z1). reflexivity.
Qed.

Lemma valid_lt_emax x :
  valid_binary prec emax x = true -> is_finite x = true ->
  (Rabs (SF2R x) < bpow emax)%R.
Proof.
  destruct x as [s| | |s m e]; try discriminate; intros Hv _; simpl SF2R.
  - rewrite Rabs_R0. apply bpow_gt_0.
  - simpl in Hv. apply bounded_canonical in Hv.
    destruct Hv as [([_ Hm] & _) He]. rewrite F2R_abs.
    apply IZR_lt in Hm. rewrite <- bpow_IZR in Hm by lia.
    pose proof (bpow_gt_0 e). pose proof (bpow_le (prec + e) emax ltac:(lia)) as Hb.
    rewrite bpow_plus in Hb.
    apply Rlt_le_trans with (bpow prec * bpow e)%R; [|assumption].
    apply Rmult_lt_compat_r; assumption.
Qed.

(** The relative error of a rounding in the normal range. *)
Theorem Rnd_rel_error v r :
  Rnd v r -> is_finite r = true -> (bpow (emin + prec - 1) <= Rabs v)%R ->
  (Rabs (SF2R r - v) <= bpow (- prec) * Rabs v)%R.
Proof.
  intros (s & m & e & H & -> & Hp & Hn) F Hbig.
  pose proof (Frounding_canonical _ _ _ H) as Z.
  rewrite (SF2R_pack s m e Z F).
  destruct H as (_ & _ & _ & _ & Hrel). specialize (Hrel Hbig).
  pose proof (bpow_gt_0 (emin + prec - 1)).
  destruct (Rtotal_order v 0) as [Hv|[Hv|Hv]].
  - rewrite (Hn Hv), sval_true. rewrite (Rabs_left v) in * by assumption.
    replace (- (IZR m * bpow e) - v)%R with (- v - IZR m * bpow e)%R by ring. assumption.
  - subst v. rewrite Rabs_R0 in Hbig. lra.
  - rewrite (Hp Hv), sval_false. rewrite (Rabs_pos_eq v) in * by lra.
    rewrite Rabs_minus_sym. assumption.
Qed.

Lemma SFleb_refl x : x <> S754_nan -> SFleb x x = true.
Proof.
  unfold SFleb. destruct x as [s|s| |s m e]; intros H; try reflexivity.
  - destruct s; reflexivity.
  - contradiction.
  - simpl. rewrite Z.compare_refl.
    change (Pos.compare_cont Eq m m) with (Pos.compare m m). rewrite Pos.compare_refl.
    destruct s; reflexivity.
Qed.

Lemma Rnd_not_nan v r : Rnd v r -> r <> S754_nan.
Proof.
  intros (s & m & e & H & -> & _) E.
  pose proof (Frounding_canonical _ _ _ H) as [->|([H0 _] & _)]; [discriminate|].
  unfold pack in E. destruct m as [|p|p]; try lia.
  destruct (e <=? emax - prec); discriminate.
Qed.

End Rounding.

(** * binary64 *)

Lemma prec64_gt_0 : 0 < prec64.
Proof. reflexivity. Qed.

Lemma prec64_lt_emax64 : prec64 < emax64.
Proof. reflexivity. Qed.

Local Abbreviation Rnd64 := (Rnd prec64 emax64).
Local Abbreviation format64 := (in_format prec64 emax64).

Local Hint Resolve prec64_gt_0 prec64_lt_emax64 : core.

Lemma Nadd_spec x y :
  wf x = true -> wf y = true -> is_finite x = true -> is_finite y = true ->
  Rnd64 (SF2R x + SF2R y) (Nadd x y).
Proof. apply SFadd_spec; auto. Qed.

Lemma Nsub_spec x y :
  wf x = true -> wf y = true -> is_finite x = true -> is_finite y = true ->
  Rnd64 (SF2R x - SF2R y) (Nsub x y).
Proof. apply SFsub_spec; auto. Qed.

Lemma Nmul_spec x y :
  wf x = true -> wf y = true -> is_finite x = true -> is_finite y = true ->
  Rnd64 (SF2R x * SF2R y) (Nmul x y).
Proof. apply SFmul_spec; auto. Qed.

Lemma Ndiv_spec sx mx ex sy my ey :
  Rnd64 (F2R sx mx ex / F2R sy my ey)
        (Ndiv (S754_finite sx mx ex) (S754_finite sy my ey)).
Proof. apply SFdiv_finite; auto. Qed.

Lemma Rnd64_wf v r : Rnd64 v r -> wf r = true.
Proof. apply Rnd_valid; auto. Qed.

Lemma Rnd64_le v1 r1 v2 r2 :
  Rnd64 v1 r1 -> Rnd64 v2 r2 -> (v1 < v2)%R -> Nleb r1 r2 = true.
Proof. apply Rnd_le; auto. Qed.

Lemma Rnd64_ge_float v r f :
  Rnd64 v r -> wf f = true -> is_finite f = true -> (SF2R f <= v)%R -> Nleb f r = true.
Proof. apply Rnd_ge_float; auto. Qed.

Lemma Rnd64_le_float v r f :
  Rnd64 v r -> wf f = true -> is_finite f = true -> (v <= SF2R f)%R -> Nleb r f = true.
Proof. apply Rnd_le_float; auto. Qed.

Lemma Nleb_SF2R x y :
  wf x = true -> wf y = true -> is_finite x = true -> is_finite y = true ->
  (Nleb x y = true <-> (SF2R x <= SF2R y)%R).
Proof. apply SFleb_SF2R; auto. Qed.

Lemma Nltb_SF2R x y :
  wf x = true -> wf y = true -> is_finite x = true -> is_finite y = true ->
  (Nltb x y = true <-> (SF2R x < SF2R y)%R).
Proof. apply SFltb_SF2R; auto. Qed.

Lemma Rnd64_nonneg v r : Rnd64 v r -> (0 < v)%R -> nonneg r = true.
Proof.
  intros (s & m & e & H & -> & Hp & _) Hv. rewrite (Hp Hv).
  destruct (Frounding_canonical prec64 emax64 _ _ _ H) as [->|([H0 _] & _)]; [reflexivity|].
  unfold pack. destruct m as [|p|p]; try lia.
  destruct (e <=? emax64 - prec64); reflexivity.
Qed.

Lemma Rnd64_not_nan v r : Rnd64 v r -> r <> S754_nan.
Proof. apply Rnd_not_nan; auto. Qed.

Lemma Nleb_refl x : x <> S754_nan -> Nleb x x = true.
Proof. apply SFleb_refl. Qed.

Lemma nonneg_finite_SF2R x :
  nonneg x = true -> (0 <= SF2R x)%R.
Proof.
  destruct x as [[]|[]| |[] m e]; try discriminate; intros _; simpl; try lra.
  pose proof (F2R_sign false m e) as H. simpl in H. lra.
Qed.

Lemma pos_finite_inv x :
  pos_finite x = true ->
  wf x = true /\ is_finite x = true /\ nonneg x = true /\ (0 < SF2R x)%R.
Proof.
  destruct x as [[]|[]| |[] m e]; try discriminate; intros H.
  repeat split; try assumption; try reflexivity.
  pose proof (F2R_sign false m e) as H'. exact H'.
Qed.

Lemma pos_finite_intro x :
  wf x = true -> is_finite x = true -> (0 < SF2R x)%R -> pos_finite x = true.
Proof.
  destruct x as [s|s| |s m e]; try discriminate; intros W _ H; simpl in H; try lra.
  destruct s; [|exact W].
  pose proof (F2R_sign true m e) as H'. simpl in H'. lra.
Qed.

(** Equal valid non-negative Numbers of the same value. *)
Lemma nonneg_SF2R_inj x y :
  wf x = true -> wf y = true -> is_finite x = true -> is_finite y = true ->
  nonneg x = true -> nonneg y = true -> SF2R x = SF2R y -> x = y.
Proof.
  intros Wx Wy Fx Fy Nx Ny E.
  destruct (Req_dec (SF2R x) 0) as [Z|NZ].
  - rewrite Z in E.
    destruct x as [[]|[]| |[] mx ex]; try discriminate;
      destruct y as [[]|[]| |[] my ey]; try discriminate; try reflexivity; exfalso.
    + pose proof (F2R_sign false my ey) as H. simpl in H, E. lra.
    + pose proof (F2R_sign false mx ex) as H. simpl in H, Z. lra.
    + pose proof (F2R_sign false mx ex) as H. simpl in H, Z. lra.
  - apply (SF2R_inj prec64 emax64); auto.
Qed.

(** Monotone and antitone operations on non-negative Numbers: an operation
    that rounds a strictly monotone real function is monotone. *)
Lemma lift_increasing (op : number -> number) (f : R -> R) y1 y2 :
  wf y1 = true -> wf y2 = true -> nonneg y1 = true -> nonneg y2 = true ->
  Nleb y1 y2 = true ->
  (is_finite y1 = true -> Rnd64 (f (SF2R y1)) (op y1)) ->
  (is_finite y2 = true -> Rnd64 (f (SF2R y2)) (op y2)) ->
  (is_finite y2 = true -> (SF2R y1 < SF2R y2)%R -> (f (SF2R y1) < f (SF2R y2))%R) ->
  (is_finite y2 = false -> Nleb (op y1) (op y2) = true) ->
  Nleb (op y1) (op y2) = true.
Proof.
  intros W1 W2 N1 N2 L R1 R2 Hf Hinf.
  destruct (is_finite y2) eqn:F2; [|apply Hinf; reflexivity].
  assert (F1 : is_finite y1 = true).
  { destruct y1 as [|[]| |]; try reflexivity; try discriminate.
    destruct y2 as [[]|[]| |[]]; discriminate. }
  pose proof (proj1 (Nleb_SF2R y1 y2 W1 W2 F1 F2) L) as [Hlt|Heq].
  - eapply Rnd64_le; [apply R1; assumption|apply R2; reflexivity|apply Hf; auto].
  - rewrite (nonneg_SF2R_inj y1 y2); auto.
    apply Nleb_refl. eapply Rnd64_not_nan. apply R2. reflexivity.
Qed.

Lemma lift_decreasing (op : number -> number) (f : R -> R) y1 y2 :
  wf y1 = true -> wf y2 = true -> nonneg y1 = true -> nonneg y2 = true ->
  Nleb y1 y2 = true ->
  (is_finite y1 = true -> Rnd64 (f (SF2R y1)) (op y1)) ->
  (is_finite y2 = true -> Rnd64 (f (SF2R y2)) (op y2)) ->
  (is_finite y2 = true -> (SF2R y1 < SF2R y2)%R -> (f (SF2R y2) < f (SF2R y1))%R) ->
  (is_finite y2 = false -> Nleb (op y2) (op y1) = true) ->
  Nleb (op y2) (op y1) = true.
Proof.
  intros W1 W2 N1 N2 L R1 R2 Hf Hinf.
  destruct (is_finite y2) eqn:F2; [|apply Hinf; reflexivity].
  assert (F1 : is_finite y1 = true).
  { destruct y1 as [|[]| |]; try reflexivity; try discriminate.
    destruct y2 as [[]|[]| |[]]; discriminate. }
  pose proof (proj1 (Nleb_SF2R y1 y2 W1 W2 F1 F2) L) as [Hlt|Heq].
  - eapply Rnd64_le; [apply R2; reflexivity|apply R1; assumption|apply Hf; auto].
  - rewrite (nonneg_SF2R_inj y1 y2); auto.
    apply Nleb_refl. eapply Rnd64_not_nan. apply R2. reflexivity.
Qed.

(** * The constants and the conversions of the widget *)

Lemma VIRTUAL_USDT_RESERVE_eq :
  VIRTUAL_USDT_RESERVE = S754_finite false 6597069766656000 (-40).
Proof. vm_compute. reflexivity. Qed.

Lemma VIRTUAL_TOKEN_RESERVE_eq :
  VIRTUAL_TOKEN_RESERVE = S754_finite false 9000977986224128 (-23).
Proof. vm_compute. reflexivity. Qed.

Lemma BONDING_CURVE_K_eq :
  BONDING_CURVE_K = S754_finite false 6592513173504000 (-10).
Proof. vm_compute. reflexivity. Qed.

Ltac float_value :=
  unfold SF2R, F2R, cond_Zopp;
  match goal with
  | |- context [bpow (Zneg ?p)] =>
      change (Zneg p) with (- Zpos p); rewrite (bpow_opp (Zpos p)), (bpow_IZR (Zpos p)) by lia;
      let v := eval vm_compute in (2 ^ Zpos p) in change (2 ^ Zpos p) with v
  | |- context [bpow (Zpos ?p)] =>
      rewrite (bpow_IZR (Zpos p)) by lia;
      let v := eval vm_compute in (2 ^ Zpos p) in change (2 ^ Zpos p) with v
  | |- context [bpow 0] => rewrite bpow_0
  end.

Lemma SF2R_VIRTUAL_USDT_RESERVE : SF2R VIRTUAL_USDT_RESERVE = 6000%R.
Proof. rewrite VIRTUAL_USDT_RESERVE_eq. float_value. lra. Qed.

Lemma SF2R_VIRTUAL_TOKEN_RESERVE : SF2R VIRTUAL_TOKEN_RESERVE = 1073000191%R.
Proof. rewrite VIRTUAL_TOKEN_RESERVE_eq. float_value. lra. Qed.

Lemma SF2R_BONDING_CURVE_K : SF2R BONDING_CURVE_K = 6438001146000%R.
Proof. rewrite BONDING_CURVE_K_eq. float_value. lra. Qed.

(** [Number(formatUnits(w, 18))] is [w / 10^18] rounded to nearest. *)
Lemma Number_formatUnits_spec w :
  Rnd64 (IZR w / 1000000000000000000) (Number_formatUnits w 18).
Proof.
  unfold Number_formatUnits.
  change (Z2SF (10 ^ 18)) with (S754_finite false 1000000000000000000 0).
  assert (E10 : F2R false 1000000000000000000 0 = 1000000000000000000%R).
  { unfold F2R. simpl cond_Zopp. rewrite bpow_0. lra. }
  destruct w as [|p|p]; simpl Z2SF.
  - unfold Rdiv. rewrite Rmult_0_l. apply (Rnd_zero prec64 emax64); auto.
  - replace (IZR (Z.pos p)) with (F2R false p 0).
    2:{ unfold F2R. simpl cond_Zopp. rewrite bpow_0. lra. }
    rewrite <- E10. apply Ndiv_spec.
  - replace (IZR (Z.neg p)) with (F2R true p 0).
    2:{ unfold F2R. simpl cond_Zopp. rewrite bpow_0. lra. }
    rewrite <- E10. apply Ndiv_spec.
Qed.

Lemma Number_formatUnits_nonneg w :
  0 <= w -> nonneg (Number_formatUnits w 18) = true /\ wf (Number_formatUnits w 18) = true.
Proof.
  intros Hw. pose proof (Number_formatUnits_spec w) as H.
  split; [|eapply Rnd64_wf; eassumption].
  destruct (Z.eq_dec w 0) as [->|Hne]; [reflexivity|].
  eapply Rnd64_nonneg; [eassumption|].
  apply Rdiv_lt_0_compat; [apply IZR_lt; lia|lra].
Qed.

Lemma Number_formatUnits_mono w1 w2 :
  w1 <= w2 -> Nleb (Number_formatUnits w1 18) (Number_formatUnits w2 18) = true.
Proof.
  intros H. pose proof (Number_formatUnits_spec w1) as H1.
  pose proof (Number_formatUnits_spec w2) as H2.
  destruct (Z.eq_dec w1 w2) as [->|Hne].
  - apply Nleb_refl. eapply Rnd64_not_nan; eassumption.
  - eapply Rnd64_le; [eassumption|eassumption|].
    assert (Hlt : w1 < w2) by lia. apply IZR_lt in Hlt.
    unfold Rdiv. apply Rmult_lt_compat_r; lra.
Qed.

(** * Order properties of the operations of the curve *)

Lemma pos_ext_inv x :
  pos_ext x = true -> wf x = true /\ nonneg x = true /\ (is_finite x = true -> pos_finite x = true).
Proof.
  destruct x as [[]|[]| |[] m e]; try discriminate; intros H; repeat split; auto; discriminate.
Qed.

Lemma pos_finite_ext x : pos_finite x = true -> pos_ext x = true.
Proof. destruct x as [[]|[]| |[] m e]; try discriminate; auto. Qed.

Lemma Nltb_zero_pos_ext x : wf x = true -> Nltb zero x = true -> pos_ext x = true.
Proof. destruct x as [[]|[]| |[] m e]; try discriminate; auto. Qed.

Lemma nonneg_Nleb_zero x : nonneg x = true -> Nleb zero x = true.
Proof. destruct x as [[]|[]| |[] m e]; try discriminate; reflexivity. Qed.

Lemma Nleb_pos_inf x : x <> S754_nan -> Nleb x (S754_infinity false) = true.
Proof. destruct x as [[]|[]| |[] m e]; intros H; try reflexivity; contradiction. Qed.

Lemma Nleb_neg_inf x : x <> S754_nan -> Nleb (S754_infinity true) x = true.
Proof. destruct x as [[]|[]| |[] m e]; intros H; try reflexivity; contradiction. Qed.

Lemma nonneg_cases x :
  nonneg x = true -> is_finite x = true \/ x = S754_infinity false.
Proof. destruct x as [[]|[]| |[] m e]; try discriminate; auto. Qed.

(** Addition of a non-negative Number to a positive one. *)
Lemma Nadd_pos x y :
  pos_finite x = true -> wf y = true -> nonneg y = true ->
  pos_ext (Nadd x y) = true /\ Nleb x (Nadd x y) = true /\
  (is_finite (Nadd x y) = true -> is_finite y = true /\ (SF2R x <= SF2R (Nadd x y))%R).
Proof.
  intros Px Wy Ny. destruct (pos_finite_inv x Px) as (Wx & Fx & Nx & Hx).
  destruct (nonneg_cases y Ny) as [Fy| ->].
  - pose proof (Nadd_spec x y Wx Wy Fx Fy) as H.
    pose proof (nonneg_finite_SF2R y Ny) as Hy.
    assert (L : Nleb x (Nadd x y) = true)
      by (eapply Rnd64_ge_float; [eassumption|assumption|assumption|lra]).
    assert (W : wf (Nadd x y) = true) by (eapply Rnd64_wf; eassumption).
    assert (N : nonneg (Nadd x y) = true) by (eapply Rnd64_nonneg; [eassumption|lra]).
    assert (Hfin : is_finite (Nadd x y) = true -> (SF2R x <= SF2R (Nadd x y))%R).
    { intros F. apply Nleb_SF2R; assumption. }
    split; [|split; [assumption|intros F; split; [assumption|apply Hfin; assumption]]].
    destruct (nonneg_cases _ N) as [F| ->]; [|reflexivity].
    assert (P : pos_finite (Nadd x y) = true).
    { apply pos_finite_intro; try assumption. specialize (Hfin F). lra. }
    destruct (Nadd x y) as [[]|[]| |[] m e]; try discriminate; exact P.
  - destruct x as [[]|[]| |[] m e]; try discriminate.
    split; [reflexivity|]. split; [reflexivity|]. intros F. discriminate.
Qed.

Lemma Nadd_mono x y1 y2 :
  pos_finite x = true -> wf y1 = true -> wf y2 = true ->
  nonneg y1 = true -> nonneg y2 = true -> Nleb y1 y2 = true ->
  Nleb (Nadd x y1) (Nadd x y2) = true.
Proof.
  intros Px W1 W2 N1 N2 L. destruct (pos_finite_inv x Px) as (Wx & Fx & Nx & Hx).
  apply (lift_increasing (Nadd x) (fun v => SF2R x + v)%R); try assumption.
  - intros F. apply Nadd_spec; assumption.
  - intros F. apply Nadd_spec; assumption.
  - intros _ H. lra.
  - intros F. destruct (nonneg_cases y2 N2) as [F2| ->]; [congruence|].
    replace (Nadd x (S754_infinity false)) with (S754_infinity false)
      by (destruct x as [[]|[]| |[] m e]; try discriminate; reflexivity).
    apply Nleb_pos_inf.
    destruct (nonneg_cases y1 N1) as [F1| ->].
    + eapply Rnd64_not_nan. apply Nadd_spec; eassumption.
    + destruct x as [[]|[]| |[] m e]; discriminate.
Qed.

(** Division of the invariant by a positive Number. *)
Lemma Ndiv_K_spec x :
  pos_finite x = true -> Rnd64 (SF2R BONDING_CURVE_K / SF2R x) (Ndiv BONDING_CURVE_K x).
Proof.
  intros Px. destruct x as [[]|[]| |[] m e]; try discriminate.
  rewrite BONDING_CURVE_K_eq. apply Ndiv_spec.
Qed.

Lemma Ndiv_K_nonneg x :
  pos_ext x = true ->
  nonneg (Ndiv BONDING_CURVE_K x) = true /\ wf (Ndiv BONDING_CURVE_K x) = true.
Proof.
  intros Px. destruct (pos_ext_inv x Px) as (Wx & Nx & Hfin).
  destruct (nonneg_cases x Nx) as [F| ->].
  - specialize (Hfin F). pose proof (Ndiv_K_spec x Hfin) as H.
    destruct (pos_finite_inv x Hfin) as (_ & _ & _ & Hx).
    split; [|eapply Rnd64_wf; eassumption].
    eapply Rnd64_nonneg; [eassumption|].
    rewrite SF2R_BONDING_CURVE_K. apply Rdiv_lt_0_compat; lra.
  - split; reflexivity.
Qed.

Lemma Ndiv_K_antitone x1 x2 :
  pos_ext x1 = true -> pos_ext x2 = true -> Nleb x1 x2 = true ->
  Nleb (Ndiv BONDING_CURVE_K x2) (Ndiv BONDING_CURVE_K x1) = true.
Proof.
  intros P1 P2 L.
  destruct (pos_ext_inv x1 P1) as (W1 & N1 & F1). destruct (pos_ext_inv x2 P2) as (W2 & N2 & F2).
  apply (lift_decreasing (Ndiv BONDING_CURVE_K) (fun v => SF2R BONDING_CURVE_K / v)%R);
    try assumption.
  - intros F. apply Ndiv_K_spec. auto.
  - intros F. apply Ndiv_K_spec. auto.
  - intros F H. rewrite SF2R_BONDING_CURVE_K.
    assert (Fx1 : is_finite x1 = true).
    { destruct x1 as [|[]| |]; try reflexivity; try discriminate.
      destruct x2 as [[]|[]| |[]]; discriminate. }
    destruct (pos_finite_inv x1 (F1 Fx1)) as (_ & _ & _ & Hx1).
    unfold Rdiv. apply Rmult_lt_compat_l; [lra|].
    apply Rinv_lt_contravar; [|assumption]. apply Rmult_lt_0_compat; lra.
  - intros F. destruct (nonneg_cases x2 N2) as [F2'| ->]; [congruence|].
    apply nonneg_Nleb_zero. apply Ndiv_K_nonneg. assumption.
Qed.

(** Subtraction of a non-negative Number from a finite one. *)
Lemma Nsub_antitone x y1 y2 :
  wf x = true -> is_finite x = true -> wf y1 = true -> wf y2 = true ->
  nonneg y1 = true -> nonneg y2 = true -> Nleb y1 y2 = true ->
  Nleb (Nsub x y2) (Nsub x y1) = true.
Proof.
  intros Wx Fx W1 W2 N1 N2 L.
  apply (lift_decreasing (Nsub x) (fun v => SF2R x - v)%R); try assumption.
  - intros F. apply Nsub_spec; assumption.
  - intros F. apply Nsub_spec; assumption.
  - intros _ H. lra.
  - intros F. destruct (nonneg_cases y2 N2) as [F2| ->]; [congruence|].
    replace (Nsub x (S754_infinity false)) with (S754_infinity true)
      by (destruct x as [[]|[]| |[] m e]; try discriminate; reflexivity).
    apply Nleb_neg_inf.
    destruct (nonneg_cases y1 N1) as [F1| ->].
    + eapply Rnd64_not_nan. apply Nsub_spec; eassumption.
    + destruct x as [[]|[]| |[] m e]; discriminate.
Qed.

Lemma Nsub_le x y :
  wf x = true -> is_finite x = true -> wf y = true -> nonneg y = true ->
  Nleb (Nsub x y) x = true.
Proof.
  intros Wx Fx Wy Ny. destruct (nonneg_cases y Ny) as [Fy| ->].
  - eapply Rnd64_le_float; [apply Nsub_spec; eassumption|assumption|assumption|].
    pose proof (nonneg_finite_SF2R y Ny). lra.
  - destruct x as [[]|[]| |[] m e]; try discriminate; reflexivity.
Qed.

Lemma Nsub_nonneg x y :
  wf x = true -> is_finite x = true -> wf y = true -> is_finite y = true ->
  (SF2R y <= SF2R x)%R -> Nleb zero (Nsub x y) = true.
Proof.
  intros Wx Fx Wy Fy H.
  eapply Rnd64_ge_float; [apply Nsub_spec; eassumption|reflexivity|reflexivity|].
  simpl. lra.
Qed.

(** * The reserves *)

Lemma nonneg_Nleb_finite x f :
  nonneg x = true -> is_finite f = true -> Nleb x f = true -> is_finite x = true.
Proof.
  destruct x as [[]|[]| |[] m e]; try discriminate; try reflexivity.
  destruct f as [[]|[]| |[] mf ef]; discriminate.
Qed.

Lemma pos_ext_finite x : pos_ext x = true -> is_finite x = true -> pos_finite x = true.
Proof. intros P F. apply (pos_ext_inv x P). assumption. Qed.

(** The quotient of the invariant by a positive finite Number does not
    underflow: it is positive, or [+Infinity]. *)
Lemma Ndiv_K_pos x :
  pos_finite x = true -> pos_ext (Ndiv BONDING_CURVE_K x) = true.
Proof.
  intros Px. destruct (pos_finite_inv x Px) as (Wx & Fx & Nx & Hx).
  pose proof (Ndiv_K_spec x Px) as H.
  destruct (Ndiv_K_nonneg x (pos_finite_ext x Px)) as [N W].
  set (f0 := S754_finite false 4503599627370496 (-1040)).
  assert (Ef0 : SF2R f0 = bpow (- (988))).
  { unfold f0, SF2R, F2R. simpl cond_Zopp.
    change 4503599627370496 with (2 ^ 52). rewrite <- bpow_IZR, <- bpow_plus by lia.
    reflexivity. }
  assert (L : Nleb f0 (Ndiv BONDING_CURVE_K x) = true).
  { eapply Rnd64_ge_float; [eassumption|reflexivity|reflexivity|].
    rewrite Ef0, SF2R_BONDING_CURVE_K.
    pose proof (valid_lt_emax prec64 emax64 prec64_gt_0 x Wx Fx) as Hlt.
    rewrite Rabs_pos_eq in Hlt by lra.
    assert (Hb : (bpow (- (988)) * bpow emax64 = 68719476736)%R).
    { rewrite <- bpow_plus. change (- (988) + emax64) with 36. rewrite bpow_IZR by lia.
      reflexivity. }
    pose proof (bpow_gt_0 (- (988))) as Hp.
    apply Rmult_le_reg_r with (SF2R x); [assumption|].
    unfold Rdiv. rewrite Rmult_assoc, Rinv_l, Rmult_1_r by lra.
    assert (bpow (- (988)) * SF2R x < bpow (- (988)) * bpow emax64)%R
      by (apply Rmult_lt_compat_l; assumption).
    lra. }
  destruct (Ndiv BONDING_CURVE_K x) as [[]|[]| |[] m e]; try discriminate; try reflexivity.
  exact W.
Qed.

Lemma reservesAt_facts raised :
  wf raised = true -> nonneg raised = true ->
  is_finite (virtualUsdtNatural (reservesAt raised)) = true ->
  pos_finite (virtualUsdtNatural (reservesAt raised)) = true /\
  pos_finite (virtualTokensNatural (reservesAt raised)) = true /\
  (6000 <= SF2R (virtualUsdtNatural (reservesAt raised)))%R /\
  (SF2R (virtualTokensNatural (reservesAt raised)) <= 1073000191)%R.
Proof.
  intros W N F.
  cbn [reservesAt virtualUsdtNatural virtualTokensNatural] in *.
  set (vU := Nadd VIRTUAL_USDT_RESERVE raised) in *.
  destruct (Nadd_pos VIRTUAL_USDT_RESERVE raised) as (P & L & Hfin); try assumption.
  { rewrite VIRTUAL_USDT_RESERVE_eq. reflexivity. }
  fold vU in P, L, Hfin. destruct (Hfin F) as [Fr Hge].
  rewrite SF2R_VIRTUAL_USDT_RESERVE in Hge.
  pose proof (pos_ext_finite vU P F) as PU.
  destruct (pos_finite_inv vU PU) as (WU & _ & NU & HU).
  pose proof (Ndiv_K_spec vU PU) as HT. pose proof (Ndiv_K_pos vU PU) as PT.
  assert (LT : Nleb (Ndiv BONDING_CURVE_K vU) VIRTUAL_TOKEN_RESERVE = true).
  { eapply Rnd64_le_float; [eassumption| | |].
    - rewrite VIRTUAL_TOKEN_RESERVE_eq. reflexivity.
    - rewrite VIRTUAL_TOKEN_RESERVE_eq. reflexivity.
    - rewrite SF2R_VIRTUAL_TOKEN_RESERVE, SF2R_BONDING_CURVE_K.
      apply Rmult_le_reg_r with (SF2R vU); [assumption|].
      unfold Rdiv. rewrite Rmult_assoc, Rinv_l, Rmult_1_r by lra. lra. }
  destruct (pos_ext_inv _ PT) as (WT & NT & HfT).
  assert (FT : is_finite (Ndiv BONDING_CURVE_K vU) = true).
  { eapply nonneg_Nleb_finite; [assumption| |eassumption].
    rewrite VIRTUAL_TOKEN_RESERVE_eq. reflexivity. }
  split; [assumption|]. split; [apply HfT; assumption|]. split; [assumption|].
  rewrite <- SF2R_VIRTUAL_TOKEN_RESERVE. apply Nleb_SF2R; try assumption;
    rewrite VIRTUAL_TOKEN_RESERVE_eq; reflexivity.
Qed.

Section WidgetFacts.

Variable BigInt : string -> option Z.
Variable parseFloat : string -> number.
Variable toFixed : number -> Z -> string.

Lemma getCurrentVirtualReserves_parsed token w :
  raisedWei BigInt token = Some w ->
  getCurrentVirtualReserves BigInt token = Normal (reservesAt (Number_formatUnits w 18)).
Proof.
  unfold raisedWei, getCurrentVirtualReserves, BigInt_of_string. intros ->. reflexivity.
Qed.

Lemma getCurrentVirtualReserves_fallback token :
  raisedWei BigInt token = None ->
  getCurrentVirtualReserves BigInt token =
    Normal {| virtualUsdtNatural := VIRTUAL_USDT_RESERVE;
              virtualTokensNatural := VIRTUAL_TOKEN_RESERVE |}.
Proof.
  unfold raisedWei, getCurrentVirtualReserves, BigInt_of_string. intros ->. reflexivity.
Qed.

Lemma getCurrentVirtualReserves_total token :
  exists r, getCurrentVirtualReserves BigInt token = Normal r.
Proof.
  destruct (raisedWei BigInt token) as [w|] eqn:E.
  - eexists. apply getCurrentVirtualReserves_parsed. eassumption.
  - eexists. apply getCurrentVirtualReserves_fallback. assumption.
Qed.

Lemma calculateTokensToReceive_eq token r usdtAmountWei :
  getCurrentVirtualReserves BigInt token = Normal r ->
  calculateTokensToReceive BigInt token usdtAmountWei =
    Normal (Nsub (virtualTokensNatural r)
                 (virtualTokensNatural
                    (reservesAfterBuy r (Number_formatUnits usdtAmountWei 18)))).
Proof. unfold calculateTokensToReceive. intros ->. reflexivity. Qed.

Lemma calculateUsdtToReceive_eq token r tokenAmountNatural :
  getCurrentVirtualReserves BigInt token = Normal r ->
  calculateUsdtToReceive BigInt token tokenAmountNatural =
    Normal (Nsub (virtualUsdtNatural r)
                 (virtualUsdtNatural (reservesAfterSell r tokenAmountNatural))).
Proof. unfold calculateUsdtToReceive. intros ->. reflexivity. Qed.

Lemma getCurrentPriceNatural_eq token r :
  getCurrentVirtualReserves BigInt token = Normal r ->
  getCurrentPriceNatural BigInt token =
    Normal (Ndiv (virtualUsdtNatural r) (virtualTokensNatural r)).
Proof. unfold getCurrentPriceNatural. intros ->. reflexivity. Qed.

(** ** The quote formulas *)

(** C1, as the code has it: a purchase of [usdtAmountWei] is quoted at
    [virtualBase - invariantK / (virtualQuote + quoteAmount)], every
    operation rounded to nearest; from a raised total of 0 and 100 USDT,
    [newVirtualQuote] is 6100 and the quote is the Number
    4721824517363488 * 2^-28, that is 17590167.0655738..., and not about
    17590355. *)
Theorem C1_buy_formula token w usdtAmountWei :
  raisedWei BigInt token = Some w ->
  let invariantK := Nmul (lit 6000) (lit 1073000191) in
  let virtualQuote := Nadd (lit 6000) (Number_formatUnits w 18) in
  let virtualBase := Ndiv invariantK virtualQuote in
  let quoteAmount := Number_formatUnits usdtAmountWei 18 in
  calculateTokensToReceive BigInt token usdtAmountWei =
    Normal (Nsub virtualBase (Ndiv invariantK (Nadd virtualQuote quoteAmount))) /\
  (w = 0 -> usdtAmountWei = 100 * 10 ^ 18 ->
   Nadd virtualQuote quoteAmount = lit 6100 /\
   calculateTokensToReceive BigInt token usdtAmountWei =
     Normal (S754_finite false 4721824517363488 (-28)) /\
   Nltb (lit 17590167) (S754_finite false 4721824517363488 (-28)) = true /\
   Nltb (S754_finite false 4721824517363488 (-28)) (lit 17590168) = true).
Proof.
  intros Hw. cbv zeta.
  rewrite (calculateTokensToReceive_eq token _ usdtAmountWei
             (getCurrentVirtualReserves_parsed token w Hw)).
  split; [reflexivity|].
  intros -> ->. repeat split; vm_compute; reflexivity.
Qed.

(** C2: a sale of [tokenAmount] is quoted at
    [virtualQuote - invariantK / (virtualBase + tokenAmount)]. *)
Theorem C2_sell_formula token w tokenAmount :
  raisedWei BigInt token = Some w ->
  let invariantK := Nmul (lit 6000) (lit 1073000191) in
  let virtualQuote := Nadd (lit 6000) (Number_formatUnits w 18) in
  let virtualBase := Ndiv invariantK virtualQuote in
  calculateUsdtToReceive BigInt token tokenAmount =
    Normal (Nsub virtualQuote (Ndiv invariantK (Nadd virtualBase tokenAmount))).
Proof.
  intros Hw. cbv zeta.
  rewrite (calculateUsdtToReceive_eq token _ tokenAmount
             (getCurrentVirtualReserves_parsed token w Hw)).
  reflexivity.
Qed.

(** ** Invalid amounts and degenerate states *)

(** C3, amended: the guard is in the effect.  A typed amount that parses
    to NaN, to zero or to a negative Number makes the effect set the empty
    quote, in either direction and for every token; the sale quote itself
    is not guarded and maps NaN to NaN. *)
Theorem C3_invalid_amount_is_empty_quote fromAmount isTokenToUsdt token :
  isNaN (parseFloat fromAmount) = true \/ Nleb (parseFloat fromAmount) zero = true ->
  quoteEffect BigInt parseFloat toFixed fromAmount isTokenToUsdt token = Normal EmptyString /\
  calculateUsdtToReceive BigInt token S754_nan = Normal S754_nan.
Proof.
  intros H. split.
  - unfold quoteEffect.
    destruct (negb (truthy (Some fromAmount)) || negb (truthy (token_totalUsdtRaised token)));
      [reflexivity|].
    destruct H as [-> | ->]; [reflexivity|]. rewrite orb_true_r. reflexivity.
  - destruct (getCurrentVirtualReserves_total token) as [r Hr].
    rewrite (calculateUsdtToReceive_eq token r _ Hr). simpl.
    unfold Nadd, Ndiv, Nsub.
    destruct (virtualTokensNatural r), (virtualUsdtNatural r); reflexivity.
Qed.


Lemma quote_functions_never_throw token usdtAmountWei tokenAmount :
  (exists v, calculateTokensToReceive BigInt token usdtAmountWei = Normal v) /\
  (exists v, calculateUsdtToReceive BigInt token tokenAmount = Normal v) /\
  (exists v, getCurrentPriceNatural BigInt token = Normal v).
Proof.
  destruct (getCurrentVirtualReserves_total token) as [r Hr].
  split; [|split]; eexists.
  - apply calculateTokensToReceive_eq. eassumption.
  - apply calculateUsdtToReceive_eq. eassumption.
  - apply getCurrentPriceNatural_eq. eassumption.
Qed.

End WidgetFacts.

(** * Bounds and monotonicity of the quotes *)

Lemma pos_ext_Nleb a b : pos_ext a = true -> wf b = true -> Nleb a b = true -> pos_ext b = true.
Proof.
  destruct a as [[]|[]| |[] ma ea]; try discriminate;
    destruct b as [[]|[]| |[] mb eb]; try discriminate; auto.
Qed.

Section QuoteBounds.

Variable BigInt : string -> option Z.

(** A token state with a non-negative raised total that is small enough
    for the virtual USDT reserve to be finite. *)
Variable token : option Token.
Variable w : Z.
Hypothesis parsed : raisedWei BigInt token = Some w.
Hypothesis raised_nonneg : 0 <= w.

Let r := reservesAt (Number_formatUnits w 18).

Hypothesis reserve_finite : is_finite (virtualUsdtNatural r) = true.

Lemma state_facts :
  pos_finite (virtualUsdtNatural r) = true /\
  pos_finite (virtualTokensNatural r) = true /\
  (6000 <= SF2R (virtualUsdtNatural r))%R /\
  (SF2R (virtualTokensNatural r) <= 1073000191)%R.
Proof.
  destruct (Number_formatUnits_nonneg w raised_nonneg) as [N W].
  apply reservesAt_facts; assumption.
Qed.

Lemma sell_eq a :
  calculateUsdtToReceive BigInt token a =
    Normal (Nsub (virtualUsdtNatural r)
                 (Ndiv BONDING_CURVE_K (Nadd (virtualTokensNatural r) a))).
Proof.
  rewrite (calculateUsdtToReceive_eq BigInt token r a
             (getCurrentVirtualReserves_parsed BigInt token w parsed)).
  reflexivity.
Qed.

Lemma buy_eq usdtAmountWei :
  calculateTokensToReceive BigInt token usdtAmountWei =
    Normal (Nsub (virtualTokensNatural r)
                 (Ndiv BONDING_CURVE_K
                    (Nadd (virtualUsdtNatural r) (Number_formatUnits usdtAmountWei 18)))).
Proof.
  rewrite (calculateTokensToReceive_eq BigInt token r usdtAmountWei
             (getCurrentVirtualReserves_parsed BigInt token w parsed)).
  reflexivity.
Qed.

Lemma sell_bounds a :
  wf a = true -> Nltb zero a = true ->
  let out := Nsub (virtualUsdtNatural r)
                  (Ndiv BONDING_CURVE_K (Nadd (virtualTokensNatural r) a)) in
  Nleb out (virtualUsdtNatural r) = true /\
  Nleb (Nsub (virtualUsdtNatural r) (Ndiv BONDING_CURVE_K (virtualTokensNatural r))) out = true.
Proof.
  intros Wa Pa out. destruct state_facts as (PU & PT & _).
  destruct (pos_finite_inv _ PU) as (WU & FU & NU & HU).
  destruct (pos_finite_inv _ PT) as (WT & FT & NT & HT).
  pose proof (Nltb_zero_pos_ext a Wa Pa) as Ea.
  destruct (pos_ext_inv a Ea) as (_ & Na & _).
  destruct (Nadd_pos (virtualTokensNatural r) a PT Wa Na) as (Ps & Ls & _).
  destruct (Ndiv_K_nonneg _ Ps) as [Nd Wd].
  split.
  - apply Nsub_le; assumption.
  - pose proof (pos_finite_ext _ PT) as PT'.
    destruct (Ndiv_K_nonneg _ PT') as [Nd' Wd'].
    apply Nsub_antitone; try assumption.
    apply Ndiv_K_antitone; assumption.
Qed.

Lemma buy_bounds usdtAmountWei :
  0 <= usdtAmountWei ->
  let out := Nsub (virtualTokensNatural r)
                  (Ndiv BONDING_CURVE_K
                     (Nadd (virtualUsdtNatural r) (Number_formatUnits usdtAmountWei 18))) in
  Nleb zero out = true /\ Nleb out (virtualTokensNatural r) = true.
Proof.
  intros Hq out. destruct state_facts as (PU & PT & _).
  destruct (pos_finite_inv _ PU) as (WU & FU & NU & HU).
  destruct (pos_finite_inv _ PT) as (WT & FT & NT & HT).
  destruct (Number_formatUnits_nonneg usdtAmountWei Hq) as [Nq Wq].
  destruct (Nadd_pos (virtualUsdtNatural r) _ PU Wq Nq) as (Pn & Ln & _).
  destruct (Ndiv_K_nonneg _ Pn) as [Nd Wd].
  pose proof (pos_finite_ext _ PU) as PU'.
  pose proof (Ndiv_K_antitone _ _ PU' Pn Ln) as Ld.
  change (Ndiv BONDING_CURVE_K (virtualUsdtNatural r)) with (virtualTokensNatural r) in Ld.
  pose proof (nonneg_Nleb_finite _ _ Nd FT Ld) as Fd.
  split.
  - apply Nsub_nonneg; try assumption. apply Nleb_SF2R; assumption.
  - apply Nsub_le; assumption.
Qed.

(** C5, amended: with positive reserves the purchase quote lies between 0
    and [virtualBase] and the sale quote is at most [virtualQuote], both
    bounds included; the sale quote is not below the rounding residue
    [virtualQuote - invariantK / virtualBase] of the state. *)
Theorem C5_quotes_are_bounded tokenAmount usdtAmountWei :
  wf tokenAmount = true -> Nltb zero tokenAmount = true -> 0 <= usdtAmountWei ->
  (exists usdt,
     calculateUsdtToReceive BigInt token tokenAmount = Normal usdt /\
     Nleb usdt (virtualUsdtNatural r) = true /\
     Nleb (Nsub (virtualUsdtNatural r)
                (Ndiv BONDING_CURVE_K (virtualTokensNatural r))) usdt = true) /\
  (exists tokens,
     calculateTokensToReceive BigInt token usdtAmountWei = Normal tokens /\
     Nleb zero tokens = true /\ Nleb tokens (virtualTokensNatural r) = true).
Proof.
  intros Wa Pa Hq. split.
  - eexists. split; [apply sell_eq|]. apply sell_bounds; assumption.
  - eexists. split; [apply buy_eq|]. apply buy_bounds; assumption.
Qed.

(** C6, amended: both quotes are monotone in their input, not strictly:
    a larger sale is quoted at least as much USDT and a larger purchase at
    least as many tokens. *)
Theorem C6_quotes_are_monotone a b usdtA usdtB :
  wf a = true -> wf b = true -> Nltb zero a = true -> Nleb a b = true ->
  0 <= usdtA <= usdtB ->
  (exists qa qb,
     calculateUsdtToReceive BigInt token a = Normal qa /\
     calculateUsdtToReceive BigInt token b = Normal qb /\ Nleb qa qb = true) /\
  (exists ta tb,
     calculateTokensToReceive BigInt token usdtA = Normal ta /\
     calculateTokensToReceive BigInt token usdtB = Normal tb /\ Nleb ta tb = true).
Proof.
  intros Wa Wb Pa Lab [HA HB]. destruct state_facts as (PU & PT & _).
  destruct (pos_finite_inv _ PU) as (WU & FU & NU & HU).
  destruct (pos_finite_inv _ PT) as (WT & FT & NT & HT).
  split.
  - exists (Nsub (virtualUsdtNatural r) (Ndiv BONDING_CURVE_K (Nadd (virtualTokensNatural r) a))),
           (Nsub (virtualUsdtNatural r) (Ndiv BONDING_CURVE_K (Nadd (virtualTokensNatural r) b))).
    split; [apply sell_eq|]. split; [apply sell_eq|].
    pose proof (Nltb_zero_pos_ext a Wa Pa) as Ea.
    pose proof (pos_ext_Nleb a b Ea Wb Lab) as Eb.
    destruct (pos_ext_inv a Ea) as (_ & Na & _). destruct (pos_ext_inv b Eb) as (_ & Nb & _).
    destruct (Nadd_pos (virtualTokensNatural r) a PT Wa Na) as (Psa & _).
    destruct (Nadd_pos (virtualTokensNatural r) b PT Wb Nb) as (Psb & _).
    destruct (Ndiv_K_nonneg _ Psa) as [Nda Wda]. destruct (Ndiv_K_nonneg _ Psb) as [Ndb Wdb].
    apply Nsub_antitone; try assumption.
    apply Ndiv_K_antitone; try assumption.
    apply Nadd_mono; assumption.
  - exists (Nsub (virtualTokensNatural r)
              (Ndiv BONDING_CURVE_K (Nadd (virtualUsdtNatural r) (Number_formatUnits usdtA 18)))),
           (Nsub (virtualTokensNatural r)
              (Ndiv BONDING_CURVE_K (Nadd (virtualUsdtNatural r) (Number_formatUnits usdtB 18)))).
    split; [apply buy_eq|]. split; [apply buy_eq|].
    destruct (Number_formatUnits_nonneg usdtA HA) as [NA WA].
    destruct (Number_formatUnits_nonneg usdtB ltac:(lia)) as [NB WB].
    destruct (Nadd_pos (virtualUsdtNatural r) _ PU WA NA) as (PnA & _).
    destruct (Nadd_pos (virtualUsdtNatural r) _ PU WB NB) as (PnB & _).
    destruct (Ndiv_K_nonneg _ PnA) as [NdA WdA]. destruct (Ndiv_K_nonneg _ PnB) as [NdB WdB].
    apply Nsub_antitone; try assumption.
    apply Ndiv_K_antitone; try assumption.
    apply Nadd_mono; try assumption.
    apply Number_formatUnits_mono. assumption.
Qed.

End QuoteBounds.

(** * The invariant *)

Lemma invariant_of_quotient x :
  pos_finite x = true -> is_finite (Ndiv BONDING_CURVE_K x) = true ->
  (Rabs (SF2R x * SF2R (Ndiv BONDING_CURVE_K x) - SF2R BONDING_CURVE_K)
   <= bpow (- (53)) * SF2R BONDING_CURVE_K)%R.
Proof.
  intros Px Fq. destruct (pos_finite_inv x Px) as (Wx & Fx & Nx & Hx).
  pose proof (Ndiv_K_spec x Px) as H.
  pose proof (valid_lt_emax prec64 emax64 prec64_gt_0 x Wx Fx) as Hlt.
  rewrite Rabs_pos_eq in Hlt by lra.
  rewrite SF2R_BONDING_CURVE_K in *.
  assert (Hq : (0 < 6438001146000 / SF2R x)%R) by (apply Rdiv_lt_0_compat; lra).
  pose proof (Rnd_rel_error prec64 emax64 _ _ H Fq) as Hrel.
  rewrite (Rabs_pos_eq (6438001146000 / SF2R x)) in Hrel by lra.
  assert (Hbig : (bpow (emin prec64 emax64 + prec64 - 1) <= 6438001146000 / SF2R x)%R).
  { change (emin prec64 emax64 + prec64 - 1) with (- (1022)).
    assert (Hb : (bpow (- (1022)) * bpow emax64 = 4)%R).
    { rewrite <- bpow_plus. change (- (1022) + emax64) with 2. rewrite bpow_IZR by lia.
      reflexivity. }
    pose proof (bpow_gt_0 (- (1022))) as Hp.
    apply Rmult_le_reg_r with (SF2R x); [assumption|].
    unfold Rdiv. rewrite Rmult_assoc, Rinv_l, Rmult_1_r by lra.
    assert (bpow (- (1022)) * SF2R x < bpow (- (1022)) * bpow emax64)%R
      by (apply Rmult_lt_compat_l; assumption).
    lra. }
  specialize (Hrel Hbig). change (- prec64) with (- (53)) in Hrel.
  set (q := SF2R (Ndiv BONDING_CURVE_K x)) in *.
  replace (SF2R x * q - 6438001146000)%R
    with (SF2R x * (q - 6438001146000 / SF2R x))%R by (field; lra).
  rewrite Rabs_mult, (Rabs_pos_eq (SF2R x)) by lra.
  apply Rle_trans with (SF2R x * (bpow (- (53)) * (6438001146000 / SF2R x)))%R.
  - apply Rmult_le_compat_l; lra.
  - right. field. lra.
Qed.

Lemma bpow_m53_le : (bpow (- (53)) <= / 1000000000)%R.
Proof.
  rewrite bpow_opp, bpow_IZR by lia. change (2 ^ 53) with 9007199254740992.
  apply Rinv_le_contravar; lra.
Qed.

Lemma invariant_of_quotient_tol x :
  pos_finite x = true -> is_finite (Ndiv BONDING_CURVE_K x) = true ->
  (Rabs (SF2R x * SF2R (Ndiv BONDING_CURVE_K x) - SF2R BONDING_CURVE_K)
   <= / 1000000000 * SF2R BONDING_CURVE_K)%R.
Proof.
  intros Px Fq. eapply Rle_trans; [apply invariant_of_quotient; assumption|].
  apply Rmult_le_compat_r; [rewrite SF2R_BONDING_CURVE_K; lra|apply bpow_m53_le].
Qed.

(** C8: with a non-negative raised total, [virtualQuote * virtualBase] is
    [invariantK] within a relative tolerance of 1e-9 (in fact 2^-53) for
    the reserves of the state, and for the reserves after a hypothetical
    purchase or sale, as long as these are finite Numbers. *)
Theorem C8_invariant_within_tolerance
        (BigInt : string -> option Z) (token : option Token) (w : Z)
        (usdtAmountWei : Z) (tokenAmount : number) :
  raisedWei BigInt token = Some w -> 0 <= w ->
  is_finite (virtualUsdtNatural (reservesAt (Number_formatUnits w 18))) = true ->
  0 <= usdtAmountWei ->
  wf tokenAmount = true -> Nltb zero tokenAmount = true ->
  exists r,
    getCurrentVirtualReserves BigInt token = Normal r /\
    invariant_within (/ 1000000000) r /\
    (let r' := reservesAfterBuy r (Number_formatUnits usdtAmountWei 18) in
     is_finite (virtualUsdtNatural r') = true -> invariant_within (/ 1000000000) r') /\
    (let r' := reservesAfterSell r tokenAmount in
     is_finite (virtualTokensNatural r') = true ->
     is_finite (virtualUsdtNatural r') = true -> invariant_within (/ 1000000000) r').
Proof.
  intros Hw Hw0 Fin Hq Wa Pa.
  exists (reservesAt (Number_formatUnits w 18)).
  split; [apply getCurrentVirtualReserves_parsed; assumption|].
  destruct (Number_formatUnits_nonneg w Hw0) as [N W].
  destruct (reservesAt_facts _ W N Fin) as (PU & PT & _).
  destruct (pos_finite_inv _ PT) as (WT & FT & NT & HT).
  split; [|split].
  - unfold invariant_within. apply invariant_of_quotient_tol; assumption.
  - intros r' F'. unfold invariant_within, r' in *.
    cbn [reservesAfterBuy reservesAfterSell reservesAt virtualUsdtNatural virtualTokensNatural] in *.
    destruct (Number_formatUnits_nonneg usdtAmountWei Hq) as [Nq Wq].
    destruct (Nadd_pos _ _ PU Wq Nq) as (Pn & _).
    pose proof (pos_ext_finite _ Pn F') as Pn'.
    assert (Fd : is_finite (Ndiv BONDING_CURVE_K
                (Nadd (Nadd VIRTUAL_USDT_RESERVE (Number_formatUnits w 18))
                      (Number_formatUnits usdtAmountWei 18))) = true).
    { destruct (Nadd_pos _ _ PU Wq Nq) as (_ & Ln & _).
      destruct (Ndiv_K_nonneg _ Pn) as [Nd Wd].
      eapply nonneg_Nleb_finite; [exact Nd|exact FT|].
      apply Ndiv_K_antitone; try assumption. apply pos_finite_ext; assumption. }
    apply invariant_of_quotient_tol; assumption.
  - intros r' FT' FU'. unfold invariant_within, r' in *.
    cbn [reservesAfterBuy reservesAfterSell reservesAt virtualUsdtNatural virtualTokensNatural] in *.
    pose proof (Nltb_zero_pos_ext _ Wa Pa) as Ea.
    destruct (pos_ext_inv _ Ea) as (_ & Na & _).
    destruct (Nadd_pos _ _ PT Wa Na) as (Ps & _).
    pose proof (pos_ext_finite _ Ps FT') as Ps'.
    rewrite Rmult_comm. apply invariant_of_quotient_tol; assumption.
Qed.

(** * The spot price *)

Lemma Ndiv_monotone x1 y1 x2 y2 :
  pos_finite x1 = true -> pos_finite x2 = true ->
  pos_finite y1 = true -> pos_finite y2 = true ->
  Nleb x1 x2 = true -> Nleb y2 y1 = true ->
  Nleb (Ndiv x1 y1) (Ndiv x2 y2) = true.
Proof.
  intros Px1 Px2 Py1 Py2 Lx Ly.
  destruct (pos_finite_inv _ Px1) as (Wx1 & Fx1 & Nx1 & Hx1).
  destruct (pos_finite_inv _ Px2) as (Wx2 & Fx2 & Nx2 & Hx2).
  destruct (pos_finite_inv _ Py1) as (Wy1 & Fy1 & Ny1 & Hy1).
  destruct (pos_finite_inv _ Py2) as (Wy2 & Fy2 & Ny2 & Hy2).
  apply Nleb_SF2R in Lx; try assumption. apply Nleb_SF2R in Ly; try assumption.
  assert (R1 : Rnd64 (SF2R x1 / SF2R y1) (Ndiv x1 y1)).
  { destruct x1 as [[]|[]| |[] ? ?]; try discriminate.
    destruct y1 as [[]|[]| |[] ? ?]; try discriminate. apply Ndiv_spec. }
  assert (R2 : Rnd64 (SF2R x2 / SF2R y2) (Ndiv x2 y2)).
  { destruct x2 as [[]|[]| |[] ? ?]; try discriminate.
    destruct y2 as [[]|[]| |[] ? ?]; try discriminate. apply Ndiv_spec. }
  destruct (Req_dec (SF2R x1) (SF2R x2)) as [Ex|Nx];
    [destruct (Req_dec (SF2R y1) (SF2R y2)) as [Ey|Ny]|].
  - rewrite (nonneg_SF2R_inj x1 x2), (nonneg_SF2R_inj y1 y2); try assumption.
    apply Nleb_refl. eapply Rnd64_not_nan; eassumption.
  - eapply Rnd64_le; [eassumption|eassumption|].
    rewrite Ex. unfold Rdiv. apply Rmult_lt_compat_l; [assumption|].
    apply Rinv_lt_contravar; [apply Rmult_lt_0_compat; lra|lra].
  - eapply Rnd64_le; [eassumption|eassumption|].
    apply Rle_lt_trans with (SF2R x1 / SF2R y2)%R.
    + unfold Rdiv. apply Rmult_le_compat_l; [lra|].
      apply Rinv_le_contravar; lra.
    + unfold Rdiv. apply Rmult_lt_compat_r; [apply Rinv_0_lt_compat; assumption|lra].
Qed.

Lemma Ndiv_K_inf : Ndiv BONDING_CURVE_K (S754_infinity false) = zero.
Proof. rewrite BONDING_CURVE_K_eq. reflexivity. Qed.

Lemma price_not_nan raised :
  wf raised = true -> nonneg raised = true ->
  Ndiv (virtualUsdtNatural (reservesAt raised)) (virtualTokensNatural (reservesAt raised))
    <> S754_nan.
Proof.
  intros W N.
  destruct (is_finite (virtualUsdtNatural (reservesAt raised))) eqn:F.
  - destruct (reservesAt_facts _ W N F) as (PU & PT & _).
    destruct (virtualUsdtNatural (reservesAt raised)) as [[]|[]| |[] mu eu]; try discriminate.
    destruct (virtualTokensNatural (reservesAt raised)) as [[]|[]| |[] mt et]; try discriminate.
    eapply Rnd64_not_nan. apply Ndiv_spec.
  - cbn [reservesAt virtualUsdtNatural virtualTokensNatural] in *.
    assert (PV : pos_finite VIRTUAL_USDT_RESERVE = true)
      by (rewrite VIRTUAL_USDT_RESERVE_eq; reflexivity).
    destruct (Nadd_pos _ _ PV W N) as (PE & _).
    destruct (pos_ext_inv _ PE) as (_ & NE & _).
    destruct (nonneg_cases _ NE) as [F'|E]; [congruence|].
    rewrite E, Ndiv_K_inf. discriminate.
Qed.

Lemma price_monotone (BigInt : string -> option Z) token1 token2 w1 w2 :
  raisedWei BigInt token1 = Some w1 -> raisedWei BigInt token2 = Some w2 ->
  0 <= w1 <= w2 ->
  exists p1 p2,
    getCurrentPriceNatural BigInt token1 = Normal p1 /\
    getCurrentPriceNatural BigInt token2 = Normal p2 /\
    Nleb p1 p2 = true.
Proof.
  intros H1 H2 [Hw1 Hw12].
  set (r1 := reservesAt (Number_formatUnits w1 18)).
  set (r2 := reservesAt (Number_formatUnits w2 18)) in *.
  exists (Ndiv (virtualUsdtNatural r1) (virtualTokensNatural r1)),
         (Ndiv (virtualUsdtNatural r2) (virtualTokensNatural r2)).
  split; [apply getCurrentPriceNatural_eq, getCurrentVirtualReserves_parsed; assumption|].
  split; [apply getCurrentPriceNatural_eq, getCurrentVirtualReserves_parsed; assumption|].
  destruct (Number_formatUnits_nonneg w1 Hw1) as [N1 W1].
  destruct (Number_formatUnits_nonneg w2 ltac:(lia)) as [N2 W2].
  assert (PV : pos_finite VIRTUAL_USDT_RESERVE = true)
    by (rewrite VIRTUAL_USDT_RESERVE_eq; reflexivity).
  assert (LU : Nleb (virtualUsdtNatural r1) (virtualUsdtNatural r2) = true).
  { apply Nadd_mono; try assumption. apply Number_formatUnits_mono. assumption. }
  destruct (Nadd_pos _ _ PV W1 N1) as (PE1 & _).
  destruct (pos_ext_inv _ PE1) as (_ & NU1 & _).
  destruct (is_finite (virtualUsdtNatural r2)) eqn:F2.
  - assert (F1 : is_finite (virtualUsdtNatural r1) = true)
      by (eapply nonneg_Nleb_finite; [exact NU1|exact F2|exact LU]).
    destruct (reservesAt_facts _ W1 N1 F1) as (PU1 & PT1 & _).
    destruct (reservesAt_facts _ W2 N2 F2) as (PU2 & PT2 & _).
    apply Ndiv_monotone; try assumption.
    apply Ndiv_K_antitone; try assumption; apply pos_finite_ext; assumption.
  - destruct (Nadd_pos _ _ PV W2 N2) as (PE2 & _).
    destruct (pos_ext_inv _ PE2) as (_ & NU2 & _).
    destruct (nonneg_cases _ NU2) as [F2'|E2].
    { unfold r2 in F2. cbn [reservesAt virtualUsdtNatural] in F2. congruence. }
    unfold r2 at 1 2. cbn [reservesAt virtualUsdtNatural virtualTokensNatural].
    rewrite E2, Ndiv_K_inf.
    apply Nleb_pos_inf. apply price_not_nan; assumption.
Qed.

(** * The curve in exact arithmetic *)

Section ExactFacts.

Local Open Scope Q_scope.

Lemma exact_price_formula r :
  0 <= r ->
  Exact.getCurrentPriceNatural r == (6000 + r) * (6000 + r) / Exact.BONDING_CURVE_K.
Proof.
  intros Hr. unfold Exact.getCurrentPriceNatural, Exact.virtualTokens, Exact.virtualUsdt,
    Exact.BONDING_CURVE_K, Exact.VIRTUAL_USDT_RESERVE, Exact.VIRTUAL_TOKEN_RESERVE.
  field. lra.
Qed.

Lemma exact_price_increasing r1 r2 :
  0 <= r1 -> r1 < r2 ->
  Exact.getCurrentPriceNatural r1 < Exact.getCurrentPriceNatural r2.
Proof.
  intros H1 H2. rewrite !exact_price_formula by lra.
  unfold Exact.BONDING_CURVE_K, Exact.VIRTUAL_USDT_RESERVE, Exact.VIRTUAL_TOKEN_RESERVE.
  apply Qmult_lt_compat_r.
  - apply Qinv_lt_0_compat. reflexivity.
  - nra.
Qed.

Lemma exact_virtualTokens_pos r : 0 <= r -> 0 < Exact.virtualTokens r.
Proof.
  intros Hr. unfold Exact.virtualTokens, Exact.virtualUsdt, Exact.BONDING_CURVE_K,
    Exact.VIRTUAL_USDT_RESERVE, Exact.VIRTUAL_TOKEN_RESERVE.
  apply Qlt_shift_div_l; lra.
Qed.

Lemma exact_round_trip_formula r t :
  0 <= r -> 0 < t ->
  Exact.calculateTokensToReceive r (Exact.calculateUsdtToReceive r t) ==
    Exact.virtualTokens r * t / (Exact.virtualTokens r + 2 * t).
Proof.
  intros Hr Ht.
  unfold Exact.calculateTokensToReceive, Exact.calculateUsdtToReceive, Exact.virtualTokens,
    Exact.virtualUsdt, Exact.BONDING_CURVE_K, Exact.VIRTUAL_USDT_RESERVE,
    Exact.VIRTUAL_TOKEN_RESERVE.
  assert (Hu : 0 < 6000 + r) by lra.
  assert (Hp : 0 < t * (6000 + r)) by (apply Qmult_lt_0_compat; lra).
  assert (Hup : 0 < (6000 + r) * (t * (6000 + r))) by (apply Qmult_lt_0_compat; lra).
  field. repeat split; intro H; lra.
Qed.

Lemma exact_round_trip_loses r t :
  0 <= r -> 0 < t ->
  Exact.calculateTokensToReceive r (Exact.calculateUsdtToReceive r t) ==
    Exact.virtualTokens r * t / (Exact.virtualTokens r + 2 * t) /\
  Exact.calculateTokensToReceive r (Exact.calculateUsdtToReceive r t) < t.
Proof.
  intros Hr Ht. split; [apply exact_round_trip_formula; assumption|].
  rewrite exact_round_trip_formula by assumption.
  pose proof (exact_virtualTokens_pos r Hr) as HT.
  apply Qlt_shift_div_r; [lra|].
  assert (0 < t * t) by (apply Qmult_lt_0_compat; assumption).
  lra.
Qed.

End ExactFacts.

(** C9, amended: the spot price is monotone in the raised total, not
    strictly: a larger total never gives a smaller price; without rounding
    the price is [(6000 + r)^2 / invariantK] and strictly increasing. *)
Theorem C9_price_is_monotone (BigInt : string -> option Z) token1 token2 w1 w2 :
  raisedWei BigInt token1 = Some w1 -> raisedWei BigInt token2 = Some w2 ->
  0 <= w1 < w2 ->
  (exists p1 p2,
     getCurrentPriceNatural BigInt token1 = Normal p1 /\
     getCurrentPriceNatural BigInt token2 = Normal p2 /\
     Nleb p1 p2 = true) /\
  (let r1 := (inject_Z w1 / inject_Z (10 ^ 18))%Q in
   let r2 := (inject_Z w2 / inject_Z (10 ^ 18))%Q in
   (Exact.getCurrentPriceNatural r1 < Exact.getCurrentPriceNatural r2)%Q /\
   (Exact.getCurrentPriceNatural r1 ==
      (6000 + r1) * (6000 + r1) / Exact.BONDING_CURVE_K)%Q).
Proof.
  intros H1 H2 [Hw1 Hw12]. split.
  - eapply price_monotone; try eassumption. lia.
  - cbv zeta.
    assert (Hr1 : (0 <= inject_Z w1 / inject_Z (10 ^ 18))%Q).
    { apply Qle_shift_div_l; [reflexivity|]. rewrite Qmult_0_l.
      change 0%Q with (inject_Z 0). rewrite <- Zle_Qle. assumption. }
    split; [|apply exact_price_formula; assumption].
    apply exact_price_increasing; [assumption|].
    apply Qmult_lt_compat_r; [reflexivity|]. rewrite <- Zlt_Qlt. assumption.
Qed.

(** * Amounts below one wei *)

Lemma lit_0 : lit 0 = zero.
Proof. reflexivity. Qed.


Lemma Nsub_diag x : pos_finite x = true -> Nsub x x = zero.
Proof.
  destruct x as [[]|[]| |[] m e]; try discriminate; intros _.
  unfold Nsub, SFsub. simpl cond_Zopp. rewrite Z.sub_diag. reflexivity.
Qed.






(** * Error bounds *)

(** A result that is itself a Number is not rounded. *)
Lemma Rnd64_exact v r :
  Rnd64 v r -> format64 v -> is_finite r = true -> SF2R r = v.
Proof.
  intros H Fv Fr.
  destruct (Rnd_Snear prec64 emax64 prec64_gt_0 v r H)
    as (s & m & e & -> & Hc & [_ Hn] & _).
  rewrite (SF2R_pack prec64 emax64) by assumption.
  specialize (Hn v Fv). rewrite Rminus_diag in Hn. rewrite Rabs_R0 in Hn.
  pose proof (Rabs_pos (v - sval s m e)) as Hp.
  assert (Hz : Rabs (v - sval s m e) = 0%R) by lra.
  destruct (Req_dec (v - sval s m e) 0) as [E|E]; [lra|].
  apply Rabs_no_R0 in E. contradiction.
Qed.

Lemma format64_of_valid x : wf x = true -> is_finite x = true -> format64 (SF2R x).
Proof.
  intros W F.
  destruct (valid_pack prec64 emax64 prec64_gt_0 x W F) as (s & m & e & _ & _ & _ & _ & H).
  exact H.
Qed.

(** A sum of two Numbers that is below the normal range is a Number. *)
Lemma format64_sum x y :
  format64 x -> format64 y -> (Rabs (x + y) < bpow (- (1021)))%R -> format64 (x + y).
Proof.
  intros (kx & cx & Hcx & _ & ->) (ky & cy & Hcy & _ & ->) Hlt.
  change (emin prec64 emax64) with (- (1074)) in *.
  set (k := kx * 2 ^ (cx + 1074) + ky * 2 ^ (cy + 1074)).
  assert (E : (IZR kx * bpow cx + IZR ky * bpow cy = IZR k * bpow (- (1074)))%R).
  { unfold k. rewrite plus_IZR, !mult_IZR, <- !bpow_IZR by lia.
    rewrite Rmult_plus_distr_r, !Rmult_assoc, <- !bpow_plus.
    replace (cx + 1074 + - (1074)) with cx by lia.
    replace (cy + 1074 + - (1074)) with cy by lia. reflexivity. }
  rewrite E in *. exists k, (- (1074)).
  split; [change (emin prec64 emax64) with (- (1074)); lia|]. split; [|reflexivity].
  pose proof (bpow_gt_0 (- (1074))) as Hb.
  rewrite Rabs_mult, (Rabs_pos_eq (bpow (- (1074)))) in Hlt by lra.
  replace (- (1021)) with (53 + - (1074)) in Hlt by lia. rewrite bpow_plus in Hlt.
  apply Rmult_lt_reg_r in Hlt; [|assumption].
  rewrite <- abs_IZR, bpow_IZR in Hlt by lia. apply lt_IZR in Hlt. exact Hlt.
Qed.

(** The relative error of an addition is at most [2^-53], the subnormal
    range included. *)
Lemma Rnd64_sum_error x y r :
  format64 x -> format64 y -> Rnd64 (x + y) r -> is_finite r = true ->
  (Rabs (SF2R r - (x + y)) <= bpow (- (53)) * Rabs (x + y))%R.
Proof.
  intros Fx Fy H Fr.
  destruct (Rle_lt_dec (bpow (- (1022))) (Rabs (x + y))) as [Hn|Hs].
  - apply (Rnd_rel_error prec64 emax64 _ _ H Fr). exact Hn.
  - assert (Hlt : (Rabs (x + y) < bpow (- (1021)))%R).
    { pose proof (bpow_lt (- (1022)) (- (1021)) ltac:(lia)). lra. }
    rewrite (Rnd64_exact _ _ H (format64_sum x y Fx Fy Hlt) Fr).
    rewrite Rminus_diag, Rabs_R0.
    apply Rmult_le_pos; [left; apply bpow_gt_0|apply Rabs_pos].
Qed.

Lemma bpow_m53 : bpow (- (53)) = u64.
Proof. rewrite bpow_opp, bpow_IZR by lia. reflexivity. Qed.

Lemma format64_opp x : format64 x -> format64 (- x).
Proof.
  intros (k & c & Hc & Hk & ->). exists (- k), c.
  split; [assumption|]. split; [lia|]. rewrite opp_IZR. ring.
Qed.

Lemma Nadd_error x y :
  wf x = true -> wf y = true -> is_finite x = true -> is_finite y = true ->
  is_finite (Nadd x y) = true ->
  (Rabs (SF2R (Nadd x y) - (SF2R x + SF2R y)) <= u64 * Rabs (SF2R x + SF2R y))%R.
Proof.
  intros Wx Wy Fx Fy F. rewrite <- bpow_m53.
  apply Rnd64_sum_error; try assumption; try (apply format64_of_valid; assumption).
  apply Nadd_spec; assumption.
Qed.

Lemma Nsub_error x y :
  wf x = true -> wf y = true -> is_finite x = true -> is_finite y = true ->
  is_finite (Nsub x y) = true ->
  (Rabs (SF2R (Nsub x y) - (SF2R x - SF2R y)) <= u64 * Rabs (SF2R x - SF2R y))%R.
Proof.
  intros Wx Wy Fx Fy F. rewrite <- bpow_m53. unfold Rminus at 2 3.
  apply Rnd64_sum_error; try assumption.
  - apply format64_of_valid; assumption.
  - apply format64_opp, format64_of_valid; assumption.
  - apply Nsub_spec; assumption.
Qed.

(** In the normal range every operation has a relative error of at most
    [2^-53]. *)
Lemma Rnd64_error v r :
  Rnd64 v r -> is_finite r = true -> (bpow (- (1022)) <= v)%R ->
  (v * (1 - u64) <= SF2R r <= v * (1 + u64))%R.
Proof.
  intros H F Hv. pose proof (bpow_gt_0 (- (1022))) as Hb.
  pose proof (Rnd_rel_error prec64 emax64 v r H F) as E.
  rewrite (Rabs_pos_eq v) in E by lra.
  change (emin prec64 emax64 + prec64 - 1) with (- (1022)) in E.
  specialize (E Hv). change (- prec64) with (- (53)) in E. rewrite bpow_m53 in E.
  pose proof (Rle_abs (SF2R r - v)) as E1.
  pose proof (Rle_abs (- (SF2R r - v))) as E2. rewrite Rabs_Ropp in E2. lra.
Qed.

(** A positive Number is at least [2^-1074]. *)
Lemma pos_finite_ge x : pos_finite x = true -> (bpow (- (1074)) <= SF2R x)%R.
Proof.
  intros P. destruct (pos_finite_inv x P) as (W & F & N & H).
  destruct (valid_pack prec64 emax64 prec64_gt_0 x W F) as (s & m & e & -> & Hc & E & _).
  rewrite E in *. destruct Hc as [->|((Hm0 & Hm) & He & _)].
  - unfold sval in H. replace (cond_Zopp s 0) with 0 in H by (destruct s; reflexivity). lra.
  - change (emin prec64 emax64) with (- (1074)) in He.
    destruct s.
    + rewrite sval_true in H. pose proof (bpow_gt_0 e).
      assert (0 < IZR m)%R by (apply IZR_lt; lia). nra.
    + rewrite sval_false. pose proof (bpow_le _ _ He) as Hle.
      pose proof (bpow_gt_0 (- (1074))).
      assert (1 <= IZR m)%R by (apply IZR_le; lia). nra.
Qed.

(** * Whole wei *)

(** [BigInt] of a Number whose value is the integer [z] is [z]. *)
Lemma BigInt_of_Number_integral x z :
  is_finite x = true -> SF2R x = IZR z -> BigInt_of_Number x = Normal z.
Proof.
  destruct x as [s| | |s m e]; try discriminate; intros _ H.
  - simpl in H. apply eq_IZR in H. subst z. reflexivity.
  - simpl in H. unfold F2R in H. unfold BigInt_of_Number.
    destruct (Z.leb_spec 0 e) as [He|He].
    + f_equal. apply eq_IZR. rewrite <- H, bpow_IZR, <- mult_IZR by lia.
      f_equal. destruct s; cbv [cond_Zopp]; ring.
    + assert (Hp : 0 < 2 ^ (- e)) by (apply Z.pow_pos_nonneg; lia).
      assert (Hz : cond_Zopp s (Zpos m) = z * 2 ^ (- e)).
      { apply eq_IZR. rewrite mult_IZR, <- bpow_IZR, <- H by lia.
        rewrite Rmult_assoc, <- bpow_plus. replace (e + - e) with 0 by lia.
        rewrite bpow_0. ring. }
      assert (Hm : Zpos m = cond_Zopp s z * 2 ^ (- e))
        by (destruct s; cbv [cond_Zopp] in *; lia).
      rewrite Hm, Z.mod_mul, Z.eqb_refl, Z.div_mul by lia.
      f_equal. destruct s; cbv [cond_Zopp]; lia.
Qed.

(** A natural number below [2^53] is a Number. *)
Lemma lit_exact z :
  0 <= z < 2 ^ 53 ->
  wf (lit z) = true /\ is_finite (lit z) = true /\ SF2R (lit z) = IZR z.
Proof.
  intros Hz.
  assert (H : Rnd64 (IZR z) (lit z)).
  { pose proof (binary_normalize_spec prec64 emax64 prec64_gt_0 z 0 false) as H.
    rewrite bpow_0, Rmult_1_r in H. exact H. }
  assert (W : wf (lit z) = true) by (eapply Rnd64_wf; eassumption).
  assert (F : is_finite (lit z) = true).
  { assert (N : nonneg (lit z) = true).
    { destruct (Z.eq_dec z 0) as [->|Hn]; [reflexivity|].
      eapply Rnd64_nonneg; [eassumption|]. apply IZR_lt. lia. }
    apply (nonneg_Nleb_finite _ (S754_finite false 4503599627370496 1) N eq_refl).
    apply (Rnd_le_float prec64 emax64 prec64_gt_0 (IZR z)); try reflexivity; try assumption.
    simpl. unfold F2R. simpl cond_Zopp. rewrite bpow_1, <- (mult_IZR _ 2).
    apply IZR_le. change (2 ^ 53) with 9007199254740992 in Hz. lia. }
  split; [assumption|]. split; [assumption|].
  apply Rnd64_exact; try assumption.
  exists z, 0. split; [discriminate|]. split; [change prec64 with 53; lia|].
  rewrite bpow_0. ring.
Qed.

(** [BigInt(Math.floor(x))] of a non-negative Number is a natural number
    not above it. *)
Lemma floor_wei x :
  wf x = true -> nonneg x = true -> is_finite x = true ->
  exists wei, BigInt_of_Number (Math_floor x) = Normal wei /\ 0 <= wei /\
              (IZR wei <= SF2R x)%R.
Proof.
  intros W N F. destruct x as [[]|[]| |[] m e]; try discriminate.
  - exists 0. split; [reflexivity|]. split; [lia|]. simpl. lra.
  - unfold Math_floor. destruct (Z.leb_spec 0 e) as [He|He].
    + exists (Zpos m * 2 ^ e). split.
      * unfold BigInt_of_Number. destruct (Z.leb_spec 0 e); [reflexivity|lia].
      * split; [lia|]. rewrite mult_IZR, <- bpow_IZR by lia.
        simpl. unfold F2R. simpl cond_Zopp. lra.
    + assert (Hp : 0 < 2 ^ (- e)) by (apply Z.pow_pos_nonneg; lia).
      rewrite Z.shiftr_div_pow2 by lia.
      set (q := Zpos m / 2 ^ (- e)).
      assert (Hq0 : 0 <= q) by (apply Z.div_pos; lia).
      assert (Hqm : q * 2 ^ (- e) <= Zpos m).
      { unfold q. rewrite Z.mul_comm. apply Z.mul_div_le. lia. }
      assert (Hm : Zpos m < 2 ^ 53).
      { destruct (valid_pack prec64 emax64 prec64_gt_0 _ W F)
          as (s & m' & e' & E & Hc & _).
        destruct Hc as [->|((? & Hm') & _)]; [discriminate E|].
        unfold pack in E. destruct m' as [|p|p]; try discriminate E; try lia.
        destruct (e' <=? emax64 - prec64); [|discriminate E].
        injection E as _ -> _. exact Hm'. }
      assert (Hq : 0 <= q < 2 ^ 53).
      { split; [assumption|]. apply Z.le_lt_trans with (Zpos m); [|assumption].
        apply Z.le_trans with (q * 2 ^ (- e)); [|assumption]. nia. }
      destruct (lit_exact q Hq) as (Wq & Fq & Eq).
      exists q. split; [apply BigInt_of_Number_integral; assumption|].
      split; [assumption|]. simpl. unfold F2R. simpl cond_Zopp.
      apply IZR_le in Hqm. rewrite mult_IZR, <- bpow_IZR in Hqm by lia.
      pose proof (bpow_gt_0 e) as Hb.
      apply Rmult_le_reg_r with (bpow (- e)); [apply bpow_gt_0|].
      rewrite Rmult_assoc, <- bpow_plus. replace (e + - e) with 0 by lia.
      rewrite bpow_0. lra.
Qed.

(** * The algebra of a round trip *)

Section RoundTripAlgebra.

Local Open Scope R_scope.

Lemma round_trip_poly u T t E :
  0 < u <= / 1000 -> 0 < T -> 0 < t -> 7 * u * T <= E ->
  0 < (1 + u) * T - t - E ->
  ((1 + u) * T - t - E) *
    ((2 + (51 / 10) * u) * (1 + u) * (T + t) - (1 + (41 / 10) * u) * (1 - 2 * u) * T)
  <= (1 - u * u) * (T * (T + t)).
Proof.
  intros [Hu0 Hu1] HT Ht HE HG.
  assert (P1 : 0 <= u * T * T) by (apply Rmult_le_pos; [apply Rmult_le_pos|]; lra).
  assert (P2 : 0 <= u * T * t) by (apply Rmult_le_pos; [apply Rmult_le_pos|]; lra).
  assert (P3 : 0 <= t * t) by (apply Rmult_le_pos; lra).
  assert (P4 : 0 <= (E - 7 * u * T) * T) by (apply Rmult_le_pos; lra).
  assert (P5 : 0 <= (E - 7 * u * T) * t) by (apply Rmult_le_pos; lra).
  assert (HE0 : 0 <= E) by nra.
  assert (P6 : 0 <= E * T) by (apply Rmult_le_pos; lra).
  assert (P7 : 0 <= E * t) by (apply Rmult_le_pos; lra).
  assert (U2 : 0 <= u * u <= u / 1000) by nra.
  assert (U3 : 0 <= u * u * u <= u / 1000000) by nra.
  (* coefficients *)
  assert (Q1 : (6 * u + (193 / 10) * (u * u) + (133 / 10) * (u * u * u)) * (T * T) <= 7 * u * T * T).
  { replace (7 * u * T * T) with ((7 * u) * (T * T)) by ring.
    apply Rmult_le_compat_r; [nra|lra]. }
  assert (Q2 : ((41 / 10) * u - (1 / 10) * (u * u) + (51 / 10) * (u * u * u)) * (T * t) <= 14 * u * T * t).
  { replace (14 * u * T * t) with ((14 * u) * (T * t)) by ring.
    apply Rmult_le_compat_r; [nra|lra]. }
  assert (Q3 : E * T <= E * T * (1 + 5 * u + (133 / 10) * (u * u))).
  { rewrite <- (Rmult_1_r (E * T)) at 1. apply Rmult_le_compat_l; lra. }
  assert (Q4 : 2 * (E * t) <= E * t * (2 + (71 / 10) * u + (51 / 10) * (u * u))).
  { replace (2 * (E * t)) with (E * t * 2) by ring. apply Rmult_le_compat_l; lra. }
  assert (Q5 : 0 <= (2 + (71 / 10) * u + (51 / 10) * (u * u)) * (t * t)).
  { apply Rmult_le_pos; lra. }
  replace (((1 + u) * T - t - E) *
    ((2 + (51 / 10) * u) * (1 + u) * (T + t) - (1 + (41 / 10) * u) * (1 - 2 * u) * T))
    with ((1 - u * u) * (T * (T + t))
          + (6 * u + (193 / 10) * (u * u) + (133 / 10) * (u * u * u)) * (T * T)
          + ((41 / 10) * u - (1 / 10) * (u * u) + (51 / 10) * (u * u * u)) * (T * t)
          - (2 + (71 / 10) * u + (51 / 10) * (u * u)) * (t * t)
          - E * T * (1 + 5 * u + (133 / 10) * (u * u))
          - E * t * (2 + (71 / 10) * u + (51 / 10) * (u * u))) by (field).
  lra.
Qed.

Lemma round_trip_algebra u K U T t s d q q' n d' E :
  0 < u <= / 1000 -> 0 < K -> 0 < T -> 0 < t ->
  U * T <= K * (1 + u) ->
  0 < s <= (T + t) * (1 + u) ->
  K * (1 - u) <= d * s ->
  0 < q <= (U - d) * (1 + u) ->
  q' <= q * ((1 + u) * (1 + u)) ->
  0 < n <= (U + q') * (1 + u) ->
  K * (1 - u) <= d' * n ->
  7 * u * T <= E ->
  (T - d') * (1 + u) <= t + E.
Proof.
  intros [Hu0 Hu1] HK HT Ht HUT [Hs0 Hs] Hd [Hq0 Hq] Hq' [Hn0 Hn] Hd' HE.
  assert (HX : 0 < U - d) by nra.
  assert (Hd0 : 0 < d).
  { destruct (Rle_lt_dec d 0) as [Hle|]; [|assumption]. exfalso.
    assert (d * s <= 0) by nra. nra. }
  assert (Hd'0 : 0 < d').
  { destruct (Rle_lt_dec d' 0) as [Hle|]; [|assumption]. exfalso.
    assert (d' * n <= 0) by nra. nra. }
  assert (H1 : K * (1 - 2 * u) <= d * (T + t)).
  { assert (A : d * s <= d * ((T + t) * (1 + u))) by (apply Rmult_le_compat_l; lra).
    assert (B : K * (1 - 2 * u) * (1 + u) <= K * (1 - u)).
    { replace (K * (1 - 2 * u) * (1 + u)) with (K * (1 - u) - K * (2 * (u * u))) by ring.
      assert (0 <= K * (2 * (u * u))) by (apply Rmult_le_pos; nra). lra. }
    apply Rmult_le_reg_r with (1 + u); [lra|]. lra. }
  assert (H2 : n <= (2 + (51 / 10) * u) * U - (1 + (41 / 10) * u) * d).
  { assert (A1 : q' <= (U - d) * ((1 + u) * (1 + u) * (1 + u))).
    { apply Rle_trans with (q * ((1 + u) * (1 + u))); [assumption|].
      replace ((U - d) * ((1 + u) * (1 + u) * (1 + u)))
        with ((U - d) * (1 + u) * ((1 + u) * (1 + u))) by ring.
      apply Rmult_le_compat_r; [nra|assumption]. }
    assert (A2 : (U + q') * (1 + u) <=
                 (1 + u) * U + (U - d) * ((1 + u) * (1 + u) * (1 + u) * (1 + u))).
    { replace ((1 + u) * U + (U - d) * ((1 + u) * (1 + u) * (1 + u) * (1 + u)))
        with ((U + (U - d) * ((1 + u) * (1 + u) * (1 + u))) * (1 + u)) by ring.
      apply Rmult_le_compat_r; lra. }
    assert (A3 : (1 + u) * (1 + u) * (1 + u) * (1 + u) <= 1 + (41 / 10) * u) by nra.
    assert (A4 : (U - d) * ((1 + u) * (1 + u) * (1 + u) * (1 + u)) <=
                 (U - d) * (1 + (41 / 10) * u)) by (apply Rmult_le_compat_l; lra).
    lra. }
  set (G := (1 + u) * T - t - E).
  destruct (Rle_lt_dec G 0) as [HG|HG].
  - unfold G in HG. assert (0 <= (1 + u) * d') by (apply Rmult_le_pos; lra). lra.
  - assert (HM : G * ((2 + (51 / 10) * u) * (1 + u) * (T + t)
                      - (1 + (41 / 10) * u) * (1 - 2 * u) * T)
                 <= (1 - u * u) * (T * (T + t))).
    { apply round_trip_poly; try assumption. split; assumption. }
    assert (HTt : 0 < T * (T + t)) by (apply Rmult_lt_0_compat; lra).
    assert (L1 : n * (T * (T + t)) <=
                 K * ((2 + (51 / 10) * u) * (1 + u) * (T + t)
                      - (1 + (41 / 10) * u) * (1 - 2 * u) * T)).
    { apply Rle_trans with
        (((2 + (51 / 10) * u) * U - (1 + (41 / 10) * u) * d) * (T * (T + t))).
      - apply Rmult_le_compat_r; lra.
      - replace (((2 + (51 / 10) * u) * U - (1 + (41 / 10) * u) * d) * (T * (T + t)))
          with ((2 + (51 / 10) * u) * (T + t) * (U * T)
                - (1 + (41 / 10) * u) * T * (d * (T + t))) by ring.
        assert (B1 : (2 + (51 / 10) * u) * (T + t) * (U * T) <=
                     (2 + (51 / 10) * u) * (T + t) * (K * (1 + u))).
        { apply Rmult_le_compat_l; [apply Rmult_le_pos; lra|assumption]. }
        assert (B2 : (1 + (41 / 10) * u) * T * (K * (1 - 2 * u)) <=
                     (1 + (41 / 10) * u) * T * (d * (T + t))).
        { apply Rmult_le_compat_l; [apply Rmult_le_pos; lra|assumption]. }
        lra. }
    assert (L2 : G * (n * (T * (T + t))) <= K * ((1 - u * u) * (T * (T + t)))).
    { apply Rle_trans with
        (G * (K * ((2 + (51 / 10) * u) * (1 + u) * (T + t)
                   - (1 + (41 / 10) * u) * (1 - 2 * u) * T))).
      - apply Rmult_le_compat_l; lra.
      - replace (G * (K * ((2 + (51 / 10) * u) * (1 + u) * (T + t)
                   - (1 + (41 / 10) * u) * (1 - 2 * u) * T)))
          with (K * (G * ((2 + (51 / 10) * u) * (1 + u) * (T + t)
                   - (1 + (41 / 10) * u) * (1 - 2 * u) * T))) by ring.
        apply Rmult_le_compat_l; lra. }
    assert (L3 : K * ((1 - u * u) * (T * (T + t))) <= (1 + u) * d' * (n * (T * (T + t)))).
    { replace (K * ((1 - u * u) * (T * (T + t))))
        with ((1 + u) * (T * (T + t)) * (K * (1 - u))) by ring.
      replace ((1 + u) * d' * (n * (T * (T + t))))
        with ((1 + u) * (T * (T + t)) * (d' * n)) by ring.
      apply Rmult_le_compat_l; [apply Rmult_le_pos; lra|assumption]. }
    assert (L4 : G <= (1 + u) * d').
    { apply Rmult_le_reg_r with (n * (T * (T + t))); [apply Rmult_lt_0_compat; lra|lra]. }
    unfold G in L4. lra.
Qed.

End RoundTripAlgebra.

(** * Selling and buying back *)

Lemma Rnd64_finite_below v r f :
  Rnd64 v r -> nonneg r = true -> wf f = true -> is_finite f = true ->
  (v <= SF2R f)%R -> is_finite r = true /\ (SF2R r <= SF2R f)%R.
Proof.
  intros H N Wf Ff Hle.
  pose proof (Rnd64_le_float v r f H Wf Ff Hle) as L.
  assert (F : is_finite r = true) by (eapply nonneg_Nleb_finite; eassumption).
  split; [assumption|].
  apply Nleb_SF2R; try assumption. eapply Rnd64_wf; eassumption.
Qed.

Lemma Rabs_bound a b c : (Rabs (a - b) <= c)%R -> (b - c <= a <= b + c)%R.
Proof.
  intros H. pose proof (Rle_abs (a - b)) as E1.
  pose proof (Rle_abs (- (a - b))) as E2. rewrite Rabs_Ropp in E2. lra.
Qed.

Lemma u64_bounds : (0 < u64 <= / 1000)%R.
Proof.
  unfold u64. split; [apply Rinv_0_lt_compat; lra|].
  apply Rinv_le_contravar; lra.
Qed.

(** The product of a positive Number and of the quotient of the invariant
    by it is the invariant up to one rounding. *)
Lemma Ndiv_K_product x :
  pos_finite x = true -> is_finite (Ndiv BONDING_CURVE_K x) = true ->
  (6438001146000 * (1 - u64) <= SF2R (Ndiv BONDING_CURVE_K x) * SF2R x
   <= 6438001146000 * (1 + u64))%R.
Proof.
  intros P F. pose proof (invariant_of_quotient x P F) as H.
  rewrite SF2R_BONDING_CURVE_K, bpow_m53 in H. apply Rabs_bound in H. lra.
Qed.

Lemma Nleb_between_finite x lo hi :
  is_finite lo = true -> is_finite hi = true ->
  Nleb lo x = true -> Nleb x hi = true -> is_finite x = true.
Proof.
  destruct x as [s|[]| |s m e]; try reflexivity; intros Flo Fhi L H.
  - destruct lo as [?|?| |[] ? ?]; try discriminate Flo; discriminate L.
  - destruct hi as [?|?| |[] ? ?]; try discriminate Fhi; discriminate H.
  - destruct lo as [?|?| |[] ? ?]; try discriminate Flo; discriminate L.
Qed.


Lemma Rnd64_finite_between v r lo hi :
  Rnd64 v r -> wf lo = true -> is_finite lo = true -> wf hi = true -> is_finite hi = true ->
  (SF2R lo <= v <= SF2R hi)%R ->
  is_finite r = true /\ (SF2R lo <= SF2R r <= SF2R hi)%R.
Proof.
  intros H Wlo Flo Whi Fhi [Hlo Hhi].
  pose proof (Rnd64_ge_float v r lo H Wlo Flo Hlo) as L1.
  pose proof (Rnd64_le_float v r hi H Whi Fhi Hhi) as L2.
  pose proof (Nleb_between_finite r lo hi Flo Fhi L1 L2) as F.
  pose proof (Rnd64_wf _ _ H) as W.
  split; [assumption|]. split; apply Nleb_SF2R; assumption.
Qed.

Lemma Rnd64_error_neg v r :
  Rnd64 v r -> is_finite r = true -> (v <= - bpow (- (1022)))%R ->
  (v * (1 + u64) <= SF2R r <= v * (1 - u64))%R.
Proof.
  intros H F Hv. pose proof (bpow_gt_0 (- (1022))) as Hb.
  pose proof (Rnd_rel_error prec64 emax64 v r H F) as E.
  rewrite (Rabs_left v) in E by lra.
  change (emin prec64 emax64 + prec64 - 1) with (- (1022)) in E.
  specialize (E ltac:(lra)). change (- prec64) with (- (53)) in E. rewrite bpow_m53 in E.
  apply Rabs_bound in E. lra.
Qed.

(** A Number that is not zero is at least [2^-1074] away from it. *)
Lemma finite_nonzero_ge x :
  wf x = true -> is_finite x = true -> SF2R x <> 0%R ->
  (bpow (- (1074)) <= Rabs (SF2R x))%R.
Proof.
  intros W F H.
  destruct (valid_pack prec64 emax64 prec64_gt_0 x W F) as (s & m & e & -> & Hc & E & _).
  rewrite E in *. destruct Hc as [->|((Hm0 & Hm) & He & _)].
  - exfalso. apply H. unfold sval.
    replace (cond_Zopp s 0) with 0 by (destruct s; reflexivity). ring.
  - change (emin prec64 emax64) with (- (1074)) in He.
    pose proof (bpow_le _ _ He) as Hle. pose proof (bpow_gt_0 (- (1074))) as Hb.
    assert (H1 : (1 <= IZR m)%R) by (apply IZR_le; lia).
    assert (Hv : (bpow (- (1074)) <= IZR m * bpow e)%R) by nra.
    destruct s.
    + rewrite sval_true, Rabs_Ropp, Rabs_pos_eq by lra. exact Hv.
    + rewrite sval_false, Rabs_pos_eq by lra. exact Hv.
Qed.

(** A non-positive integer above [-2^53] is a Number. *)
Lemma lit_exact_neg z :
  - 2 ^ 53 < z <= 0 ->
  wf (lit z) = true /\ is_finite (lit z) = true /\ SF2R (lit z) = IZR z.
Proof.
  intros Hz.
  assert (H : Rnd64 (IZR z) (lit z)).
  { pose proof (binary_normalize_spec prec64 emax64 prec64_gt_0 z 0 false) as H.
    rewrite bpow_0, Rmult_1_r in H. exact H. }
  assert (W : wf (lit z) = true) by (eapply Rnd64_wf; eassumption).
  set (lo := S754_finite true 4503599627370496 1).
  assert (Elo : SF2R lo = (-9007199254740992)%R).
  { unfold lo. simpl. unfold F2R. simpl cond_Zopp. rewrite bpow_1. lra. }
  assert (B : (SF2R lo <= IZR z <= SF2R zero)%R).
  { rewrite Elo. simpl SF2R. change (2 ^ 53) with 9007199254740992 in Hz.
    split; apply IZR_le; lia. }
  destruct (Rnd64_finite_between _ _ lo zero H eq_refl eq_refl eq_refl eq_refl B) as [F _].
  split; [assumption|]. split; [assumption|].
  apply Rnd64_exact; try assumption.
  exists z, 0. split; [discriminate|]. split; [change prec64 with 53; lia|].
  rewrite bpow_0. ring.
Qed.

(** [BigInt(Math.floor(x))] of a Number that is not positive is an
    integer that is not positive either, less than one below it. *)
Lemma floor_wei_neg x :
  wf x = true -> is_finite x = true -> (SF2R x <= 0)%R ->
  exists wei, BigInt_of_Number (Math_floor x) = Normal wei /\ wei <= 0 /\
              (SF2R x - 1 <= IZR wei)%R.
Proof.
  intros W F H. destruct x as [s|?| |s m e]; try discriminate.
  - exists 0. split; [reflexivity|]. split; [lia|]. simpl. lra.
  - assert (Hs : s = true).
    { destruct s; [reflexivity|exfalso]. simpl in H. unfold F2R in H. simpl cond_Zopp in H.
      pose proof (bpow_gt_0 e). assert (0 < IZR (Zpos m))%R by (apply IZR_lt; lia). nra. }
    subst s.
    assert (Hval : SF2R (S754_finite true m e) = (- (IZR (Zpos m) * bpow e))%R).
    { simpl. unfold F2R. cbv [cond_Zopp]. rewrite opp_IZR. ring. }
    rewrite Hval. clear H.
    unfold Math_floor. destruct (Z.leb_spec 0 e) as [He|He].
    + exists (- (Zpos m * 2 ^ e)). split.
      * unfold BigInt_of_Number. destruct (Z.leb_spec 0 e); [reflexivity|lia].
      * split; [lia|]. rewrite opp_IZR, mult_IZR, <- bpow_IZR by lia. lra.
    + assert (Hp : 0 < 2 ^ (- e)) by (apply Z.pow_pos_nonneg; lia).
      rewrite Z.shiftr_div_pow2, Z.shiftl_mul_pow2 by lia.
      set (q := Zpos m / 2 ^ (- e)).
      assert (Hq0 : 0 <= q) by (apply Z.div_pos; lia).
      assert (Hqm : q * 2 ^ (- e) <= Zpos m < (q + 1) * 2 ^ (- e)).
      { unfold q. pose proof (Z.mul_div_le (Zpos m) (2 ^ (- e)) Hp).
        pose proof (Z.mul_succ_div_gt (Zpos m) (2 ^ (- e)) Hp). lia. }
      assert (Hm : Zpos m < 2 ^ 53).
      { destruct (valid_pack prec64 emax64 prec64_gt_0 _ W F)
          as (s & m' & e' & E & Hc & _).
        destruct Hc as [->|((? & Hm') & _)]; [discriminate E|].
        unfold pack in E. destruct m' as [|p|p]; try discriminate E; try lia.
        destruct (e' <=? emax64 - prec64); [|discriminate E].
        injection E as _ -> _. exact Hm'. }
      assert (H2 : 2 <= 2 ^ (- e)).
      { change 2 with (2 ^ 1) at 1. apply Z.pow_le_mono_r; lia. }
      assert (Hq : q + 1 < 2 ^ 53) by nia.
      assert (Hlow : (IZR q <= IZR (Zpos m) * bpow e < IZR q + 1)%R).
      { destruct Hqm as [Ha Hb]. apply IZR_le in Ha. apply IZR_lt in Hb.
        rewrite mult_IZR, <- bpow_IZR in Ha, Hb by lia. rewrite plus_IZR in Hb.
        pose proof (bpow_gt_0 e) as Hbe.
        assert (Hinv : (bpow (- e) * bpow e = 1)%R).
        { rewrite <- bpow_plus. replace (- e + e) with 0 by lia. apply bpow_0. }
        split.
        - apply Rmult_le_reg_r with (bpow (- e)); [apply bpow_gt_0|].
          rewrite (Rmult_assoc (IZR (Zpos m))), (Rmult_comm (bpow e)), Hinv. lra.
        - apply Rmult_lt_reg_r with (bpow (- e)); [apply bpow_gt_0|].
          rewrite (Rmult_assoc (IZR (Zpos m))), (Rmult_comm (bpow e)), Hinv. lra. }
      destruct (Z.eqb_spec (q * 2 ^ (- e)) (Zpos m)) as [Heq|Hneq].
      * destruct (lit_exact_neg (- q) ltac:(lia)) as (Wq & Fq & Eq).
        exists (- q). split; [apply BigInt_of_Number_integral; assumption|].
        split; [lia|]. rewrite opp_IZR. lra.
      * destruct (lit_exact_neg (- (q + 1)) ltac:(lia)) as (Wq & Fq & Eq).
        exists (- (q + 1)). split; [apply BigInt_of_Number_integral; assumption|].
        split; [lia|]. rewrite opp_IZR, plus_IZR. lra.
Qed.

Lemma Nsub_inf x : is_finite x = true -> Nsub x (S754_infinity false) = S754_infinity true.
Proof. destruct x as [?|?| |? ? ?]; try discriminate; reflexivity. Qed.

Section RoundTripFacts.

(** A token state with a raised total between 0 and 10^30 USDT. *)
Variable w : Z.
Hypothesis raised_nonneg : 0 <= w.
Hypothesis raised_bound : w <= 10 ^ 48.

Lemma reserve_bounded :
  is_finite (virtualUsdtNatural (reservesAt (Number_formatUnits w 18))) = true /\
  (SF2R (virtualUsdtNatural (reservesAt (Number_formatUnits w 18)))
   <= 2535301200456458802993406410752)%R.
Proof.
  cbn [reservesAt virtualUsdtNatural].
  set (fr := Number_formatUnits w 18).
  pose proof (Number_formatUnits_spec w) as Rr. fold fr in Rr.
  destruct (Number_formatUnits_nonneg w raised_nonneg) as [Nr Wr]. fold fr in Nr, Wr.
  set (f100 := S754_finite false 4503599627370496 48).
  assert (E100 : SF2R f100 = 1267650600228229401496703205376%R).
  { unfold f100. float_value. rewrite <- mult_IZR. reflexivity. }
  assert (Hw : (IZR w / 1000000000000000000 <= SF2R f100)%R).
  { rewrite E100. apply IZR_le in raised_bound.
    change (10 ^ 48) with 1000000000000000000000000000000000000000000000000 in raised_bound.
    lra. }
  destruct (Rnd64_finite_below _ _ f100 Rr Nr eq_refl eq_refl Hw) as [Fr Lr].
  assert (PV : pos_finite VIRTUAL_USDT_RESERVE = true)
    by (rewrite VIRTUAL_USDT_RESERVE_eq; reflexivity).
  destruct (pos_finite_inv _ PV) as (WV & FV & _ & _).
  destruct (Nadd_pos _ _ PV Wr Nr) as (PE & _).
  destruct (pos_ext_inv _ PE) as (_ & NU & _).
  pose proof (Nadd_spec _ _ WV Wr FV Fr) as RU.
  rewrite SF2R_VIRTUAL_USDT_RESERVE in RU.
  set (f101 := S754_finite false 4503599627370496 49).
  assert (E101 : SF2R f101 = 2535301200456458802993406410752%R).
  { unfold f101. float_value. rewrite <- mult_IZR. reflexivity. }
  rewrite <- E101.
  apply (Rnd64_finite_below _ _ f101 RU NU eq_refl eq_refl).
  rewrite E101. lra.
Qed.


(** Selling [t] tokens for a positive quote and buying back with the
    whole wei of that quote is quoted less than [t + 0.000001] tokens. *)
Lemma round_trip_bound t :
  pos_finite t = true ->
  Nltb zero
    (Nsub (virtualUsdtNatural (reservesAt (Number_formatUnits w 18)))
       (Ndiv BONDING_CURVE_K
          (Nadd (virtualTokensNatural (reservesAt (Number_formatUnits w 18))) t))) = true ->
  exists wei,
    BigInt_of_Number
      (Math_floor
         (Nmul (Nsub (virtualUsdtNatural (reservesAt (Number_formatUnits w 18)))
                  (Ndiv BONDING_CURVE_K
                     (Nadd (virtualTokensNatural (reservesAt (Number_formatUnits w 18))) t)))
               (lit (10 ^ 18)))) = Normal wei /\
    0 <= wei /\
    is_finite
      (Nsub (virtualTokensNatural (reservesAt (Number_formatUnits w 18)))
         (Ndiv BONDING_CURVE_K
            (Nadd (virtualUsdtNatural (reservesAt (Number_formatUnits w 18)))
                  (Number_formatUnits wei 18)))) = true /\
    (SF2R (Nsub (virtualTokensNatural (reservesAt (Number_formatUnits w 18)))
             (Ndiv BONDING_CURVE_K
                (Nadd (virtualUsdtNatural (reservesAt (Number_formatUnits w 18)))
                      (Number_formatUnits wei 18))))
     <= SF2R t + / 1000000)%R.
Proof.
  intros Pt Hq.
  destruct reserve_bounded as [FU HU101].
  destruct (state_facts w raised_nonneg FU) as (PU & PT & HU6 & HT9).
  pose proof (buy_bounds w raised_nonneg FU) as Hbuy.
  set (U := virtualUsdtNatural (reservesAt (Number_formatUnits w 18))) in *.
  set (T := virtualTokensNatural (reservesAt (Number_formatUnits w 18))) in *.
  assert (ET : Ndiv BONDING_CURVE_K U = T) by reflexivity.
  clearbody U T.
  destruct (pos_finite_inv _ PU) as (WU & _ & NU & HU0).
  destruct (pos_finite_inv _ PT) as (WT & FT & NT & HT0).
  destruct (pos_finite_inv _ Pt) as (Wt & Ft & Nt & Ht0).
  pose proof u64_bounds as Hu.
  (* the sale *)
  destruct (Nadd_pos T t PT Wt Nt) as (Ps & Ls & _).
  set (s := Nadd T t) in *.
  destruct (Ndiv_K_nonneg s Ps) as [Nd Wd].
  set (d := Ndiv BONDING_CURVE_K s) in *.
  assert (Fd : is_finite d = true).
  { destruct (nonneg_cases d Nd) as [F|E]; [assumption|exfalso].
    rewrite E, (Nsub_inf U FU) in Hq. discriminate Hq. }
  pose proof (Nsub_spec U d WU Wd FU Fd) as Rq.
  pose proof (Nsub_le U d WU FU Wd Nd) as Lq.
  set (q := Nsub U d) in *.
  pose proof (Rnd64_wf _ _ Rq) as Wq.
  pose proof (Nltb_zero_pos_ext q Wq Hq) as Eq.
  destruct (pos_ext_inv q Eq) as (_ & Nq & Hfq).
  pose proof (nonneg_Nleb_finite q U Nq FU Lq) as Fq.
  pose proof (Hfq Fq) as Pq.
  destruct (pos_finite_inv _ Pq) as (_ & _ & _ & Hq0).
  pose proof (pos_finite_ge q Pq) as Hqmin.
  pose proof (proj1 (Nleb_SF2R q U Wq WU Fq FU) Lq) as HqU.
  (* the conversion to wei *)
  set (e18 := lit (10 ^ 18)).
  assert (E18 : SF2R e18 = 1000000000000000000%R).
  { unfold e18. change (lit (10 ^ 18)) with (S754_finite false 7812500000000000 7).
    float_value. lra. }
  assert (RP : Rnd64 (SF2R q * SF2R e18) (Nmul q e18)) by (apply Nmul_spec; auto).
  rewrite E18 in RP.
  set (P := Nmul q e18) in *.
  assert (NP : nonneg P = true) by (eapply Rnd64_nonneg; [eassumption|lra]).
  set (f161 := S754_finite false 4503599627370496 109).
  assert (E161 : SF2R f161 = 2923003274661805836407369665432566039311865085952%R).
  { unfold f161. float_value. rewrite <- mult_IZR. reflexivity. }
  assert (HP161 : (SF2R q * 1000000000000000000 <= SF2R f161)%R) by (rewrite E161; lra).
  destruct (Rnd64_finite_below _ _ f161 RP NP eq_refl eq_refl HP161) as [FP LP].
  rewrite E161 in LP.
  pose proof (Rnd64_wf _ _ RP) as WP.
  assert (EP : (SF2R P <= SF2R q * 1000000000000000000 * (1 + u64))%R).
  { apply Rnd64_error; [assumption|assumption|].
    replace (- (1022)) with (- (1074) + 52) by lia.
    rewrite bpow_plus, (bpow_IZR 52) by lia.
    change (2 ^ 52) with 4503599627370496.
    pose proof (bpow_gt_0 (- (1074))). nra. }
  pose proof (nonneg_finite_SF2R P NP) as HP0.
  destruct (floor_wei P WP NP FP) as (wei & Hwei & Hwei0 & HweiP).
  exists wei. split; [exact Hwei|]. split; [assumption|].
  (* the purchase *)
  pose proof (Number_formatUnits_spec wei) as Rq'.
  destruct (Number_formatUnits_nonneg wei Hwei0) as [Nq' Wq'].
  destruct (Hbuy wei Hwei0) as [Lb0 LbT]. clear Hbuy.
  set (q' := Number_formatUnits wei 18) in *.
  destruct (Nadd_pos U q' PU Wq' Nq') as (Pn & Ln & _).
  set (n := Nadd U q') in *.
  destruct (Ndiv_K_nonneg n Pn) as [Nd' Wd'].
  pose proof (Ndiv_K_antitone U n (pos_finite_ext _ PU) Pn Ln) as Ld'.
  rewrite ET in Ld'.
  set (d' := Ndiv BONDING_CURVE_K n) in *.
  pose proof (nonneg_Nleb_finite d' T Nd' FT Ld') as Fd'.
  pose proof (Nsub_spec T d' WT Wd' FT Fd') as Rb.
  set (b := Nsub T d') in *.
  assert (Fb : is_finite b = true)
    by (apply (Nleb_between_finite b zero T eq_refl FT Lb0 LbT)).
  split; [exact Fb|].
  pose proof (Rnd64_wf _ _ Rb) as Wb.
  pose proof (proj1 (Nleb_SF2R b T Wb WT Fb FT) LbT) as HbT.
  destruct (Rle_lt_dec (SF2R T) (SF2R t)) as [Hbig|Hsmall].
  { assert (0 < / 1000000)%R by (apply Rinv_0_lt_compat; lra). lra. }
  (* the sum of the reserve and the amount sold *)
  pose proof (Nadd_spec T t WT Wt FT Ft) as Rs. fold s in Rs.
  destruct (pos_ext_inv s Ps) as (Ws & Ns & Hfs).
  set (f32 := S754_finite false 4503599627370496 (-20)).
  assert (E32 : SF2R f32 = 4294967296%R).
  { unfold f32. float_value. lra. }
  assert (Hs32 : (SF2R T + SF2R t <= SF2R f32)%R) by (rewrite E32; lra).
  destruct (Rnd64_finite_below _ _ f32 Rs Ns eq_refl eq_refl Hs32) as [Fs _].
  pose proof (Hfs Fs) as Ps'.
  destruct (pos_finite_inv _ Ps') as (_ & _ & _ & Hs0).
  pose proof (Nadd_error T t WT Wt FT Ft Fs) as Es. fold s in Es.
  apply Rabs_bound in Es. rewrite (Rabs_pos_eq (SF2R T + SF2R t)) in Es by lra.
  destruct (Ndiv_K_product s Ps' Fd) as [Hds _]. fold d in Hds.
  (* the sale quote *)
  pose proof (Nsub_error U d WU Wd FU Fd Fq) as Eq0. fold q in Eq0.
  apply Rabs_bound in Eq0.
  assert (HqX : (SF2R q <= (SF2R U - SF2R d) * (1 + u64))%R).
  { destruct (Rle_lt_dec 0 (SF2R U - SF2R d)) as [Hp|Hn].
    - rewrite Rabs_pos_eq in Eq0 by assumption. lra.
    - rewrite Rabs_left in Eq0 by assumption. exfalso. nra. }
  (* the amount spent *)
  assert (Hq' : is_finite q' = true /\
                (0 <= SF2R q' <= SF2R q * ((1 + u64) * (1 + u64)))%R).
  { destruct (Z.eq_dec wei 0) as [E0|Hne].
    - unfold q'. rewrite E0. change (Number_formatUnits 0 18) with zero.
      split; [reflexivity|]. simpl SF2R. split; [lra|].
      apply Rmult_le_pos; [lra|]. apply Rmult_le_pos; lra.
    - assert (H1 : (1 <= IZR wei)%R) by (apply IZR_le; lia).
      assert (Hv : (IZR wei / 1000000000000000000 <= SF2R f161)%R).
      { rewrite E161. lra. }
      destruct (Rnd64_finite_below _ _ f161 Rq' Nq' eq_refl eq_refl Hv) as [Fq' _].
      split; [assumption|]. split; [apply nonneg_finite_SF2R; assumption|].
      assert (Hn : (bpow (- (1022)) <= IZR wei / 1000000000000000000)%R).
      { apply Rle_trans with (bpow (- (60))); [apply bpow_le; lia|].
        rewrite bpow_opp, bpow_IZR by lia. change (2 ^ 60) with 1152921504606846976.
        apply Rle_trans with (/ 1000000000000000000)%R;
          [apply Rinv_le_contravar; lra|lra]. }
      destruct (Rnd64_error _ _ Rq' Fq' Hn) as [_ Hup].
      apply Rle_trans with (IZR wei / 1000000000000000000 * (1 + u64))%R; [assumption|].
      replace (SF2R q * ((1 + u64) * (1 + u64)))%R
        with (SF2R q * (1 + u64) * (1 + u64))%R by ring.
      apply Rmult_le_compat_r; lra. }
  destruct Hq' as [Fq' [Hq'0 Hq'1]].
  (* the reserve after the purchase *)
  pose proof (Nadd_spec U q' WU Wq' FU Fq') as Rn. fold n in Rn.
  destruct (pos_ext_inv n Pn) as (Wn & Nn & Hfn).
  set (f104 := S754_finite false 4503599627370496 52).
  assert (E104 : SF2R f104 = 20282409603651670423947251286016%R).
  { unfold f104. float_value. rewrite <- mult_IZR. reflexivity. }
  assert (Hn104 : (SF2R U + SF2R q' <= SF2R f104)%R).
  { rewrite E104.
    assert (SF2R q * ((1 + u64) * (1 + u64)) <= SF2R q * 2)%R
      by (apply Rmult_le_compat_l; [lra|nra]).
    lra. }
  destruct (Rnd64_finite_below _ _ f104 Rn Nn eq_refl eq_refl Hn104) as [Fn _].
  pose proof (Hfn Fn) as Pn'.
  destruct (pos_finite_inv _ Pn') as (_ & _ & _ & Hn0).
  pose proof (Nadd_error U q' WU Wq' FU Fq' Fn) as En. fold n in En.
  apply Rabs_bound in En. rewrite (Rabs_pos_eq (SF2R U + SF2R q')) in En by lra.
  destruct (Ndiv_K_product n Pn' Fd') as [Hd'n _]. fold d' in Hd'n.
  assert (FT' : is_finite (Ndiv BONDING_CURVE_K U) = true) by (rewrite ET; exact FT).
  destruct (Ndiv_K_product U PU FT') as [_ HUT]. rewrite ET in HUT.
  (* the purchase quote *)
  pose proof (Nsub_error T d' WT Wd' FT Fd' Fb) as Eb. fold b in Eb.
  apply Rabs_bound in Eb.
  assert (Halg : ((SF2R T - SF2R d') * (1 + u64) <= SF2R t + / 1000000)%R).
  { refine (round_trip_algebra u64 6438001146000 (SF2R U) (SF2R T) (SF2R t) (SF2R s)
              (SF2R d) (SF2R q) (SF2R q') (SF2R n) (SF2R d') (/ 1000000)
              Hu _ HT0 Ht0 _ _ Hds (conj Hq0 HqX) Hq'1 _ Hd'n _).
    - lra.
    - rewrite Rmult_comm. exact HUT.
    - split; [exact Hs0|]. clear - Es. lra.
    - split; [exact Hn0|]. clear - En. lra.
    - clear - HT9 HT0. unfold u64. lra. }
  destruct (Rle_lt_dec 0 (SF2R T - SF2R d')) as [Hp|Hn].
  - rewrite Rabs_pos_eq in Eb by assumption. clear - Eb Halg. lra.
  - rewrite Rabs_left in Eb by assumption.
    assert (H6 : (0 < / 1000000)%R) by (apply Rinv_0_lt_compat; lra).
    clear - Eb Hn Hu H6 Ht0. nra.
Qed.


(** When the sale is quoted nothing, or less, so is buying back. *)
Lemma round_trip_nonpositive t :
  pos_finite t = true ->
  Nltb zero
    (Nsub (virtualUsdtNatural (reservesAt (Number_formatUnits w 18)))
       (Ndiv BONDING_CURVE_K
          (Nadd (virtualTokensNatural (reservesAt (Number_formatUnits w 18))) t))) = false ->
  exists wei,
    BigInt_of_Number
      (Math_floor
         (Nmul (Nsub (virtualUsdtNatural (reservesAt (Number_formatUnits w 18)))
                  (Ndiv BONDING_CURVE_K
                     (Nadd (virtualTokensNatural (reservesAt (Number_formatUnits w 18))) t)))
               (lit (10 ^ 18)))) = Normal wei /\
    is_finite
      (Nsub (virtualTokensNatural (reservesAt (Number_formatUnits w 18)))
         (Ndiv BONDING_CURVE_K
            (Nadd (virtualUsdtNatural (reservesAt (Number_formatUnits w 18)))
                  (Number_formatUnits wei 18)))) = true /\
    (SF2R (Nsub (virtualTokensNatural (reservesAt (Number_formatUnits w 18)))
             (Ndiv BONDING_CURVE_K
                (Nadd (virtualUsdtNatural (reservesAt (Number_formatUnits w 18)))
                      (Number_formatUnits wei 18))))
     <= 0)%R.
Proof.
  intros Pt Hq.
  destruct reserve_bounded as [FU HU101].
  destruct (state_facts w raised_nonneg FU) as (PU & PT & HU6 & HT9).
  set (U := virtualUsdtNatural (reservesAt (Number_formatUnits w 18))) in *.
  set (T := virtualTokensNatural (reservesAt (Number_formatUnits w 18))) in *.
  assert (ET : Ndiv BONDING_CURVE_K U = T) by reflexivity.
  clearbody U T.
  destruct (pos_finite_inv _ PU) as (WU & _ & NU & HU0).
  destruct (pos_finite_inv _ PT) as (WT & FT & NT & HT0).
  destruct (pos_finite_inv _ Pt) as (Wt & Ft & Nt & Ht0).
  pose proof u64_bounds as Hu.
  assert (FT' : is_finite (Ndiv BONDING_CURVE_K U) = true) by (rewrite ET; exact FT).
  destruct (Ndiv_K_product U PU FT') as [HTU _]. rewrite ET in HTU.
  set (f101 := S754_finite false 4503599627370496 49).
  assert (E101 : SF2R f101 = 2535301200456458802993406410752%R).
  { unfold f101. float_value. rewrite <- mult_IZR. reflexivity. }
  set (g101 := S754_finite true 4503599627370496 49).
  assert (G101 : SF2R g101 = (- 2535301200456458802993406410752)%R).
  { unfold g101. float_value. rewrite <- mult_IZR. reflexivity. }
  set (f161 := S754_finite false 4503599627370496 109).
  set (g161 := S754_finite true 4503599627370496 109).
  assert (G161 : SF2R g161 = (- 2923003274661805836407369665432566039311865085952)%R).
  { unfold g161. float_value. rewrite <- mult_IZR. reflexivity. }
  set (f32 := S754_finite false 4503599627370496 (-20)).
  assert (E32 : SF2R f32 = 4294967296%R).
  { unfold f32. float_value. lra. }
  set (g32 := S754_finite true 4503599627370496 (-20)).
  assert (G32 : SF2R g32 = (- 4294967296)%R).
  { unfold g32. float_value. rewrite opp_IZR. lra. }
  (* the quotient of the invariant by the token reserve *)
  destruct (Ndiv_K_nonneg T (pos_finite_ext _ PT)) as [NdT WdT].
  pose proof (Ndiv_K_spec T PT) as RdT. rewrite SF2R_BONDING_CURVE_K in RdT.
  assert (HKT : (6438001146000 / SF2R T <= SF2R U * (1 + 2 * u64))%R).
  { apply Rmult_le_reg_r with (SF2R T); [assumption|].
    unfold Rdiv. rewrite Rmult_assoc, Rinv_l, Rmult_1_r by lra.
    clear - HTU Hu HU0 HT0.
    assert (0 <= SF2R T * SF2R U * (u64 - 2 * (u64 * u64)))%R
      by (apply Rmult_le_pos; [apply Rmult_le_pos; lra|nra]).
    nra. }
  set (dT := Ndiv BONDING_CURVE_K T) in *.
  assert (HdT101 : (6438001146000 / SF2R T <= SF2R f101 * 2)%R).
  { rewrite E101. clear - HKT HU101 HU0 Hu. nra. }
  set (f102 := S754_finite false 4503599627370496 50).
  assert (E102 : SF2R f102 = (SF2R f101 * 2)%R).
  { rewrite E101. unfold f102. float_value. rewrite <- !mult_IZR. reflexivity. }
  rewrite <- E102 in HdT101.
  destruct (Rnd64_finite_below _ _ f102 RdT NdT eq_refl eq_refl HdT101) as [FdT _].
  assert (HdTn : (bpow (- (1022)) <= 6438001146000 / SF2R T)%R).
  { apply Rle_trans with 1%R.
    - rewrite <- bpow_0. apply bpow_le. lia.
    - apply Rmult_le_reg_r with (SF2R T); [assumption|].
      unfold Rdiv. rewrite Rmult_assoc, Rinv_l, Rmult_1_r by lra. lra. }
  destruct (Rnd64_error _ _ RdT FdT HdTn) as [_ HdTup].
  (* the sale *)
  destruct (Nadd_pos T t PT Wt Nt) as (Ps & Ls & _).
  set (s := Nadd T t) in *.
  destruct (Ndiv_K_nonneg s Ps) as [Nd Wd].
  pose proof (Ndiv_K_antitone T s (pos_finite_ext _ PT) Ps Ls) as LdT. fold dT in LdT.
  set (d := Ndiv BONDING_CURVE_K s) in *.
  pose proof (nonneg_Nleb_finite d dT Nd FdT LdT) as Fd.
  pose proof (proj1 (Nleb_SF2R d dT Wd WdT Fd FdT) LdT) as HddT.
  pose proof (nonneg_finite_SF2R d Nd) as Hd0.
  assert (HdU : (SF2R d <= SF2R U * (1 + 4 * u64))%R).
  { clear - HddT HdTup HKT Hu HU0.
    assert (6438001146000 / SF2R T * (1 + u64) <= SF2R U * (1 + 2 * u64) * (1 + u64))%R
      by (apply Rmult_le_compat_r; lra).
    assert (0 <= SF2R U * (u64 - 2 * (u64 * u64)))%R
      by (apply Rmult_le_pos; [lra|nra]).
    lra. }
  pose proof (Nsub_spec U d WU Wd FU Fd) as Rq.
  set (q := Nsub U d) in *.
  pose proof (Rnd64_wf _ _ Rq) as Wq.
  assert (Bq : (SF2R g101 <= SF2R U - SF2R d <= SF2R f101)%R).
  { rewrite G101, E101. clear - HdU Hd0 HU101 HU0 Hu. nra. }
  destruct (Rnd64_finite_between _ _ g101 f101 Rq eq_refl eq_refl eq_refl eq_refl Bq)
    as [Fq _].
  assert (Hq0 : (SF2R q <= 0)%R).
  { destruct (Rle_lt_dec (SF2R q) 0) as [|Hpos]; [assumption|exfalso].
    apply (Nltb_SF2R zero q eq_refl Wq eq_refl Fq) in Hpos.
    rewrite Hq in Hpos. discriminate Hpos. }
  pose proof (Nsub_error U d WU Wd FU Fd Fq) as Eq0. fold q in Eq0.
  apply Rabs_bound in Eq0.
  assert (Hqlow : (- (5 * u64 * SF2R U) <= SF2R q)%R).
  { destruct (Rle_lt_dec 0 (SF2R U - SF2R d)) as [Hp|Hn].
    - rewrite Rabs_pos_eq in Eq0 by assumption. clear - Eq0 Hp Hu HU0. nra.
    - rewrite Rabs_left in Eq0 by assumption. clear - Eq0 Hn Hu HU0 HdU. nra. }
  (* the conversion to wei *)
  set (e18 := lit (10 ^ 18)).
  assert (E18 : SF2R e18 = 1000000000000000000%R).
  { unfold e18. change (lit (10 ^ 18)) with (S754_finite false 7812500000000000 7).
    float_value. lra. }
  assert (RP : Rnd64 (SF2R q * SF2R e18) (Nmul q e18)) by (apply Nmul_spec; auto).
  rewrite E18 in RP.
  set (P := Nmul q e18) in *.
  assert (BP : (SF2R g161 <= SF2R q * 1000000000000000000 <= SF2R zero)%R).
  { rewrite G161. simpl SF2R. clear - Hqlow Hq0 HU101 HU0 Hu. nra. }
  destruct (Rnd64_finite_between _ _ g161 zero RP eq_refl eq_refl eq_refl eq_refl BP)
    as [FP [HPlo HP0]].
  rewrite G161 in HPlo. simpl SF2R in HP0.
  pose proof (Rnd64_wf _ _ RP) as WP.
  assert (HPlow : (SF2R q * 1000000000000000000 * (1 + u64) <= SF2R P)%R).
  { destruct (Req_dec (SF2R q) 0) as [Ez|Hnz].
    - rewrite Ez, Rmult_0_l in RP. rewrite Ez.
      rewrite (Rnd64_exact 0 P RP); [lra| |assumption].
      exists 0, 0. split; [discriminate|]. split; [reflexivity|]. ring.
    - pose proof (finite_nonzero_ge q Wq Fq Hnz) as Hmin.
      rewrite Rabs_left in Hmin by lra.
      apply Rnd64_error_neg; [assumption|assumption|].
      replace (- (1022)) with (- (1074) + 52) by lia.
      rewrite bpow_plus, (bpow_IZR 52) by lia.
      change (2 ^ 52) with 4503599627370496.
      pose proof (bpow_gt_0 (- (1074))). clear - Hmin H. nra. }
  destruct (floor_wei_neg P WP FP HP0) as (wei & Hwei & Hwei0 & HweiP).
  exists wei. split; [exact Hwei|].
  (* the amount spent *)
  pose proof (Number_formatUnits_spec wei) as Rq'.
  set (q' := Number_formatUnits wei 18) in *.
  pose proof (Rnd64_wf _ _ Rq') as Wq'.
  assert (Hw0 : (IZR wei <= 0)%R) by (apply IZR_le; assumption).
  assert (Bq' : (SF2R g161 <= IZR wei / 1000000000000000000 <= SF2R zero)%R).
  { rewrite G161. simpl SF2R. clear - Hw0 HweiP HPlo. lra. }
  destruct (Rnd64_finite_between _ _ g161 zero Rq' eq_refl eq_refl eq_refl eq_refl Bq')
    as [Fq' [_ Hq'0]].
  simpl SF2R in Hq'0.
  assert (Hq'low : (IZR wei / 1000000000000000000 * (1 + u64) <= SF2R q')%R).
  { destruct (Z.eq_dec wei 0) as [E0|Hne].
    - unfold q'. rewrite E0. change (Number_formatUnits 0 18) with zero. simpl SF2R. lra.
    - assert (H1 : (IZR wei <= -1)%R) by (apply IZR_le; lia).
      apply Rnd64_error_neg; [assumption|assumption|].
      apply Rle_trans with (- bpow (- (60)))%R.
      + clear - H1. rewrite bpow_opp, bpow_IZR by lia.
        change (2 ^ 60) with 1152921504606846976.
        assert (/ 1152921504606846976 <= / 1000000000000000000)%R
          by (apply Rinv_le_contravar; lra).
        lra.
      + apply Ropp_le_contravar. apply bpow_le. lia. }
  assert (Hq'U : (- (SF2R U / 2) <= SF2R q')%R).
  { clear - Hq'low HweiP HPlow Hqlow Hu HU6 Hq0.
    assert (A : (SF2R q * 1000000000000000000 * (1 + u64) - 1 <= IZR wei)%R) by lra.
    assert (B : ((SF2R q * 1000000000000000000 * (1 + u64) - 1) / 1000000000000000000
                 * (1 + u64) <= SF2R q')%R).
    { eapply Rle_trans; [|exact Hq'low]. apply Rmult_le_compat_r; lra. }
    assert (C : (- (6 * u64 * SF2R U) <= SF2R q * ((1 + u64) * (1 + u64)))%R).
    { assert (C1 : (0 <= (1 + u64) * (1 + u64) <= 6 / 5)%R) by nra.
      assert (C2 : (- (5 * u64 * SF2R U) * ((1 + u64) * (1 + u64))
                    <= SF2R q * ((1 + u64) * (1 + u64)))%R)
        by (apply Rmult_le_compat_r; lra).
      assert (C3 : (5 * u64 * SF2R U * ((1 + u64) * (1 + u64))
                    <= 5 * u64 * SF2R U * (6 / 5))%R).
      { apply Rmult_le_compat_l; [|lra].
        apply Rmult_le_pos; [lra|lra]. }
      lra. }
    assert (D : ((SF2R q * 1000000000000000000 * (1 + u64) - 1) / 1000000000000000000
                 * (1 + u64)
                 = SF2R q * ((1 + u64) * (1 + u64)) - (1 + u64) / 1000000000000000000)%R)
      by (field).
    rewrite D in B. nra. }
  (* the reserve after the purchase *)
  pose proof (Nadd_spec U q' WU Wq' FU Fq') as Rn.
  set (n := Nadd U q') in *.
  pose proof (Rnd64_wf _ _ Rn) as Wn.
  assert (Bn : (SF2R zero <= SF2R U + SF2R q' <= SF2R U)%R) by (simpl SF2R; lra).
  destruct (Rnd64_finite_between _ _ zero U Rn eq_refl eq_refl WU FU Bn) as [Fn [_ HnU]].
  assert (Hnn : (bpow (- (1022)) <= SF2R U + SF2R q')%R).
  { apply Rle_trans with 1%R; [|lra]. rewrite <- bpow_0. apply bpow_le. lia. }
  destruct (Rnd64_error _ _ Rn Fn Hnn) as [Hnlow _].
  assert (Hn0 : (0 < SF2R n)%R) by (clear - Hnlow Hq'U HU6 Hu; nra).
  pose proof (pos_finite_intro n Wn Fn Hn0) as Pn.
  pose proof (proj2 (Nleb_SF2R n U Wn WU Fn FU) HnU) as Ln.
  pose proof (Ndiv_K_antitone n U (pos_finite_ext _ Pn) (pos_finite_ext _ PU) Ln) as LTd'.
  rewrite ET in LTd'.
  destruct (Ndiv_K_nonneg n (pos_finite_ext _ Pn)) as [Nd' Wd'].
  pose proof (Ndiv_K_spec n Pn) as Rd'. rewrite SF2R_BONDING_CURVE_K in Rd'.
  set (d' := Ndiv BONDING_CURVE_K n) in *.
  assert (Hd'32 : (6438001146000 / SF2R n <= SF2R f32)%R).
  { rewrite E32. apply Rmult_le_reg_r with (SF2R n); [assumption|].
    unfold Rdiv. rewrite Rmult_assoc, Rinv_l, Rmult_1_r by lra.
    clear - Hnlow Hq'U HU6 Hu HTU HT9 HT0 HU0.
    assert (SF2R T * SF2R U <= 1073000191 * SF2R U)%R
      by (apply Rmult_le_compat_r; lra).
    nra. }
  destruct (Rnd64_finite_below _ _ f32 Rd' Nd' eq_refl eq_refl Hd'32) as [Fd' Hd'up].
  rewrite E32 in Hd'up.
  pose proof (nonneg_finite_SF2R d' Nd') as Hd'0.
  (* the purchase quote *)
  pose proof (Nsub_antitone T T d' WT FT WT Wd' NT Nd' LTd') as Lb.
  rewrite (Nsub_diag T PT) in Lb.
  pose proof (Nsub_spec T d' WT Wd' FT Fd') as Rb.
  set (b := Nsub T d') in *.
  pose proof (Rnd64_wf _ _ Rb) as Wb.
  assert (Bb : (SF2R g32 <= SF2R T - SF2R d' <= SF2R f32)%R)
    by (rewrite G32, E32; lra).
  destruct (Rnd64_finite_between _ _ g32 f32 Rb eq_refl eq_refl eq_refl eq_refl Bb)
    as [Fb _].
  split; [exact Fb|].
  apply (Nleb_SF2R b zero Wb eq_refl Fb eq_refl). exact Lb.
Qed.

End RoundTripFacts.

(** C7, amended: selling [tokenAmount] tokens and buying back with the
    whole wei of the quoted USDT, on the same token state, never throws
    and is quoted at most [tokenAmount + 0.000001] tokens: rounding can
    lift the amount bought back above the amount sold, by less than the
    last digit that the widget displays.  Without rounding the amount
    bought back is [virtualBase * t / (virtualBase + 2 t)], strictly less
    than the [t] tokens sold. *)
Theorem C7_round_trip_within_rounding
        (BigInt : string -> option Z) (token : option Token) (w : Z)
        (tokenAmount : number) :
  raisedWei BigInt token = Some w -> 0 <= w <= 10 ^ 48 ->
  pos_finite tokenAmount = true ->
  (exists tokens,
     roundTrip BigInt token tokenAmount = Normal tokens /\
     is_finite tokens = true /\
     (SF2R tokens <= SF2R tokenAmount + / 1000000)%R) /\
  (forall t : Q, (0 < t)%Q ->
     let r := (inject_Z w / inject_Z (10 ^ 18))%Q in
     (Exact.calculateTokensToReceive r (Exact.calculateUsdtToReceive r t) ==
        Exact.virtualTokens r * t / (Exact.virtualTokens r + 2 * t))%Q /\
     (Exact.calculateTokensToReceive r (Exact.calculateUsdtToReceive r t) < t)%Q).
Proof.
  intros Hw [Hw0 Hw1] Pt. split.
  - unfold roundTrip. rewrite (sell_eq BigInt token w Hw tokenAmount).
    cbn [bind].
    destruct (Nltb zero
                (Nsub (virtualUsdtNatural (reservesAt (Number_formatUnits w 18)))
                   (Ndiv BONDING_CURVE_K
                      (Nadd (virtualTokensNatural (reservesAt (Number_formatUnits w 18)))
                            tokenAmount)))) eqn:Hq.
    + destruct (round_trip_bound w Hw0 Hw1 tokenAmount Pt Hq) as (wei & Hwei & _ & Fb & Hb).
      rewrite Hwei. cbn [bind]. rewrite (buy_eq BigInt token w Hw wei).
      eexists. split; [reflexivity|]. split; assumption.
    + destruct (round_trip_nonpositive w Hw0 Hw1 tokenAmount Pt Hq) as (wei & Hwei & Fb & Hb).
      rewrite Hwei. cbn [bind]. rewrite (buy_eq BigInt token w Hw wei).
      eexists. split; [reflexivity|]. split; [assumption|].
      destruct (pos_finite_inv _ Pt) as (_ & _ & _ & Ht0).
      assert (0 < / 1000000)%R by (apply Rinv_0_lt_compat; lra). lra.
  - intros t Ht r.
    assert (Hr : (0 <= r)%Q).
    { unfold r. apply Qle_shift_div_l; [reflexivity|]. rewrite Qmult_0_l.
      change 0%Q with (inject_Z 0). rewrite <- Zle_Qle. assumption. }
    apply exact_round_trip_loses; assumption.
Qed.


(** * Concrete token states *)

Ltac evaluate :=
  vm_compute;
  first [ reflexivity | discriminate
        | split; first [ reflexivity | discriminate ] ].

(** C1: from a raised total of 0, 100 USDT are quoted 17590167.07 tokens,
    which is not within 100 tokens of 17590355. *)
Lemma C1_counterexample :
  exists tokens,
    calculateTokensToReceive BigInt_decimal (token_with "0") (100 * 10 ^ 18) = Normal tokens /\
    within 100 tokens 17590355 = false.
Proof. eexists. split; [vm_compute; reflexivity|]. vm_compute. reflexivity. Qed.

Lemma C1_witness :
  raisedWei BigInt_decimal (token_with "0") = Some 0 /\
  calculateTokensToReceive BigInt_decimal (token_with "0") (100 * 10 ^ 18) =
    Normal (S754_finite false 4721824517363488 (-28)).
Proof.
  split; [evaluate|].
  refine (proj1 (proj2 (proj2 (C1_buy_formula BigInt_decimal (token_with "0") 0
                                 (100 * 10 ^ 18) _) eq_refl eq_refl))).
  evaluate.
Defined.

Lemma C2_witness :
  raisedWei BigInt_decimal (token_with "1000000000000000000000") = Some (1000 * 10 ^ 18) /\
  calculateUsdtToReceive BigInt_decimal (token_with "1000000000000000000000") (lit 500000) =
    Normal (Nsub (Nadd (lit 6000) (Number_formatUnits (1000 * 10 ^ 18) 18))
              (Ndiv (Nmul (lit 6000) (lit 1073000191))
                 (Nadd (Ndiv (Nmul (lit 6000) (lit 1073000191))
                          (Nadd (lit 6000) (Number_formatUnits (1000 * 10 ^ 18) 18)))
                       (lit 500000)))).
Proof.
  split; [evaluate|].
  refine (C2_sell_formula BigInt_decimal (token_with "1000000000000000000000")
            (1000 * 10 ^ 18) (lit 500000) _).
  evaluate.
Defined.

(** C3: the sale quote of NaN is NaN, and the sale quote of -1 is a
    negative Number. *)
Lemma C3_counterexample :
  calculateUsdtToReceive BigInt_decimal (token_with "0") S754_nan = Normal S754_nan /\
  exists usdt,
    calculateUsdtToReceive BigInt_decimal (token_with "0") (lit (-1)) = Normal usdt /\
    Nltb usdt zero = true.
Proof.
  split; [vm_compute; reflexivity|].
  eexists. split; [vm_compute; reflexivity|]. vm_compute. reflexivity.
Qed.

Lemma C3_witness :
  (isNaN ((fun _ => S754_nan) "abc") = true \/
   Nleb ((fun _ => S754_nan) "abc") zero = true) /\
  quoteEffect BigInt_decimal (fun _ => S754_nan) (fun _ _ => "NaN") "abc" true
    (token_with "0") = Normal EmptyString.
Proof.
  split; [left; reflexivity|].
  refine (proj1 (C3_invalid_amount_is_empty_quote BigInt_decimal (fun _ => S754_nan)
                   (fun _ _ => "NaN") "abc" true (token_with "0") _)).
  left. reflexivity.
Defined.



(** C5: the sale of 1e26 tokens is quoted the whole virtual USDT reserve,
    the purchase for 1e22 USDT the whole virtual token reserve, and with
    1129 USDT raised the sale of 1e-8 tokens is quoted a negative
    amount, -2^-40 USDT. *)
Lemma C5_counterexample :
  (exists usdt,
     calculateUsdtToReceive BigInt_decimal (token_with "0") (lit (10 ^ 26)) = Normal usdt /\
     Nltb usdt VIRTUAL_USDT_RESERVE = false) /\
  (exists tokens,
     calculateTokensToReceive BigInt_decimal (token_with "0") (10 ^ 40) = Normal tokens /\
     Nltb tokens VIRTUAL_TOKEN_RESERVE = false) /\
  (exists usdt,
     calculateUsdtToReceive BigInt_decimal (token_with "1129000000000000000000") num_1e_8
       = Normal usdt /\
     Nleb zero usdt = false).
Proof.
  split; [|split]; (eexists; split; [vm_compute; reflexivity|]); vm_compute; reflexivity.
Qed.

Lemma C5_witness :
  raisedWei BigInt_decimal (token_with "0") = Some 0 /\ 0 <= 0 /\
  is_finite (virtualUsdtNatural (reservesAt (Number_formatUnits 0 18))) = true /\
  wf (lit 500000) = true /\ Nltb zero (lit 500000) = true /\ 0 <= 100 * 10 ^ 18 /\
  exists tokens,
    calculateTokensToReceive BigInt_decimal (token_with "0") (100 * 10 ^ 18) = Normal tokens /\
    Nleb zero tokens = true /\
    Nleb tokens (virtualTokensNatural (reservesAt (Number_formatUnits 0 18))) = true.
Proof.
  repeat (split; [evaluate|]).
  refine (proj2 (C5_quotes_are_bounded BigInt_decimal (token_with "0") 0 _ _ _
                   (lit 500000) (100 * 10 ^ 18) _ _ _)); evaluate.
Defined.

(** C6: the sales of 1 and of 1.00000001 tokens are quoted the same
    amount, and so are the purchases for 1 USDT and for 1 USDT and 100
    wei. *)
Lemma C6_counterexample :
  Nltb (lit 1) num_1_00000001 = true /\
  (exists qa qb,
     calculateUsdtToReceive BigInt_decimal (token_with "0") (lit 1) = Normal qa /\
     calculateUsdtToReceive BigInt_decimal (token_with "0") num_1_00000001 = Normal qb /\
     Nltb qa qb = false) /\
  (exists ta tb,
     calculateTokensToReceive BigInt_decimal (token_with "0") (10 ^ 18) = Normal ta /\
     calculateTokensToReceive BigInt_decimal (token_with "0") (10 ^ 18 + 100) = Normal tb /\
     Nltb ta tb = false).
Proof.
  split; [reflexivity|].
  split; (do 2 eexists; split; [vm_compute; reflexivity|];
          split; [vm_compute; reflexivity|]); vm_compute; reflexivity.
Qed.

Lemma C6_witness :
  raisedWei BigInt_decimal (token_with "0") = Some 0 /\ 0 <= 0 /\
  is_finite (virtualUsdtNatural (reservesAt (Number_formatUnits 0 18))) = true /\
  wf (lit 1000) = true /\ wf (lit 2000) = true /\ Nltb zero (lit 1000) = true /\
  Nleb (lit 1000) (lit 2000) = true /\ 0 <= 10 ^ 18 <= 2 * 10 ^ 18 /\
  exists qa qb,
    calculateUsdtToReceive BigInt_decimal (token_with "0") (lit 1000) = Normal qa /\
    calculateUsdtToReceive BigInt_decimal (token_with "0") (lit 2000) = Normal qb /\
    Nleb qa qb = true.
Proof.
  repeat (split; [evaluate|]).
  refine (proj1 (C6_quotes_are_monotone BigInt_decimal (token_with "0") 0 _ _ _
                   (lit 1000) (lit 2000) (10 ^ 18) (2 * 10 ^ 18) _ _ _ _ _)); evaluate.
Defined.

(** C7: with 1085 USDT raised, selling 1 token and buying back with the
    proceeds is quoted 1.0000001192092896 tokens; with 1e300 USDT raised
    the sale of 1 token is quoted 1e300 USDT, which times [1e18] is
    [Infinity], and [BigInt] throws. *)
Lemma C7_counterexample :
  (exists tokens,
     roundTrip BigInt_decimal (token_with "1085000000000000000000") (lit 1) = Normal tokens /\
     Nleb tokens (lit 1) = false) /\
  roundTrip BigInt_decimal (token_with
    "1000000000000000000000000000000000000000000000000000000000000000000000000000000000000000000000000000000000000000000000000000000000000000000000000000000000000000000000000000000000000000000000000000000000000000000000000000000000000000000000000000000000000000000000000000000000000000000000000000000000000000000000000000000")
    (lit 1) = Throw RangeError.
Proof.
  split; [|vm_compute; reflexivity].
  eexists. split; [vm_compute; reflexivity|]. vm_compute. reflexivity.
Qed.

Lemma C7_witness :
  raisedWei BigInt_decimal (token_with "1085000000000000000000") = Some (1085 * 10 ^ 18) /\
  0 <= 1085 * 10 ^ 18 <= 10 ^ 48 /\ pos_finite (lit 1) = true /\
  exists tokens,
    roundTrip BigInt_decimal (token_with "1085000000000000000000") (lit 1) = Normal tokens /\
    is_finite tokens = true /\
    (SF2R tokens <= SF2R (lit 1) + / 1000000)%R.
Proof.
  repeat (split; [evaluate|]).
  refine (proj1 (C7_round_trip_within_rounding BigInt_decimal
                   (token_with "1085000000000000000000") (1085 * 10 ^ 18) (lit 1) _ _ _));
    evaluate.
Defined.

(** C8: a raised total of 10^400 wei is read as [Infinity]; the reserves
    are then [Infinity] and 0 and their product is not the invariant. *)
Lemma C8_counterexample :
  raisedWei BigInt_decimal (token_with
    "10000000000000000000000000000000000000000000000000000000000000000000000000000000000000000000000000000000000000000000000000000000000000000000000000000000000000000000000000000000000000000000000000000000000000000000000000000000000000000000000000000000000000000000000000000000000000000000000000000000000000000000000000000000000000000000000000000000000000000000000000000000000000000000000000000000000000000")
    = Some (10 ^ 400) /\
  reservesAt (Number_formatUnits (10 ^ 400) 18) =
    {| virtualUsdtNatural := S754_infinity false; virtualTokensNatural := zero |} /\
  ~ invariant_within (/ 1000000000) (reservesAt (Number_formatUnits (10 ^ 400) 18)).
Proof.
  split; [vm_compute; reflexivity|].
  assert (E : reservesAt (Number_formatUnits (10 ^ 400) 18) =
    {| virtualUsdtNatural := S754_infinity false; virtualTokensNatural := zero |})
    by (vm_compute; reflexivity).
  split; [exact E|]. rewrite E. unfold invariant_within.
  cbn [virtualUsdtNatural virtualTokensNatural]. rewrite SF2R_BONDING_CURVE_K.
  simpl SF2R. rewrite Rmult_0_l, Rminus_0_l, Rabs_Ropp, Rabs_pos_eq by lra. lra.
Qed.

Lemma C8_witness :
  raisedWei BigInt_decimal (token_with "0") = Some 0 /\ 0 <= 0 /\
  is_finite (virtualUsdtNatural (reservesAt (Number_formatUnits 0 18))) = true /\
  0 <= 100 * 10 ^ 18 /\ wf (lit 500000) = true /\ Nltb zero (lit 500000) = true /\
  exists r,
    getCurrentVirtualReserves BigInt_decimal (token_with "0") = Normal r /\
    invariant_within (/ 1000000000) r /\
    (let r' := reservesAfterBuy r (Number_formatUnits (100 * 10 ^ 18) 18) in
     is_finite (virtualUsdtNatural r') = true -> invariant_within (/ 1000000000) r') /\
    (let r' := reservesAfterSell r (lit 500000) in
     is_finite (virtualTokensNatural r') = true ->
     is_finite (virtualUsdtNatural r') = true -> invariant_within (/ 1000000000) r').
Proof.
  repeat (split; [evaluate|]).
  refine (C8_invariant_within_tolerance BigInt_decimal (token_with "0") 0
            (100 * 10 ^ 18) (lit 500000) _ _ _ _ _ _); evaluate.
Defined.

(** C9: the spot prices at raised totals of 0 and of 1000 wei are the
    same Number. *)
Lemma C9_counterexample :
  exists p1 p2,
    getCurrentPriceNatural BigInt_decimal (token_with "0") = Normal p1 /\
    getCurrentPriceNatural BigInt_decimal (token_with "1000") = Normal p2 /\
    Nltb p1 p2 = false.
Proof.
  do 2 eexists. split; [vm_compute; reflexivity|].
  split; [vm_compute; reflexivity|]. vm_compute. reflexivity.
Qed.

Lemma C9_witness :
  raisedWei BigInt_decimal (token_with "0") = Some 0 /\
  raisedWei BigInt_decimal (token_with "1000000000000000000000") = Some (1000 * 10 ^ 18) /\
  0 <= 0 < 1000 * 10 ^ 18 /\
  exists p1 p2,
    getCurrentPriceNatural BigInt_decimal (token_with "0") = Normal p1 /\
    getCurrentPriceNatural BigInt_decimal (token_with "1000000000000000000000") = Normal p2 /\
    Nleb p1 p2 = true.
Proof.
  repeat (split; [evaluate|]).
  refine (proj1 (C9_price_is_monotone BigInt_decimal (token_with "0")
                   (token_with "1000000000000000000000") 0 (1000 * 10 ^ 18) _ _ _));
    evaluate.
Defined.

